(** * GeoCards: the question engine

    A shallow embedding of the question-selection, scoring and
    name-normalisation code of the GeoCards flashcard trainer, and the
    properties of its design document checked against it.

    The repository holds several revisions of the same component:
    - [src/lib/questions.ts]       (module [Lib]): the typed library;
    - the filtering JavaScript component (module [App]): per-type and
      pooled sampling, region and clue-type filters, score and streak;
    - the no-repeat JavaScript component (module [NoRepeat]): country-name
      normalisation and the used-image ledger;
    - [src/GeoguessrFlashcards.js], the first version, whose click handler
      is [Session.handleCountryClick_classic].

    Conventions of the embedding.
    - JavaScript strings are modelled by [string]; the model is exact on
      ASCII text.  On ASCII, [toLowerCase] maps [A-Z] to [a-z],
      [normalize("NFD")] is the identity, no character lies in the
      combining-mark range U+0300..U+036F, and the whitespace class of
      [\s] and of [trim] is tab, line feed, vertical tab, form feed,
      carriage return and space.
    - [Math.floor(Math.random() * n)] is a draw from an explicit source of
      randomness [rng]; every index below [n] can be drawn.
    - Counters are natural numbers (the code only adds one to them).
    - [null] and [undefined] are [None].
    - A React component is its state and the functions of its renders:
      [Session] and [View] read each handler as a function of the state of
      the moment; [Polygons] keeps track of the render whose click handler
      the polygons of the map hold. *)

From Stdlib Require Import Ascii String.
From stdpp Require Import base option list strings gmap sets sorting.

Local Open Scope list_scope.

#[local] Set Warnings "-clear-no-such-hyp".

(** ** JavaScript strings (ASCII fragment) *)

Definition code (c : ascii) : nat := nat_of_ascii c.

Definition is_upper (c : ascii) : bool := (65 <=? code c) && (code c <=? 90).
Definition is_lower (c : ascii) : bool := (97 <=? code c) && (code c <=? 122).

(** The characters matched by [\s] (and removed by [trim]). *)
Definition is_space (c : ascii) : bool :=
  (code c =? 32) || ((9 <=? code c) && (code c <=? 13)).

Definition lower_char (c : ascii) : ascii :=
  if is_upper c then ascii_of_nat (code c + 32) else c.

Fixpoint toLowerCase (s : string) : string :=
  match s with
  | EmptyString => EmptyString
  | String c r => String (lower_char c) (toLowerCase r)
  end.

(** [String.prototype.trim]: [trimStart] then [trimEnd]. *)
Fixpoint trimStart (s : string) : string :=
  match s with
  | EmptyString => EmptyString
  | String c r => if is_space c then trimStart r else s
  end.

Fixpoint trimEnd (s : string) : string :=
  match s with
  | EmptyString => EmptyString
  | String c r =>
      match trimEnd r with
      | EmptyString => if is_space c then EmptyString else String c EmptyString
      | r' => String c r'
      end
  end.

Definition trim (s : string) : string := trimEnd (trimStart s).

(** Truthiness of a string value that may be [null] or [undefined]:
    only a non-empty string is truthy. *)
Definition truthy (o : option string) : bool :=
  match o with
  | Some s => negb (String.eqb s "")
  | None => false
  end.

(** ** Randomness *)

(** The source of randomness: the numbers still to be drawn. *)
Definition rng := list nat.

(** [Math.floor(Math.random() * n)]: an index below [n] (0 when [n] is 0). *)
Definition random_below (n : nat) (g : rng) : nat * rng :=
  match g with
  | [] => (0, [])
  | r :: g' => (match n with 0 => 0 | S _ => r mod n end, g')
  end.

(** ** Data model ([src/types.ts]) *)

Record CountryItem := { type : string; images : list string }.

Record CountryEntry := {
  country : string;
  region : string;
  items : list CountryItem
}.

Record QuestionImage := { url : string; img_type : string }.

Record Question := { correctCountry : string; q_images : list QuestionImage }.

Record QuestionOptions := {
  clueCount : option nat;
  opt_region : option string;
  itemType : option string
}.

Definition no_options : QuestionOptions :=
  {| clueCount := None; opt_region := None; itemType := None |}.

(** ** Code shared by every revision *)

(** [[a[i], a[j]] = [a[j], a[i]]]: the right-hand side is read first, then
    [a[i]] and [a[j]] are written in that order.  The loop of
    [shuffleArray] only swaps indices inside the array; outside it the
    model leaves the array alone. *)
Definition swap {A} (a : list A) (i j : nat) : list A :=
  match a !! i, a !! j with
  | Some x, Some y => <[j:=x]> (<[i:=y]> a)
  | _, _ => a
  end.

(** [for (let i = a.length - 1; i > 0; i--)], entered with counter [i]. *)
Fixpoint shuffle_loop {A} (i : nat) (a : list A) (g : rng) : list A * rng :=
  match i with
  | 0 => (a, g)
  | S i' =>
      let '(j, g') := random_below (S i) g in
      shuffle_loop i' (swap a i j) g'
  end.

(** [shuffleArray] on array values: the content of the returned array. *)
Definition shuffleArray {A} (arr : list A) (g : rng) : list A * rng :=
  shuffle_loop (length arr - 1) arr g.

(** [shuffleArray] on a store of arrays, to speak about the identity of the
    array it returns: [[...arr]] allocates a copy, the loop then mutates
    the copy in place. *)
Definition loc := nat.

Definition swap_at {A} (p : loc) (i j : nat) (h : gmap loc (list A))
  : gmap loc (list A) :=
  match h !! p with
  | Some a => <[p:=swap a i j]> h
  | None => h
  end.

Fixpoint shuffle_loop_at {A} (i : nat) (p : loc) (h : gmap loc (list A))
    (g : rng) : gmap loc (list A) * rng :=
  match i with
  | 0 => (h, g)
  | S i' =>
      let '(j, g') := random_below (S i) g in
      shuffle_loop_at i' p (swap_at p i j h) g'
  end.

(** Returns [None] when [p] is not an array of the store (the spread
    would throw). *)
Definition shuffleArray_at {A} (p : loc) (h : gmap loc (list A)) (g : rng)
  : option (loc * gmap loc (list A) * rng) :=
  match h !! p with
  | None => None
  | Some arr =>
      let q := fresh (dom h) in
      let '(h', g') := shuffle_loop_at (length arr - 1) q (<[q:=arr]> h) g in
      Some (q, h', g')
  end.

(** [validItems]: the items that have at least one image. *)
Definition validItems (its : list CountryItem) : list CountryItem :=
  List.filter (fun it => 0 <? length (images it)) its.

(** The pooled images of a list of items: one [{url, type}] per image, in
    item order. *)
Definition pooled (its : list CountryItem) : list QuestionImage :=
  flat_map (fun it => map (fun u => {| url := u; img_type := type it |}) (images it)) its.

(** ** [src/lib/questions.ts] *)

Module Lib.

Definition MIN_CLUES : nat := 3.

(** The filter of [gatherImages]: [!targetType] lets every item through
    when no type, or the empty type, is asked for. *)
Definition matches_type (itemType : option string) (it : CountryItem) : bool :=
  match toLowerCase <$> itemType with
  | Some targetType =>
      if truthy (Some targetType)
      then String.eqb (toLowerCase (type it)) targetType
      else true
  | None => true
  end.

Definition gatherImages (its : list CountryItem) (itemType : option string)
  : list QuestionImage :=
  pooled (List.filter (matches_type itemType) (validItems its)).

Definition buildQuestion (entry : CountryEntry) (options : QuestionOptions)
    (g : rng) : option Question * rng :=
  let k := default MIN_CLUES (clueCount options) in
  let imagesPool := gatherImages (items entry) (itemType options) in
  if length imagesPool <? k then (None, g)
  else
    let '(shuffled, g') := shuffleArray imagesPool g in
    (Some {| correctCountry := country entry; q_images := take k shuffled |}, g').

(** The callback of the [filter] in [pickQuestion]. *)
Definition is_candidate (options : QuestionOptions) (entry : CountryEntry) : bool :=
  let k := default MIN_CLUES (clueCount options) in
  if truthy (opt_region options)
     && negb (bool_decide (Some (region entry) = opt_region options))
  then false
  else k <=? length (gatherImages (items entry) (itemType options)).

Definition candidates (dataset : option (list CountryEntry))
    (options : QuestionOptions) : list CountryEntry :=
  List.filter (is_candidate options) (default [] dataset).

Definition pickQuestion (dataset : option (list CountryEntry))
    (options : QuestionOptions) (g : rng) : option Question * rng :=
  let cs := candidates dataset options in
  if length cs =? 0 then (None, g)
  else
    let '(j, g') := random_below (length cs) g in
    match cs !! j with
    | Some correct => buildQuestion correct options g'
    | None => (None, g')
    end.

End Lib.

(** ** The filtering component (per-type and pooled sampling) *)

Module App.

(** The [forEach] of [getUniqueTypeItems], with its [seen] set and its
    [unique] array. *)
Fixpoint unique_loop (its : list CountryItem) (seen : gset string)
    (unique : list CountryItem) : list CountryItem :=
  match its with
  | [] => unique
  | item :: rest =>
      let key := toLowerCase (type item) in
      if negb (truthy (Some key)) || bool_decide (key ∈ seen)
      then unique_loop rest seen unique
      else unique_loop rest ({[key]} ∪ seen) (unique ++ [item])
  end.

Definition getUniqueTypeItems (its : list CountryItem) : list CountryItem :=
  unique_loop its ∅ [].

Definition getImagesForType (its : list CountryItem) (itemType : option string)
  : list QuestionImage :=
  let target := if truthy itemType then toLowerCase <$> itemType else None in
  pooled (List.filter
            (fun item =>
               negb (truthy target)
               || bool_decide (Some (toLowerCase (type item)) = target))
            its).

(** [chosenItems.map(...)]: one random image per chosen item.  The items
    come from [validItems], so the index drawn is inside [item.images]. *)
Fixpoint pick_images (chosen : list CountryItem) (g : rng)
  : list QuestionImage * rng :=
  match chosen with
  | [] => ([], g)
  | item :: rest =>
      let '(j, g1) := random_below (length (images item)) g in
      let img := default "" (images item !! j) in
      let '(imgs, g2) := pick_images rest g1 in
      ({| url := img; img_type := type item |} :: imgs, g2)
  end.

Definition buildQuestion (entry : CountryEntry) (options : QuestionOptions)
    (g : rng) : option Question * rng :=
  let k := default 3 (clueCount options) in
  let usableItems := validItems (items entry) in
  if length usableItems =? 0 then (None, g)
  else if truthy (itemType options) then
    let imagesPool := getImagesForType usableItems (itemType options) in
    if length imagesPool <? k then (None, g)
    else
      let '(shuffled, g') := shuffleArray imagesPool g in
      (Some {| correctCountry := country entry; q_images := take k shuffled |}, g')
  else
    let uniqueItems := getUniqueTypeItems usableItems in
    if length uniqueItems <? k then (None, g)
    else
      let '(shuffled, g1) := shuffleArray uniqueItems g in
      let '(imgs, g2) := pick_images (take k shuffled) g1 in
      (Some {| correctCountry := country entry; q_images := imgs |}, g2).

Definition is_candidate (options : QuestionOptions) (entry : CountryEntry) : bool :=
  let k := default 3 (clueCount options) in
  if truthy (opt_region options)
     && negb (bool_decide (Some (region entry) = opt_region options))
  then false
  else
    let usableItems := validItems (items entry) in
    if length usableItems =? 0 then false
    else if truthy (itemType options) then
      k <=? length (getImagesForType usableItems (itemType options))
    else k <=? length (getUniqueTypeItems usableItems).

Definition candidates (dataset : option (list CountryEntry))
    (options : QuestionOptions) : list CountryEntry :=
  List.filter (is_candidate options) (default [] dataset).

Definition pickQuestion (dataset : option (list CountryEntry))
    (options : QuestionOptions) (g : rng) : option Question * rng :=
  let cs := candidates dataset options in
  if length cs =? 0 then (None, g)
  else
    let '(j, g') := random_below (length cs) g in
    match cs !! j with
    | Some correct => buildQuestion correct options g'
    | None => (None, g')
    end.

End App.

(** ** Dataset validation ([datasetSchema] and [validateDataset]) *)

Module Schema.

(** The values [validateDataset] may be given: parsed JSON.  Numbers
    carry no payload the schema looks at. *)
#[local] Unset Elimination Schemes.
Inductive json :=
| JNull
| JBool (b : bool)
| JNum (n : Z)
| JStr (s : string)
| JArr (elems : list json)
| JObj (fields : list (string * json)).
#[local] Set Elimination Schemes.

Inductive path_elem := Key (k : string) | Index (i : nat).

Inductive issue_code := invalid_type | too_small.

Record issue := { code_of : issue_code; path : list path_elem }.

(** The outcome of [parse]: the parsed value, or a [ZodError] with every
    issue found. *)
Inductive result (A : Type) :=
| Ok (value : A)
| ZodError (issues : list issue).
Arguments Ok {A} value.
Arguments ZodError {A} issues.

Definition issues_of {A} (r : result A) : list issue :=
  match r with Ok _ => [] | ZodError l => l end.

(** All the parsed values when every parse succeeded, every issue
    otherwise. *)
Fixpoint collect {A} (rs : list (result A)) : result (list A) :=
  match rs with
  | [] => Ok []
  | r :: rest =>
      match r, collect rest with
      | Ok v, Ok vs => Ok (v :: vs)
      | _, c => ZodError (issues_of r ++ issues_of c)
      end
  end.

(** Property lookup; a missing property is [undefined]. *)
Fixpoint get (k : string) (fields : list (string * json)) : option json :=
  match fields with
  | [] => None
  | (k', v) :: rest => if String.eqb k k' then Some v else get k rest
  end.

(** [z.string().min(1)] *)
Definition string_min1 (p : list path_elem) (v : option json) : result string :=
  match v with
  | Some (JStr s) =>
      if String.length s <? 1 then ZodError [{| code_of := too_small; path := p |}]
      else Ok s
  | _ => ZodError [{| code_of := invalid_type; path := p |}]
  end.

(** [z.array(elem).min(1)] *)
Definition array_min1 {A} (elem : list path_elem -> option json -> result A)
    (p : list path_elem) (v : option json) : result (list A) :=
  match v with
  | Some (JArr elems) =>
      let small :=
        if length elems <? 1 then [{| code_of := too_small; path := p |}] else [] in
      match collect (imap (fun i e => elem (p ++ [Index i]) (Some e)) elems), small with
      | Ok vs, [] => Ok vs
      | c, _ => ZodError (small ++ issues_of c)
      end
  | _ => ZodError [{| code_of := invalid_type; path := p |}]
  end.

Definition countryItemSchema (p : list path_elem) (v : option json)
  : result CountryItem :=
  match v with
  | Some (JObj fields) =>
      match string_min1 (p ++ [Key "type"]) (get "type" fields),
            array_min1 string_min1 (p ++ [Key "images"]) (get "images" fields) with
      | Ok t, Ok imgs => Ok {| type := t; images := imgs |}
      | rt, ri => ZodError (issues_of rt ++ issues_of ri)
      end
  | _ => ZodError [{| code_of := invalid_type; path := p |}]
  end.

Definition countryEntrySchema (p : list path_elem) (v : option json)
  : result CountryEntry :=
  match v with
  | Some (JObj fields) =>
      match string_min1 (p ++ [Key "country"]) (get "country" fields),
            string_min1 (p ++ [Key "region"]) (get "region" fields),
            array_min1 countryItemSchema (p ++ [Key "items"]) (get "items" fields) with
      | Ok c, Ok r, Ok its => Ok {| country := c; region := r; items := its |}
      | rc, rr, ri => ZodError (issues_of rc ++ issues_of rr ++ issues_of ri)
      end
  | _ => ZodError [{| code_of := invalid_type; path := p |}]
  end.

Definition datasetSchema (v : json) : result (list CountryEntry) :=
  array_min1 countryEntrySchema [] (Some v).

(** [validateDataset]: [datasetSchema.parse(input)], which throws the
    [ZodError]. *)
Definition validateDataset (input : json) : result (list CountryEntry) :=
  datasetSchema input.

(** The JSON text of a dataset, as the dataset file holds it. *)
Definition item_json (it : CountryItem) : json :=
  JObj [("type", JStr (type it)); ("images", JArr (JStr <$> images it))].

Definition entry_json (e : CountryEntry) : json :=
  JObj [("country", JStr (country e)); ("region", JStr (region e));
        ("items", JArr (item_json <$> items e))].

Definition dataset_json (d : list CountryEntry) : json := JArr (entry_json <$> d).

(** The shape the schema asks of the records. *)
Definition nonempty (s : string) : bool := negb (String.eqb s "").

Definition item_ok (it : CountryItem) : bool :=
  nonempty (type it) && (0 <? length (images it)) && forallb nonempty (images it).

Definition entry_ok (region_may_be_empty : bool) (e : CountryEntry) : bool :=
  nonempty (country e) && (region_may_be_empty || nonempty (region e))
  && (0 <? length (items e)) && forallb item_ok (items e).

End Schema.

(** ** The no-repeat component: name normalisation and the used-image ledger *)

Module NoRepeat.

(** [ALIASES]: the entries of the object literal, in order (its keys are
    distinct). *)
Definition ALIASES : list (string * string) :=
  [ ("united states of america", "united states");
    ("usa", "united states");
    ("us", "united states");
    ("russian federation", "russia");
    ("republic of korea", "south korea");
    ("korea, republic of", "south korea");
    ("korea (republic of)", "south korea");
    ("korea, democratic people's republic of", "north korea");
    ("democratic people's republic of korea", "north korea");
    ("syrian arab republic", "syria");
    ("czech republic", "czechia");
    ("swaziland", "eswatini");
    ("cabo verde", "cape verde");
    ("myanmar", "burma");
    ("ivory coast", "cote d'ivoire");
    ("côte d’ivoire", "cote d'ivoire");
    ("lao people's democratic republic", "laos");
    ("plurinational state of bolivia", "bolivia");
    ("islamic republic of iran", "iran");
    ("united republic of tanzania", "tanzania");
    ("republic of moldova", "moldova");
    ("macedonia", "north macedonia");
    ("bosnia & herzegovina", "bosnia and herzegovina") ].

(** [ALIASES.get(s)], [None] when [ALIASES.has(s)] is false. *)
Fixpoint alias_get (s : string) (table : list (string * string)) : option string :=
  match table with
  | [] => None
  | (k, v) :: rest => if String.eqb s k then Some v else alias_get s rest
  end.

(** [s.normalize("NFD")] followed by the removal of the combining marks
    U+0300..U+036F: on ASCII text the decomposition changes nothing and
    there is no combining mark to remove. *)
Definition stripDiacritics (s : string) : string := s.

(** [.replace(/\s+/g, " ")]: every maximal run of whitespace becomes one
    space; [in_run] tells that the previous character was whitespace. *)
Fixpoint collapse_from (in_run : bool) (s : string) : string :=
  match s with
  | EmptyString => EmptyString
  | String c r =>
      if is_space c
      then if in_run then collapse_from true r else String " " (collapse_from true r)
      else String c (collapse_from false r)
  end.

Definition collapse_spaces (s : string) : string := collapse_from false s.

(** The class [[a-z'\s-]]. *)
Definition kept (c : ascii) : bool :=
  is_lower c || Ascii.eqb c "'" || is_space c || Ascii.eqb c "-".

(** [.replace(/[^a-z'\s-]/g, "")] *)
Fixpoint strip_others (s : string) : string :=
  match s with
  | EmptyString => EmptyString
  | String c r => if kept c then String c (strip_others r) else strip_others r
  end.

Definition normalizeCountryName (name : string) : string :=
  if negb (truthy (Some name)) then ""
  else
    let s := toLowerCase (trim name) in
    let s := strip_others (collapse_spaces (stripDiacritics s)) in
    match alias_get s ALIASES with
    | Some canonical => canonical
    | None => s
    end.

(** One sampled clue; [clue_url] is [undefined] only for an item without
    images, which [validItems] never lets through. *)
Record Clue := { clue_url : option string; clue_type : string }.

Record Round := { nr_correctCountry : string; nr_images : list Clue }.

(** The template literal [`${it.type}|${u}`]. *)
Definition imageKey (t : string) (u : option string) : string :=
  t +:+ "|" +:+ default "undefined" u.

(** [for (const u of it.images) usedForCountry.delete(...)] *)
Fixpoint delete_keys (t : string) (imgs : list string) (used : gset string)
  : gset string :=
  match imgs with
  | [] => used
  | u :: rest => delete_keys t rest (used ∖ {[imageKey t (Some u)]})
  end.

(** The callback of [chosenItems.map]: one image of [it], and the ledger
    of the country after it. *)
Definition pick_image (it : CountryItem) (used : gset string) (g : rng)
  : Clue * gset string * rng :=
  let '(imgs, g') := shuffleArray (images it) g in
  let found :=
    List.find (fun u => negb (bool_decide (imageKey (type it) (Some u) ∈ used))) imgs in
  let '(choice, used1) :=
    if truthy found then (found, used)
    else (head imgs, delete_keys (type it) (images it) used) in
  ({| clue_url := choice; clue_type := type it |},
   {[imageKey (type it) choice]} ∪ used1, g').

Fixpoint pick_images (chosen : list CountryItem) (used : gset string) (g : rng)
  : list Clue * gset string * rng :=
  match chosen with
  | [] => ([], used, g)
  | it :: rest =>
      let '(clue, used1, g1) := pick_image it used g in
      let '(clues, used2, g2) := pick_images rest used1 g1 in
      (clue :: clues, used2, g2)
  end.

Definition pickQuestion (dataset : option (list CountryEntry))
    (excludeCountry : option string)
    (usedImagesByCountry : gmap string (gset string)) (g : rng)
  : option Round * gmap string (gset string) * rng :=
  let candidates :=
    List.filter (fun entry => 3 <=? length (validItems (items entry)))
                (default [] dataset) in
  if length candidates =? 0 then (None, usedImagesByCountry, g)
  else
    let pool :=
      if truthy excludeCountry && (1 <? length candidates) then
        let others :=
          List.filter
            (fun c => negb (String.eqb (normalizeCountryName (country c))
                                       (normalizeCountryName (default "" excludeCountry))))
            candidates in
        if length others =? 0 then candidates else others
      else candidates in
    let '(j, g1) := random_below (length pool) g in
    match pool !! j with
    | None => (None, usedImagesByCountry, g1)
    | Some correct =>
        let '(itemPool, g2) := shuffleArray (validItems (items correct)) g1 in
        let chosenItems := take 3 itemPool in
        let usedForCountry := default ∅ (usedImagesByCountry !! country correct) in
        let '(clues, used', g3) := pick_images chosenItems usedForCountry g2 in
        (Some {| nr_correctCountry := country correct; nr_images := clues |},
         <[country correct := used']> usedImagesByCountry, g3)
    end.

End NoRepeat.

(** ** The session: selection, correctness flag and metrics *)

Module Session.

Record state := {
  question : option Question;
  selected : option string;
  isCorrect : option bool;
  score : nat;
  answered : nat;
  streak : nat
}.

Definition initial : state :=
  {| question := None; selected := None; isCorrect := None;
     score := 0; answered := 0; streak := 0 |}.

(** [handleCountryClick] of the filtering component and of the typed
    component. *)
Definition handleCountryClick (countryName : string) (st : state) : state :=
  match question st with
  | Some q =>
      if truthy (selected st) then st
      else
        let correct := String.eqb countryName (correctCountry q) in
        {| question := question st;
           selected := Some countryName;
           isCorrect := Some correct;
           score := if correct then score st + 1 else score st;
           answered := answered st + 1;
           streak := if correct then streak st + 1 else 0 |}
  | None => st
  end.

(** [handleCountryClick] of [src/GeoguessrFlashcards.js], which keeps no
    streak. *)
Definition handleCountryClick_classic (countryName : string) (st : state) : state :=
  match question st with
  | Some q =>
      if truthy (selected st) then st
      else
        let correct := String.eqb countryName (correctCountry q) in
        {| question := question st;
           selected := Some countryName;
           isCorrect := Some correct;
           score := if correct then score st + 1 else score st;
           answered := answered st + 1;
           streak := streak st |}
  | None => st
  end.

(** [onEachCountry]: a polygon gets a click handler only when its feature
    has a name; the handler forwards that name.  Here the handler is the
    one of the render of [st] itself; [Polygons.click] is the click on a
    polygon that holds the handler of an earlier render. *)
Definition layer_click (name : option string) (st : state) : state :=
  if truthy name then handleCountryClick (default "" name) st else st.

Definition layer_click_classic (name : option string) (st : state) : state :=
  if truthy name then handleCountryClick_classic (default "" name) st else st.

(** [rerollQuestion], given the question [pickQuestion] returned. *)
Definition rerollQuestion (resetStats : bool) (next : option Question)
    (st : state) : state :=
  {| question := next;
     selected := None;
     isCorrect := None;
     score := if resetStats then 0 else score st;
     answered := if resetStats then 0 else answered st;
     streak := if resetStats then 0 else streak st |}.

(** The states a session goes through: it starts in [initial]; the user
    clicks polygons and asks for questions. *)
Inductive reachable : state -> Prop :=
| reach_initial : reachable initial
| reach_click name st :
    reachable st -> reachable (layer_click name st)
| reach_click_classic name st :
    reachable st -> reachable (layer_click_classic name st)
| reach_reroll resetStats next st :
    reachable st -> reachable (rerollQuestion resetStats next st).

End Session.

(** ** [src/GeoguessrFlashcards.js]: the first version of [pickQuestion] *)

Module Classic.

(** Three items with images are drawn, then one image of each. *)
Definition pickQuestion (dataset : option (list CountryEntry)) (g : rng)
  : option Question * rng :=
  let candidates :=
    List.filter (fun entry => 3 <=? length (validItems (items entry)))
                (default [] dataset) in
  if length candidates =? 0 then (None, g)
  else
    let '(j, g1) := random_below (length candidates) g in
    match candidates !! j with
    | None => (None, g1)
    | Some correct =>
        let '(itemPool, g2) := shuffleArray (validItems (items correct)) g1 in
        let chosenItems := take 3 itemPool in
        let '(imgs, g3) := App.pick_images chosenItems g2 in
        (Some {| correctCountry := country correct; q_images := imgs |}, g3)
    end.

End Classic.

(** ** [src/lib/questions.ts]: what the filters offer *)

Module Listing.

Definition getCountries (data : option (list CountryEntry)) : list string :=
  country <$> default [] data.

(** [Set.prototype.add] on a set kept in insertion order. *)
Definition set_add (x : string) (set : list string) : list string :=
  if bool_decide (x ∈ set) then set else set ++ [x].

(** The loop of [getRegions] over the records, with its [regions] set. *)
Fixpoint regions_loop (data : list CountryEntry) (regions : list string)
  : list string :=
  match data with
  | [] => regions
  | entry :: rest =>
      regions_loop rest
        (if truthy (Some (region entry)) then set_add (region entry) regions
         else regions)
  end.

(** [Map.prototype.has] on a map kept as its entries in insertion order. *)
Definition map_has (key : string) (types : list (string * string)) : bool :=
  bool_decide (key ∈ types.*1).

(** The inner loop of [getItemTypes], over the items of one record. *)
Fixpoint types_of_items (its : list CountryItem) (types : list (string * string))
  : list (string * string) :=
  match its with
  | [] => types
  | item :: rest =>
      types_of_items rest
        (if negb (truthy (Some (type item))) then types
         else
           let key := toLowerCase (type item) in
           if map_has key types then types else types ++ [(key, type item)])
  end.

Fixpoint types_loop (data : list CountryEntry) (types : list (string * string))
  : list (string * string) :=
  match data with
  | [] => types
  | entry :: rest => types_loop rest (types_of_items (items entry) types)
  end.

(** The comparison of [sort((a, b) => a.localeCompare(b))] depends on the
    locale of the browser: the sort is a parameter, [localeSort]. *)
Section Sorted.
Variable localeSort : list string -> list string.

Definition getRegions (data : option (list CountryEntry)) : list string :=
  localeSort (regions_loop (default [] data) []).

Definition getItemTypes (data : option (list CountryEntry)) : list string :=
  localeSort ((types_loop (default [] data) []).*2).

End Sorted.

End Listing.

(** ** The filtering component: asking for a question and revealing clues *)

Module View.

Record state := {
  session : Session.state;
  visibleClues : nat;
  filterError : bool
}.

Definition initial : state :=
  {| session := Session.initial; visibleClues := 1; filterError := false |}.

(** [questionOptions]: the active filters, [|| undefined]. *)
Definition questionOptions (activeRegion activeItemType : option string)
  : QuestionOptions :=
  {| clueCount := None;
     opt_region := if truthy activeRegion then activeRegion else None;
     itemType := if truthy activeItemType then activeItemType else None |}.

(** [rerollQuestion({ resetStats })] *)
Definition rerollQuestion (data : option (list CountryEntry))
    (options : QuestionOptions) (resetStats : bool) (g : rng) (v : state)
  : state * rng :=
  match data with
  | None => (v, g)
  | Some _ =>
      let '(next, g') := App.pickQuestion data options g in
      match next with
      | None =>
          ({| session := Session.rerollQuestion resetStats None (session v);
              visibleClues := 0;
              filterError := true |}, g')
      | Some q =>
          ({| session := Session.rerollQuestion resetStats (Some q) (session v);
              visibleClues := 1;
              filterError := false |}, g')
      end
  end.

(** The key [h] and the two reveal buttons. *)
Definition reveal (v : state) : state :=
  match Session.question (session v) with
  | None => v
  | Some q =>
      {| session := session v;
         visibleClues := Nat.min (length (q_images q)) (visibleClues v + 1);
         filterError := filterError v |}
  end.

(** A click on a polygon. *)
Definition click (name : option string) (v : state) : state :=
  {| session := Session.layer_click name (session v);
     visibleClues := visibleClues v;
     filterError := filterError v |}.

(** [cluesShown] *)
Definition cluesShown (v : state) : nat :=
  match Session.question (session v) with
  | None => 0
  | Some q => Nat.min (visibleClues v) (length (q_images q))
  end.

(** The states of the component, from the first render on. *)
Inductive reachable : state -> Prop :=
| reach_initial : reachable initial
| reach_reroll data activeRegion activeItemType resetStats g v :
    reachable v ->
    reachable (rerollQuestion data (questionOptions activeRegion activeItemType)
                              resetStats g v).1
| reach_reveal v : reachable v -> reachable (reveal v)
| reach_click name v : reachable v -> reachable (click name v).

End View.

(** ** [generate-data.mjs]: folder and file names *)

Module Compiler.

(** The class [[\s_-]]. *)
Definition is_sep (c : ascii) : bool :=
  is_space c || Ascii.eqb c "_" || Ascii.eqb c "-".

(** The class [\d]. *)
Definition is_digit (c : ascii) : bool := (48 <=? code c) && (code c <=? 57).

(** [toUpperCase] on a letter of [[a-z]]. *)
Definition upper_char (c : ascii) : ascii :=
  if is_lower c then ascii_of_nat (code c - 32) else c.

(** [name.replace(/(^|[\s_-])([a-z])/g, (_, a, b) => a + b.toUpperCase())]:
    a letter of [[a-z]] is put in upper case when it is the first character
    or follows a separator; [boundary] tells that the character read comes
    first or follows a separator.  (Two matches never overlap: the
    character a match ends with is a letter, not a separator.) *)
Fixpoint title_from (boundary : bool) (s : string) : string :=
  match s with
  | EmptyString => EmptyString
  | String c r =>
      String (if boundary && is_lower c then upper_char c else c)
             (title_from (is_sep c) r)
  end.

Definition NORMALIZE_COUNTRY (name : string) : string := title_from true name.

(** What is left of a string after the longest prefix of characters of a
    class: the greedy [c*] of the patterns below, each followed by a
    character outside the class. *)
Fixpoint skip (p : ascii -> bool) (s : string) : string :=
  match s with
  | EmptyString => EmptyString
  | String c r => if p c then skip p r else s
  end.

(** [s] as a whole matches [\s*\(\d+\)\s*]. *)
Definition paren_counter (s : string) : bool :=
  match skip is_space s with
  | String "(" r =>
      match r with
      | String d _ =>
          is_digit d
          && match skip is_digit r with
             | String ")" r' => match skip is_space r' with
                                | EmptyString => true
                                | _ => false
                                end
             | _ => false
             end
      | EmptyString => false
      end
  | _ => false
  end.

(** [s] as a whole matches [[\s_-]*\d+\s*]. *)
Definition plain_counter (s : string) : bool :=
  match skip is_sep s with
  | String d r =>
      is_digit d
      && match skip is_space (skip is_digit r) with
         | EmptyString => true
         | _ => false
         end
  | EmptyString => false
  end.

(** [s.replace(/P$/, "")] for a pattern [P] recognised by [matches]: the
    match found is the leftmost one, that is, the longest suffix of [s]
    that matches [P]; it is removed. *)
Fixpoint remove_suffix (matches : string -> bool) (s : string) : string :=
  if matches s then EmptyString
  else match s with
       | EmptyString => EmptyString
       | String c r => String c (remove_suffix matches r)
       end.

Definition deriveType (filenameWithoutExt : string) : string :=
  let base := trim filenameWithoutExt in
  let base := remove_suffix paren_counter base in
  let base := remove_suffix plain_counter base in
  trim base.

End Compiler.

(** ** The map: the click handler that the polygons hold *)

Module Polygons.

(** What the [handleCountryClick] of one render closes over: the [selected]
    and the [question] of that render.  The counters are not among it:
    [setAnswered], [setScore] and [setStreak] are given updaters
    ([(n) => n + 1]), which apply to the state of the moment. *)
Record closure := {
  seen_selected : option string;
  seen_question : option Question
}.

Definition capture (st : Session.state) : closure :=
  {| seen_selected := Session.selected st;
     seen_question := Session.question st |}.

(** [handleCountryClick] as the render that saw [c] made it, called when
    the state is [st] (filtering component). *)
Definition handleCountryClick (c : closure) (countryName : string)
    (st : Session.state) : Session.state :=
  match seen_question c with
  | Some q =>
      if truthy (seen_selected c) then st
      else
        let correct := String.eqb countryName (correctCountry q) in
        {| Session.question := Session.question st;
           Session.selected := Some countryName;
           Session.isCorrect := Some correct;
           Session.score :=
             if correct then Session.score st + 1 else Session.score st;
           Session.answered := Session.answered st + 1;
           Session.streak := if correct then Session.streak st + 1 else 0 |}
  | None => st
  end.

(** The same for [src/GeoguessrFlashcards.js], which keeps no streak. *)
Definition handleCountryClick_classic (c : closure) (countryName : string)
    (st : Session.state) : Session.state :=
  match seen_question c with
  | Some q =>
      if truthy (seen_selected c) then st
      else
        let correct := String.eqb countryName (correctCountry q) in
        {| Session.question := Session.question st;
           Session.selected := Some countryName;
           Session.isCorrect := Some correct;
           Session.score :=
             if correct then Session.score st + 1 else Session.score st;
           Session.answered := Session.answered st + 1;
           Session.streak := Session.streak st |}
  | None => st
  end.

(** The layer of [<GeoJSON key=... onEachFeature={onEachCountry} />]: the
    key it was created under, and the closure of the render that created
    it.  [onEachFeature] is called when the layer is created, once for each
    feature, and not again: the polygons keep the [click] handler that
    [onEachCountry] of that render gave them. *)
Record layer := { key : string; handler : closure }.

(** [question?.correctCountry || "init"] *)
Definition layer_key (q : option Question) : string :=
  if truthy (correctCountry <$> q) then default "" (correctCountry <$> q)
  else "init".

Definition create (st : Session.state) : layer :=
  {| key := layer_key (Session.question st); handler := capture st |}.

(** One render with the map on screen: the element keeps its layer as long
    as its key is the same, and gets a new one otherwise. *)
Definition render (st : Session.state) (old : option layer) : layer :=
  match old with
  | Some l =>
      if String.eqb (key l) (layer_key (Session.question st)) then l
      else create st
  | None => create st
  end.

(** The component: its session, and the layer when the map is on screen. *)
Record state := { session : Session.state; polygons : option layer }.

(** The filtering component once the dataset and the map are loaded;
    [mapOpen]: the map is on screen ([!isCompactLayout || isMapOpen]). *)
Definition loaded (mapOpen : bool) : state :=
  {| session := Session.initial;
     polygons := if mapOpen then Some (create Session.initial) else None |}.

(** [rerollQuestion], given the question [pickQuestion] returned, and the
    render that follows. *)
Definition rerollQuestion (resetStats : bool) (next : option Question)
    (v : state) : state :=
  let st := Session.rerollQuestion resetStats next (session v) in
  {| session := st;
     polygons := (fun l => render st (Some l)) <$> polygons v |}.

(** A click on a polygon of the layer, and the render that follows. *)
Definition click (name : option string) (v : state) : state :=
  match polygons v with
  | Some l =>
      let st :=
        if truthy name
        then handleCountryClick (handler l) (default "" name) (session v)
        else session v in
      {| session := st; polygons := Some (render st (Some l)) |}
  | None => v
  end.

(** The map panel of the compact layout, closed and opened. *)
Definition hideMap (v : state) : state :=
  {| session := session v; polygons := None |}.

Definition showMap (v : state) : state :=
  {| session := session v;
     polygons := Some (render (session v) (polygons v)) |}.

(** [named q]: the layer made for [q] is keyed by the country of [q]
    (the key of a question about a country named [""] or ["init"] is the
    key of no question at all). *)
Definition named (q : Question) : Prop :=
  correctCountry q ≠ "" /\ correctCountry q ≠ "init".

(** The states of the filtering component, as long as no question is about
    a country named [""] or ["init"]. *)
Inductive reachable : state -> Prop :=
| reach_loaded mapOpen : reachable (loaded mapOpen)
| reach_reroll resetStats next v :
    reachable v -> from_option named True next ->
    reachable (rerollQuestion resetStats next v)
| reach_click name v : reachable v -> reachable (click name v)
| reach_hide v : reachable v -> reachable (hideMap v)
| reach_show v : reachable v -> reachable (showMap v).

(** [src/GeoguessrFlashcards.js]: [nextQuestion], given the question
    [pickQuestion] returned; the map is on screen only while a question is
    held. *)
Definition nextQuestion_classic (next : option Question) (v : state) : state :=
  let st := Session.rerollQuestion false next (session v) in
  {| session := st;
     polygons := if next is Some _ then Some (render st (polygons v)) else None |}.

Definition click_classic (name : option string) (v : state) : state :=
  match polygons v with
  | Some l =>
      let st :=
        if truthy name
        then handleCountryClick_classic (handler l) (default "" name) (session v)
        else session v in
      {| session := st; polygons := Some (render st (Some l)) |}
  | None => v
  end.

(** The first version once its resources are loaded: the first question
    is set by the loading effect itself. *)
Definition loaded_classic (first : option Question) : state :=
  nextQuestion_classic first {| session := Session.initial; polygons := None |}.

End Polygons.

(** ** Examples *)

Definition item (t : string) (imgs : list string) : CountryItem :=
  {| type := t; images := imgs |}.

Definition france : CountryEntry :=
  {| country := "France"; region := "Europe";
     items := [item "bollard" ["a.jpg"]; item "pole" ["b.jpg"]; item "sign" ["c.jpg"]] |}.

(** One clue type only, with three images. *)
Definition chile : CountryEntry :=
  {| country := "Chile"; region := "Americas";
     items := [item "bollard" ["1.jpg"; "2.jpg"; "3.jpg"]] |}.

(** A record as the dataset compiler writes it: the region left blank. *)
Definition france_blank : CountryEntry :=
  {| country := "France"; region := ""; items := items france |}.

Definition in_europe : QuestionOptions :=
  {| clueCount := None; opt_region := Some "Europe"; itemType := None |}.

Definition in_blank_region : QuestionOptions :=
  {| clueCount := None; opt_region := Some ""; itemType := None |}.

(** A question about France, a session that holds it, and the session after
    a click on Germany. *)
Definition about_france : Question :=
  {| correctCountry := "France";
     q_images := [ {| url := "a.jpg"; img_type := "bollard" |};
                   {| url := "b.jpg"; img_type := "pole" |};
                   {| url := "c.jpg"; img_type := "sign" |} ] |}.

Definition asked : Session.state :=
  Session.rerollQuestion true (Some about_france) Session.initial.

Definition answered_wrong : Session.state :=
  Session.layer_click (Some "Germany") asked.

(** Only bollards, however the type is spelled. *)
Definition bollards_only : QuestionOptions :=
  {| clueCount := None; opt_region := None; itemType := Some "Bollard" |}.

(** The record of France as a hand-written file may hold it: the
    properties in another order, with one the schema does not know. *)
Definition france_annotated : Schema.json :=
  Schema.JArr
    [Schema.JObj
       [("note", Schema.JStr "checked");
        ("items", Schema.JArr (Schema.item_json <$> items france));
        ("region", Schema.JStr "Europe");
        ("country", Schema.JStr "France")]].

(** Two records with a blank region, the second without a country. *)
Definition two_blanks : list CountryEntry :=
  [france_blank; {| country := ""; region := ""; items := items chile |}].

Definition spain : CountryEntry :=
  {| country := "Spain"; region := "Europe";
     items := [item "bollard" ["s1.jpg"]; item "plate" ["s2.jpg"];
               item "sign" ["s3.jpg"; "s4.jpg"]] |}.

(** A sort to run the listings with: by character codes. *)
Definition codeSort (l : list string) : list string := merge_sort String.le l.

(** Records whose regions and types differ in case and repeat. *)
Definition mixed : list CountryEntry :=
  [ {| country := "Peru"; region := "Americas";
       items := [item "Bollard" ["p1.jpg"]; item "sign" ["p2.jpg"]] |};
    chile; france_blank; spain;
    {| country := "Nowhere"; region := "Europe";
       items := [item "" ["n1.jpg"]; item "SIGN" []] |} ].

(** The filtering component after its first question, about France. *)
Definition first_view : View.state :=
  (View.rerollQuestion (Some [france]) (View.questionOptions None None)
                       true [] View.initial).1.

(** The filtering component on a wide screen after its first question,
    about France; then after a click on Germany, and after a further click
    on France. *)
Definition map_asked : Polygons.state :=
  Polygons.rerollQuestion true (Some about_france) (Polygons.loaded true).

Definition map_guessed : Polygons.state :=
  Polygons.click (Some "Germany") map_asked.

Definition map_guessed_again : Polygons.state :=
  Polygons.click (Some "France") map_guessed.

(** A question about a country named ["init"], and the component after
    that question, then a change of filters that leaves no candidate, then
    a click on France. *)
Definition about_init : Question :=
  {| correctCountry := "init"; q_images := q_images about_france |}.

Definition map_no_question : Polygons.state :=
  Polygons.click (Some "France")
    (Polygons.rerollQuestion true None
       (Polygons.rerollQuestion true (Some about_init) map_asked)).

(** The same three states of [src/GeoguessrFlashcards.js]. *)
Definition classic_asked : Polygons.state :=
  Polygons.loaded_classic (Some about_france).

Definition classic_guessed : Polygons.state :=
  Polygons.click_classic (Some "Germany") classic_asked.

Definition classic_guessed_again : Polygons.state :=
  Polygons.click_classic (Some "France") classic_guessed.

(** A record that lists the type [sign] twice, as a hand-written file may. *)
Definition norway : CountryEntry :=
  {| country := "Norway"; region := "Europe";
     items := [item "pole" ["p.jpg"]; item "sign" ["s1.jpg"];
               item "bollard" ["b.jpg"]; item "sign" ["s2.jpg"]] |}.

(** A record with an empty URL among the images of its signs. *)
Definition sweden : CountryEntry :=
  {| country := "Sweden"; region := "Europe";
     items := [item "pole" ["p.jpg"]; item "sign" ["s.jpg"; ""];
               item "bollard" ["b.jpg"]] |}.

(** The ledger of a component that has just been mounted. *)
Definition fresh_ledger : gmap string (gset string) := ∅.

(** The ledgers after a first question about each of the two. *)
Definition norway_ledger : gmap string (gset string) :=
  {["Norway" := {["pole|p.jpg"; "sign|s1.jpg"; "bollard|b.jpg"]}]}.

Definition sweden_ledger : gmap string (gset string) :=
  {["Sweden" := {["pole|p.jpg"; "sign|s.jpg"; "bollard|b.jpg"]}]}.

(** ** Notions of the design document *)

(** The distinct clue types of a record that have at least one image.
    Types are compared without regard to case, and the empty type does not
    count. *)
Definition clue_types (e : CountryEntry) : gset string :=
  list_to_set (toLowerCase ∘ type <$> validItems (items e)) ∖ {[""]}.

Definition distinct_types (e : CountryEntry) : nat := size (clue_types e).

(** The number of images of a record, over all its items. *)
Definition image_count (e : CountryEntry) : nat :=
  sum_list (length ∘ images <$> items e).

(** The region constraint: a record passes when no region, or the empty
    region, is asked for, or when its region is the one asked for. *)
Definition region_ok (options : QuestionOptions) (e : CountryEntry) : bool :=
  match opt_region options with
  | Some r => String.eqb r "" || String.eqb (region e) r
  | None => true
  end.

(** [all_chars p s]: every character of [s] satisfies [p]. *)
Fixpoint all_chars (p : ascii -> bool) (s : string) : bool :=
  match s with
  | EmptyString => true
  | String c r => p c && all_chars p r
  end.

(** [head_space s]: [s] starts with a whitespace character. *)
Definition head_space (s : string) : bool :=
  match s with
  | EmptyString => false
  | String c _ => is_space c
  end.

(** A name written with ASCII letters, apostrophes, hyphens and whitespace
    only: the last replacement of the normaliser removes nothing of it. *)
Definition name_char (c : ascii) : bool := is_upper c || NoRepeat.kept c.

Definition plain_name (s : string) : bool := all_chars name_char s.

(** The characters the normaliser leaves in a word. *)
Definition core_char (c : ascii) : bool :=
  is_lower c || Ascii.eqb c "'" || Ascii.eqb c "-".

(** [tidy s]: [s] may follow a word character in a normal form, that is,
    it is made of word characters and single spaces, and each of its
    spaces is followed by a word character. *)
Fixpoint tidy (s : string) : bool :=
  match s with
  | EmptyString => true
  | String c r =>
      if core_char c then tidy r
      else if Ascii.eqb c " " then
        match r with
        | EmptyString => false
        | String c' _ => core_char c' && tidy r
        end
      else false
  end.

(** The normal forms: words of [[a-z'-]] separated by single spaces. *)
Definition canonical (s : string) : bool :=
  match s with
  | EmptyString => true
  | String c r => core_char c && tidy r
  end.

(** The steps of [normalizeCountryName] before the alias lookup. *)
Definition before_alias (s : string) : string :=
  NoRepeat.strip_others
    (NoRepeat.collapse_spaces (NoRepeat.stripDiacritics (toLowerCase (trim s)))).

(** The ledger keys of the images of an item. *)
Definition item_keys (it : CountryItem) : gset string :=
  list_to_set (NoRepeat.imageKey (type it) ∘ Some <$> images it).

(** What the ledger asks of one sampled clue: [issued it used c used'] says
    that the clue [c] is an image of the item [it], that its key is in the
    ledger [used'] left by the step, and that the image had been shown
    before (its key is in the ledger [used] the step started from) only if
    every image of the item had been, in which case the keys of the item
    were cleared before the new key was added. *)
Definition issued (it : CountryItem) (used : gset string) (c : NoRepeat.Clue)
    (used' : gset string) : Prop :=
  exists u,
    c = {| NoRepeat.clue_url := Some u; NoRepeat.clue_type := type it |}
    /\ u ∈ images it
    /\ NoRepeat.imageKey (type it) (Some u) ∈ used'
    /\ (NoRepeat.imageKey (type it) (Some u) ∈ used ->
        item_keys it ⊆ used
        /\ used' = {[NoRepeat.imageKey (type it) (Some u)]} ∪ (used ∖ item_keys it))
    /\ (NoRepeat.imageKey (type it) (Some u) ∉ used ->
        used' = {[NoRepeat.imageKey (type it) (Some u)]} ∪ used).

(** The clues of one question, issued one after the other. *)
Inductive issued_all : list CountryItem -> gset string -> list NoRepeat.Clue
                       -> gset string -> Prop :=
| issued_nil used : issued_all [] used [] used
| issued_cons it its used c used1 cs used2 :
    issued it used c used1 ->
    issued_all its used1 cs used2 ->
    issued_all (it :: its) used (c :: cs) used2.

(** The image lists of a dataset hold no empty URL. *)
Definition urls_ok (it : CountryItem) : Prop := "" ∉ images it.

(** The clicks of a user on the polygons named [names], one after the
    other, with no new question asked for in between: each runs the handler
    that the polygons hold. *)
Definition clicks (names : list (option string)) (v : Polygons.state)
  : Polygons.state :=
  foldl (fun v name => Polygons.click name v) v names.

(** What one question does to the ledger of its country, for one of the
    items it draws from, seen from the ledger [used] of before the question
    and the ledger [used'] of after it: the clue [c] is an image of the
    item; when its key was in the ledger, the key of every image of the
    item was, and the new ledger holds no other key of the item; otherwise
    the new ledger holds the keys of the item it held, and the new one. *)
Definition cycled (it : CountryItem) (used used' : gset string)
    (c : NoRepeat.Clue) : Prop :=
  exists u,
    c = {| NoRepeat.clue_url := Some u; NoRepeat.clue_type := type it |}
    /\ u ∈ images it
    /\ (NoRepeat.imageKey (type it) (Some u) ∈ used ->
        item_keys it ⊆ used
        /\ used' ∩ item_keys it = {[NoRepeat.imageKey (type it) (Some u)]})
    /\ (NoRepeat.imageKey (type it) (Some u) ∉ used ->
        used' ∩ item_keys it
        = {[NoRepeat.imageKey (type it) (Some u)]} ∪ (used ∩ item_keys it)).

(** No item is listed twice, and no two items share a ledger key (as when
    the types of the items are pairwise different names). *)
Definition keys_apart (its : list CountryItem) : Prop :=
  NoDup its
  /\ forall it it', it ∈ its -> it' ∈ its -> it ≠ it' ->
       item_keys it ## item_keys it'.

(** What the layer on screen has to do with the session: it is keyed by
    the question held; the handler on its polygons has seen no selection
    or a proper one, and a question, if any, about the country of the
    question held. *)
Definition layer_inv (v : Polygons.state) : Prop :=
  from_option Polygons.named True (Session.question (Polygons.session v))
  /\ match Polygons.polygons v with
     | None => True
     | Some l =>
         Polygons.key l = Polygons.layer_key (Session.question (Polygons.session v))
         /\ (Polygons.seen_selected (Polygons.handler l) = None
             \/ truthy (Polygons.seen_selected (Polygons.handler l)) = true)
         /\ match Polygons.seen_question (Polygons.handler l) with
            | Some q' =>
                exists q, Session.question (Polygons.session v) = Some q
                          /\ correctCountry q = correctCountry q'
            | None => True
            end
     end.

(** The characters of a result of the normaliser. *)
Definition normal_char (c : ascii) : bool := core_char c || Ascii.eqb c " ".

(** What [getItemTypes] keeps of its map: the keys are pairwise different,
    and each is the lower-case form of its value, a non-empty type. *)
Definition types_inv (types : list (string * string)) : Prop :=
  NoDup types.*1
  /\ forall k t, (k, t) ∈ types -> k = toLowerCase t /\ t ≠ "".

(** The items of a dataset. *)
Definition all_items (data : list CountryEntry) : list CountryItem :=
  data ≫= items.

(** [word_end s]: [s] is not empty and its last character is neither a
    separator nor a digit. *)
Fixpoint word_end (s : string) : bool :=
  match s with
  | EmptyString => false
  | String c EmptyString => negb (Compiler.is_sep c) && negb (Compiler.is_digit c)
  | String _ r => word_end r
  end.

(** [last_digit s]: [s] is not empty and its last character is a digit. *)
Fixpoint last_digit (s : string) : bool :=
  match s with
  | EmptyString => false
  | String c EmptyString => Compiler.is_digit c
  | String _ r => last_digit r
  end.

Definition no_digit (c : ascii) : bool := negb (Compiler.is_digit c).

(** * Properties *)

(** ** [shuffleArray] *)

Section Shuffle.
Context {A : Type}.
Implicit Types (a arr : list A) (g : rng) (h : gmap loc (list A)).

Lemma swap_perm a i j : swap a i j ≡ₚ a.
Proof.
  unfold swap.
  destruct (a !! i) as [x|] eqn:Hi; [|done].
  destruct (a !! j) as [y|] eqn:Hj; [|done].
  by apply Permutation_insert_swap.
Qed.

Lemma shuffle_loop_perm i a g : (shuffle_loop i a g).1 ≡ₚ a.
Proof.
  revert a g. induction i as [|i IH]; intros a g; simpl; [done|].
  destruct (random_below (S (S i)) g) as [j g'].
  rewrite IH. apply swap_perm.
Qed.

Lemma shuffleArray_perm arr g : (shuffleArray arr g).1 ≡ₚ arr.
Proof. apply shuffle_loop_perm. Qed.

Lemma shuffleArray_length arr g : length (shuffleArray arr g).1 = length arr.
Proof. by rewrite shuffleArray_perm. Qed.

(** The loop on the store only touches the array it is given, and does
    there what the loop on array values does. *)
Lemma shuffle_loop_at_spec i q h g a :
  h !! q = Some a ->
  shuffle_loop_at i q h g
  = (<[q:=(shuffle_loop i a g).1]> h, (shuffle_loop i a g).2).
Proof.
  revert h g a. induction i as [|i IH]; intros h g a Hq; simpl.
  - by rewrite insert_id.
  - destruct (random_below (S (S i)) g) as [j g'].
    unfold swap_at. rewrite Hq.
    rewrite (IH _ _ (swap a (S i) j)) by apply lookup_insert_eq.
    by rewrite insert_insert_eq.
Qed.

End Shuffle.

(** C10. [shuffleArray] returns a new array, a permutation of its input
    (the same elements with the same multiplicities), and leaves the input
    array, like every other array of the store, as it was. *)
Theorem shuffleArray_new_permutation {A} (h : gmap loc (list A)) (p : loc)
    (arr : list A) (g : rng) :
  h !! p = Some arr ->
  exists q h' g',
    shuffleArray_at p h g = Some (q, h', g')
    /\ h !! q = None
    /\ h' !! q = Some (shuffleArray arr g).1
    /\ (shuffleArray arr g).1 ≡ₚ arr
    /\ h' !! p = Some arr
    /\ forall r, r ≠ q -> h' !! r = h !! r.
Proof.
  intros Hp. unfold shuffleArray_at. rewrite Hp.
  set (q := fresh (dom h)).
  assert (Hq : h !! q = None).
  { apply not_elem_of_dom. apply is_fresh. }
  rewrite (shuffle_loop_at_spec _ _ _ _ arr) by apply lookup_insert_eq.
  rewrite insert_insert_eq.
  eexists _, _, _. split; [reflexivity|].
  assert (Hpq : q ≠ p) by (intros ->; congruence).
  repeat split.
  - done.
  - apply lookup_insert_eq.
  - apply shuffleArray_perm.
  - by rewrite lookup_insert_ne.
  - intros r Hr. by rewrite lookup_insert_ne.
Qed.

Lemma shuffleArray_new_permutation_witness :
  exists q h' g',
    shuffleArray_at 0 {[0 := [1; 2; 3]]} [2; 0] = Some (q, h', g')
    /\ ({[0 := [1; 2; 3]]} : gmap loc (list nat)) !! q = None
    /\ h' !! q = Some (shuffleArray [1; 2; 3] [2; 0]).1
    /\ (shuffleArray [1; 2; 3] [2; 0]).1 ≡ₚ [1; 2; 3]
    /\ h' !! 0 = Some [1; 2; 3]
    /\ forall r, r ≠ q -> h' !! r = ({[0 := [1; 2; 3]]} : gmap loc (list nat)) !! r.
Proof.
  apply (shuffleArray_new_permutation {[0 := [1; 2; 3]]} 0 [1; 2; 3] [2; 0]).
  reflexivity.
Defined.

(** ** The dataset filter *)

Lemma truthy_Some s : truthy (Some s) = bool_decide (s ≠ "").
Proof.
  destruct (decide (s = "")) as [->|Hne].
  - by rewrite bool_decide_eq_false_2 by (intros ?; congruence).
  - rewrite bool_decide_eq_true_2 by done.
    unfold truthy. by destruct (String.eqb_spec s "").
Qed.

Lemma length_pooled its :
  length (pooled its) = sum_list (length ∘ images <$> its).
Proof.
  unfold pooled. induction its as [|it its IH]; csimpl; [done|].
  by rewrite length_app, length_map, IH.
Qed.

Lemma sum_validItems its :
  sum_list (length ∘ images <$> validItems its)
  = sum_list (length ∘ images <$> its).
Proof.
  unfold validItems. induction its as [|it its IH]; csimpl; [done|].
  destruct (0 <? length (images it)) eqn:Hlt; csimpl; rewrite IH; [done|].
  apply Nat.ltb_ge in Hlt. lia.
Qed.

Lemma validItems_nil its :
  length (validItems its) = 0 <-> sum_list (length ∘ images <$> its) = 0.
Proof.
  unfold validItems. induction its as [|it its IH]; csimpl; [done|].
  destruct (0 <? length (images it)) eqn:Hlt; csimpl.
  - apply Nat.ltb_lt in Hlt. lia.
  - apply Nat.ltb_ge in Hlt. rewrite IH. lia.
Qed.

Lemma validItems_images it its : it ∈ validItems its -> images it ≠ [].
Proof.
  unfold validItems. rewrite list_elem_of_In, filter_In.
  intros [_ H] Hnil. rewrite Hnil in H. done.
Qed.

(** The [unique] array grows by one item for each type key met for the
    first time. *)
Lemma unique_loop_length its seen unique :
  length (App.unique_loop its seen unique)
  = length unique
    + size ((list_to_set (toLowerCase ∘ type <$> its) ∖ {[""]}) ∖ seen).
Proof.
  revert seen unique. induction its as [|it its IH]; intros seen unique.
  - csimpl. assert (((∅ ∖ {[""]}) ∖ seen) = (∅ : gset string)) as -> by set_solver.
    rewrite size_empty. lia.
  - cbn [App.unique_loop]. rewrite truthy_Some. csimpl.
    set (key := toLowerCase (type it)).
    set (rest := list_to_set (toLowerCase ∘ type <$> its) : gset string).
    destruct (decide (key = "")) as [He|He].
    { rewrite bool_decide_eq_false_2 by (intros ?; done). simpl.
      rewrite IH. f_equal. f_equal. set_solver. }
    rewrite bool_decide_eq_true_2 by done. simpl.
    destruct (decide (key ∈ seen)) as [Hs|Hs].
    { rewrite bool_decide_eq_true_2 by done.
      rewrite IH. f_equal. f_equal. set_solver. }
    rewrite bool_decide_eq_false_2 by done.
    rewrite IH, length_app. simpl.
    replace ((({[key]} ∪ rest) ∖ {[""]}) ∖ seen)
      with ({[key]} ∪ ((rest ∖ {[""]}) ∖ ({[key]} ∪ seen))).
    + rewrite (size_union {[key]}) by set_solver. rewrite size_singleton.
      subst rest. lia.
    + apply set_eq. intros x. destruct (decide (x = key)); set_solver.
Qed.

Lemma getUniqueTypeItems_length e :
  length (App.getUniqueTypeItems (validItems (items e))) = distinct_types e.
Proof.
  unfold App.getUniqueTypeItems, distinct_types, clue_types.
  rewrite unique_loop_length. simpl. f_equal. set_solver.
Qed.

Lemma gatherImages_all its o :
  truthy o = false -> Lib.gatherImages its o = pooled (validItems its).
Proof.
  intros Ho. unfold Lib.gatherImages. f_equal.
  rewrite forallb_filter_id; [done|].
  apply forallb_forall. intros it _. unfold Lib.matches_type.
  destruct o as [t|]; simpl; [|done].
  simpl in Ho. apply negb_false_iff, String.eqb_eq in Ho. by subst.
Qed.

Lemma gatherImages_length e o :
  truthy o = false ->
  length (Lib.gatherImages (items e) o) = image_count e.
Proof.
  intros Ho. rewrite gatherImages_all by done.
  by rewrite length_pooled, sum_validItems.
Qed.

Lemma no_images_no_types e : image_count e = 0 -> distinct_types e = 0.
Proof.
  intros H. rewrite <-getUniqueTypeItems_length.
  apply validItems_nil, nil_length_inv in H. by rewrite H.
Qed.

Lemma region_guard_ok options e :
  truthy (opt_region options)
  && negb (bool_decide (Some (region e) = opt_region options))
  = negb (region_ok options e).
Proof.
  unfold region_ok. destruct (opt_region options) as [r|]; [|done].
  rewrite truthy_Some.
  destruct (String.eqb_spec r "") as [->|Hr].
  - by rewrite bool_decide_eq_false_2 by (intros ?; done).
  - rewrite bool_decide_eq_true_2 by done. simpl.
    destruct (String.eqb_spec (region e) r) as [->|Hne].
    + by rewrite bool_decide_eq_true_2.
    + rewrite bool_decide_eq_false_2; [done|]. congruence.
Qed.

Lemma App_is_candidate_per_type options e :
  truthy (itemType options) = false ->
  App.is_candidate options e
  = region_ok options e
    && bool_decide (0 < image_count e
                    ∧ default 3 (clueCount options) ≤ distinct_types e).
Proof.
  intros Ht. unfold App.is_candidate. rewrite region_guard_ok, Ht.
  destruct (region_ok options e); [|done]. simpl.
  rewrite getUniqueTypeItems_length.
  destruct (length (validItems (items e)) =? 0) eqn:Hn.
  - apply Nat.eqb_eq, validItems_nil in Hn. fold (image_count e) in Hn.
    symmetry. apply bool_decide_eq_false_2. lia.
  - apply Nat.eqb_neq in Hn. rewrite validItems_nil in Hn. fold (image_count e) in Hn.
    destruct (Nat.leb_spec (default 3 (clueCount options)) (distinct_types e)).
    + symmetry. apply bool_decide_eq_true_2. lia.
    + symmetry. apply bool_decide_eq_false_2. lia.
Qed.

Lemma Lib_is_candidate_no_filter options e :
  truthy (itemType options) = false ->
  Lib.is_candidate options e
  = region_ok options e
    && bool_decide (default 3 (clueCount options) ≤ image_count e).
Proof.
  intros Ht. unfold Lib.is_candidate. rewrite region_guard_ok.
  destruct (region_ok options e); [|done]. simpl.
  rewrite gatherImages_length by done. unfold Lib.MIN_CLUES.
  destruct (Nat.leb_spec (default 3 (clueCount options)) (image_count e)).
  - symmetry. by apply bool_decide_eq_true_2.
  - symmetry. apply bool_decide_eq_false_2. lia.
Qed.

(** C1, amended.  Without a clue-type constraint, among the records that
    pass the region constraint: the filtering component counts a record as
    a candidate exactly when it has an image and the number of its distinct
    clue types with at least one image (types compared without case, the
    empty type left out) is at least [clueCount] (3 by default), so that a
    dataset whose records all have fewer such types has no candidate;
    [src/lib/questions.ts] has no per-type mode and counts a record as a
    candidate exactly when the number of its images, over all its items, is
    at least [clueCount]. *)
Theorem candidates_without_type_filter (ds : list CountryEntry)
    (options : QuestionOptions) :
  truthy (itemType options) = false ->
  App.candidates (Some ds) options
  = List.filter
      (fun e => region_ok options e
                && bool_decide (0 < image_count e
                                ∧ default 3 (clueCount options) ≤ distinct_types e)) ds
  /\ (0 < default 3 (clueCount options) ->
      App.candidates (Some ds) options
      = List.filter
          (fun e => region_ok options e
                    && bool_decide (default 3 (clueCount options) ≤ distinct_types e))
          ds)
  /\ ((forall e, e ∈ ds -> distinct_types e < default 3 (clueCount options)) ->
      App.candidates (Some ds) options = [])
  /\ Lib.candidates (Some ds) options
     = List.filter
         (fun e => region_ok options e
                   && bool_decide (default 3 (clueCount options) ≤ image_count e)) ds.
Proof.
  intros Ht.
  assert (H1 : App.candidates (Some ds) options
               = List.filter
                   (fun e => region_ok options e
                      && bool_decide (0 < image_count e
                           ∧ default 3 (clueCount options) ≤ distinct_types e)) ds).
  { unfold App.candidates. apply filter_ext. intros e.
    by apply App_is_candidate_per_type. }
  split; [exact H1|]. split; [|split].
  - intros Hk. rewrite H1. apply filter_ext. intros e. f_equal.
    apply bool_decide_ext. split; [tauto|]. intros Hle. split; [|done].
    destruct (decide (image_count e = 0)) as [H0|H0]; [|lia].
    apply no_images_no_types in H0. lia.
  - intros Hfew. rewrite H1. clear H1.
    induction ds as [|e ds IH]; simpl; [done|].
    rewrite (bool_decide_eq_false_2 (_ ∧ _)), andb_false_r.
    + apply IH. intros e' He'. apply Hfew. by right.
    + intros [_ Hle]. specialize (Hfew e (list_elem_of_here _ _)). lia.
  - unfold Lib.candidates. apply filter_ext. intros e.
    by apply Lib_is_candidate_no_filter.
Qed.

Lemma candidates_without_type_filter_witness :
  App.candidates (Some [france; chile]) in_europe
  = List.filter
      (fun e => region_ok in_europe e
                && bool_decide (0 < image_count e
                                ∧ default 3 (clueCount in_europe) ≤ distinct_types e))
      [france; chile]
  /\ (0 < default 3 (clueCount in_europe) ->
      App.candidates (Some [france; chile]) in_europe
      = List.filter
          (fun e => region_ok in_europe e
                    && bool_decide (default 3 (clueCount in_europe) ≤ distinct_types e))
          [france; chile])
  /\ ((forall e, e ∈ [france; chile]
                 -> distinct_types e < default 3 (clueCount in_europe)) ->
      App.candidates (Some [france; chile]) in_europe = [])
  /\ Lib.candidates (Some [france; chile]) in_europe
     = List.filter
         (fun e => region_ok in_europe e
                   && bool_decide (default 3 (clueCount in_europe) ≤ image_count e))
         [france; chile].
Proof.
  apply (candidates_without_type_filter [france; chile] in_europe); reflexivity.
Defined.

(** C1 as stated fails on [src/lib/questions.ts]: [chile] has a single clue
    type, yet it is a candidate, for it has three images. *)
Lemma candidates_one_type_counterexample :
  distinct_types chile = 1
  /\ type <$> items chile = ["bollard"]
  /\ Lib.candidates (Some [chile]) no_options = [chile].
Proof. repeat split; vm_compute; reflexivity. Qed.

(** ** The question sampler *)

Lemma unique_loop_NoDup its seen unique :
  NoDup (toLowerCase ∘ type <$> unique) ->
  (forall it, it ∈ unique -> toLowerCase (type it) ∈ seen) ->
  NoDup (toLowerCase ∘ type <$> App.unique_loop its seen unique).
Proof.
  revert seen unique. induction its as [|it its IH]; intros seen unique Hnd Hseen.
  - done.
  - cbn [App.unique_loop].
    destruct (negb (truthy (Some (toLowerCase (type it))))); [by apply IH|].
    cbn [orb]. case_bool_decide as Hin; [by apply IH|].
    apply IH.
    + rewrite fmap_app. apply NoDup_app. split; [done|]. split.
      * intros x Hx. rewrite list_elem_of_fmap in Hx.
        destruct Hx as (it' & Hx & Hit'). simpl in Hx.
        intros Heq%list_elem_of_singleton. apply Hin.
        assert (toLowerCase (type it) = toLowerCase (type it')) as ->
          by (simpl in *; congruence).
        by apply Hseen.
      * apply NoDup_singleton.
    + intros it' [Hit'| ->%list_elem_of_singleton]%elem_of_app.
      * apply elem_of_union_r. by apply Hseen.
      * apply elem_of_union_l. by apply elem_of_singleton.
Qed.

Lemma getUniqueTypeItems_NoDup its :
  NoDup (type <$> App.getUniqueTypeItems its).
Proof.
  apply (NoDup_fmap_1 toLowerCase). rewrite <-list_fmap_compose.
  apply unique_loop_NoDup; [constructor|]. intros it Hit. by apply not_elem_of_nil in Hit.
Qed.

Lemma pick_images_types chosen g :
  img_type <$> (App.pick_images chosen g).1 = type <$> chosen.
Proof.
  revert g. induction chosen as [|it chosen IH]; intros g; [done|].
  cbn [App.pick_images].
  destruct (random_below (length (images it)) g) as [j g1].
  specialize (IH g1). destruct (App.pick_images chosen g1) as [imgs g2].
  csimpl in *. by rewrite IH.
Qed.

Lemma take_shuffled_length {A} (l : list A) k g :
  k ≤ length l -> length (take k (shuffleArray l g).1) = k.
Proof. intros Hk. rewrite length_take, shuffleArray_length. lia. Qed.

Lemma take_shuffled_NoDup {A B} (f : A -> B) (l : list A) k g :
  NoDup (f <$> l) -> NoDup (f <$> take k (shuffleArray l g).1).
Proof.
  intros Hnd. rewrite fmap_take.
  apply (sublist_NoDup _ (f <$> (shuffleArray l g).1)).
  - by rewrite shuffleArray_perm.
  - apply sublist_take.
Qed.

(** C2, amended.  For a candidate record and [clueCount = k], the sampler
    returns a question of exactly [k] images, in the filtering component
    and in [src/lib/questions.ts] alike; in the per-type mode of the
    filtering component (no clue type asked for) no two of them have the
    same type.  ([src/lib/questions.ts] has no per-type mode.) *)
Theorem buildQuestion_on_candidate (entry : CountryEntry)
    (options : QuestionOptions) (g : rng) :
  (App.is_candidate options entry = true ->
   exists q g',
     App.buildQuestion entry options g = (Some q, g')
     /\ correctCountry q = country entry
     /\ length (q_images q) = default 3 (clueCount options)
     /\ (truthy (itemType options) = false -> NoDup (img_type <$> q_images q)))
  /\ (Lib.is_candidate options entry = true ->
      exists q g',
        Lib.buildQuestion entry options g = (Some q, g')
        /\ correctCountry q = country entry
        /\ length (q_images q) = default 3 (clueCount options)).
Proof.
  split.
  - unfold App.is_candidate, App.buildQuestion.
    destruct (truthy (opt_region options)
              && negb (bool_decide (Some (region entry) = opt_region options)));
      [done|].
    destruct (length (validItems (items entry)) =? 0); [done|].
    destruct (truthy (itemType options)) eqn:Ht.
    + intros Hk%Nat.leb_le.
      rewrite (proj2 (Nat.ltb_ge _ _)) by done.
      destruct (shuffleArray _ g) as [shuffled g'] eqn:Hs.
      eexists _, _. split; [reflexivity|]. simpl.
      replace shuffled with (shuffleArray
        (App.getImagesForType (validItems (items entry)) (itemType options)) g).1
        by (by rewrite Hs).
      split; [done|]. split; [by apply take_shuffled_length|done].
    + intros Hk%Nat.leb_le.
      rewrite (proj2 (Nat.ltb_ge _ _)) by done.
      destruct (shuffleArray _ g) as [shuffled g1] eqn:Hs.
      destruct (App.pick_images (take _ shuffled) g1) as [imgs g2] eqn:Hp.
      eexists _, _. split; [reflexivity|]. simpl.
      assert (Hty : img_type <$> imgs
                    = type <$> take (default 3 (clueCount options)) shuffled).
      { rewrite <-pick_images_types with (g := g1). by rewrite Hp. }
      replace shuffled with (shuffleArray
        (App.getUniqueTypeItems (validItems (items entry))) g).1 in Hty
        by (by rewrite Hs).
      split; [done|]. split.
      * rewrite <-(length_fmap img_type), Hty, length_fmap.
        by apply take_shuffled_length.
      * intros _. rewrite Hty. apply take_shuffled_NoDup, getUniqueTypeItems_NoDup.
  - unfold Lib.is_candidate, Lib.buildQuestion.
    destruct (truthy (opt_region options)
              && negb (bool_decide (Some (region entry) = opt_region options)));
      [done|].
    intros Hk%Nat.leb_le.
    rewrite (proj2 (Nat.ltb_ge _ _)) by done.
    destruct (shuffleArray _ g) as [shuffled g'] eqn:Hs.
    eexists _, _. split; [reflexivity|]. simpl.
    replace shuffled with (shuffleArray
      (Lib.gatherImages (items entry) (itemType options)) g).1 by (by rewrite Hs).
    split; [done|]. by apply take_shuffled_length.
Qed.

Lemma buildQuestion_on_candidate_witness :
  (exists q g',
     App.buildQuestion france no_options [1; 0; 2] = (Some q, g')
     /\ correctCountry q = country france
     /\ length (q_images q) = default 3 (clueCount no_options)
     /\ (truthy (itemType no_options) = false -> NoDup (img_type <$> q_images q)))
  /\ (exists q g',
        Lib.buildQuestion france no_options [1; 0; 2] = (Some q, g')
        /\ correctCountry q = country france
        /\ length (q_images q) = default 3 (clueCount no_options)).
Proof.
  destruct (buildQuestion_on_candidate france no_options [1; 0; 2]) as [HApp HLib].
  split; [apply HApp|apply HLib]; reflexivity.
Defined.

(** C2 as stated fails on [src/lib/questions.ts]: without a clue type, the
    three images drawn for [chile] all have the type ["bollard"]. *)
Lemma buildQuestion_same_type_counterexample :
  Lib.is_candidate no_options chile = true
  /\ itemType no_options = None
  /\ exists q,
       (Lib.buildQuestion chile no_options [2; 0]).1 = Some q
       /\ img_type <$> q_images q = ["bollard"; "bollard"; "bollard"]
       /\ ~ NoDup (img_type <$> q_images q).
Proof.
  split; [reflexivity|]. split; [reflexivity|].
  eexists. split; [reflexivity|]. split; [reflexivity|].
  simpl. rewrite NoDup_cons. intros [Hnot _]. apply Hnot. by left.
Qed.

(** ** Dataset validation *)

Section Validation.
Import Schema.

Lemma string_min1_spec p s :
  string_min1 p (Some (JStr s))
  = if nonempty s then Ok s else ZodError [{| code_of := too_small; path := p |}].
Proof. unfold string_min1, nonempty. by destruct s. Qed.

Lemma collect_spec {A B} (f : nat -> B -> result A) (ok : B -> bool)
    (dec : B -> A) (l : list B) :
  (forall i x, ok x = true -> f i x = Ok (dec x)) ->
  (forall i x, ok x = false -> exists issues, f i x = ZodError issues) ->
  if forallb ok l then collect (imap f l) = Ok (dec <$> l)
  else exists issues, collect (imap f l) = ZodError issues.
Proof.
  revert f. induction l as [|x l IH]; intros f Hok Hbad; [done|].
  cbn [imap collect forallb].
  specialize (IH (f ∘ S) (fun i => Hok (S i)) (fun i => Hbad (S i))).
  destruct (ok x) eqn:Hx; cbn [andb].
  - rewrite (Hok 0 x Hx). destruct (forallb ok l).
    + by rewrite IH.
    + destruct IH as [issues ->]. eauto.
  - destruct (Hbad 0 x Hx) as [issues ->]. eauto.
Qed.

Lemma array_min1_spec {A} (elem : list path_elem -> option json -> result A)
    (enc : A -> json) (ok : A -> bool) p (l : list A) :
  (forall q x, ok x = true -> elem q (Some (enc x)) = Ok x) ->
  (forall q x, ok x = false -> exists issues, elem q (Some (enc x)) = ZodError issues) ->
  if (0 <? length l) && forallb ok l
  then array_min1 elem p (Some (JArr (enc <$> l))) = Ok l
  else exists issues, array_min1 elem p (Some (JArr (enc <$> l))) = ZodError issues.
Proof.
  intros Hok Hbad. unfold array_min1. rewrite imap_fmap, length_fmap.
  pose proof (collect_spec
    (fun i x => elem (p ++ [Index i]) (Some (enc x))) ok id l
    (fun i => Hok _) (fun i => Hbad _)) as Hc.
  rewrite list_fmap_id in Hc.
  destruct l as [|x l]; [cbn; eauto|].
  cbn [length Nat.ltb Nat.leb andb].
  destruct (forallb ok (x :: l)).
  - unfold compose. by rewrite Hc.
  - destruct Hc as [issues Hc]. unfold compose. rewrite Hc. eauto.
Qed.

Lemma countryItemSchema_spec p it :
  if item_ok it then countryItemSchema p (Some (item_json it)) = Ok it
  else exists issues, countryItemSchema p (Some (item_json it)) = ZodError issues.
Proof.
  destruct it as [t imgs]. unfold item_ok, countryItemSchema, item_json.
  cbn [get String.eqb Ascii.eqb Bool.eqb type images].
  rewrite string_min1_spec.
  pose proof (array_min1_spec string_min1 JStr nonempty
                (p ++ [Key "images"]) imgs) as Himgs.
  destruct ((0 <? length imgs) && forallb nonempty imgs) eqn:Hb.
  - rewrite Himgs.
    + rewrite <-andb_assoc, Hb, andb_true_r. destruct (nonempty t); eauto.
    + intros q x Hx. by rewrite string_min1_spec, Hx.
    + intros q x Hx. rewrite string_min1_spec, Hx. eauto.
  - rewrite <-andb_assoc, Hb, andb_false_r.
    destruct Himgs as [issues ->].
    + intros q x Hx. by rewrite string_min1_spec, Hx.
    + intros q x Hx. rewrite string_min1_spec, Hx. eauto.
    + destruct (nonempty t); eauto.
Qed.

Lemma countryEntrySchema_spec p e :
  if entry_ok false e then countryEntrySchema p (Some (entry_json e)) = Ok e
  else exists issues, countryEntrySchema p (Some (entry_json e)) = ZodError issues.
Proof.
  destruct e as [c r its]. unfold entry_ok, countryEntrySchema, entry_json.
  cbn [get String.eqb Ascii.eqb Bool.eqb country region items orb].
  rewrite !string_min1_spec.
  pose proof (array_min1_spec countryItemSchema item_json item_ok
                (p ++ [Key "items"]) its) as Hits.
  assert (Hok : forall q x, item_ok x = true ->
                  countryItemSchema q (Some (item_json x)) = Ok x).
  { intros q x Hx. pose proof (countryItemSchema_spec q x) as H.
    by rewrite Hx in H. }
  assert (Hbad : forall q x, item_ok x = false ->
                   exists issues, countryItemSchema q (Some (item_json x))
                                  = ZodError issues).
  { intros q x Hx. pose proof (countryItemSchema_spec q x) as H.
    by rewrite Hx in H. }
  specialize (Hits Hok Hbad).
  rewrite <-(andb_assoc _ (0 <? length its)).
  destruct ((0 <? length its) && forallb item_ok its).
  - rewrite Hits, andb_true_r.
    destruct (nonempty c), (nonempty r); cbn; eauto.
  - destruct Hits as [issues ->]. rewrite andb_false_r.
    destruct (nonempty c), (nonempty r); cbn; eauto.
Qed.

End Validation.

(** C3, amended.  Validation accepts exactly the datasets that are not
    empty and whose records have a non-empty country string, a non-empty
    region string, and a non-empty items array of
    [{type: non-empty string, images: non-empty array of non-empty strings}];
    every other dataset is refused with a [ZodError]. *)
Theorem validateDataset_accepts (d : list CountryEntry) :
  if (0 <? length d) && forallb (Schema.entry_ok false) d
  then Schema.validateDataset (Schema.dataset_json d) = Schema.Ok d
  else exists issues,
      Schema.validateDataset (Schema.dataset_json d) = Schema.ZodError issues.
Proof.
  unfold Schema.validateDataset, Schema.datasetSchema, Schema.dataset_json.
  apply (array_min1_spec Schema.countryEntrySchema Schema.entry_json).
  - intros q x Hx. pose proof (countryEntrySchema_spec q x) as H.
    by rewrite Hx in H.
  - intros q x Hx. pose proof (countryEntrySchema_spec q x) as H.
    by rewrite Hx in H.
Qed.

(** C3 as stated fails: a record whose region is the empty string has the
    shape the claim asks for, and is refused. *)
Lemma validateDataset_blank_region_counterexample :
  forallb (Schema.entry_ok true) [france_blank] = true
  /\ Schema.validateDataset (Schema.dataset_json [france_blank])
     = Schema.ZodError
         [{| Schema.code_of := Schema.too_small;
             Schema.path := [Schema.Index 0; Schema.Key "region"] |}].
Proof. split; reflexivity. Qed.

(** ** The region filter *)

Lemma region_guard options r e :
  opt_region options = Some r -> r ≠ "" ->
  (truthy (opt_region options)
   && negb (bool_decide (Some (region e) = opt_region options))) = false ->
  region e = r.
Proof.
  intros -> Hr. rewrite truthy_Some, bool_decide_eq_true_2 by done. simpl.
  intros H%negb_false_iff%bool_decide_eq_true. congruence.
Qed.

(** C8, amended.  When a non-empty region is specified, the candidates of
    the dataset filter are records of the dataset whose region field is
    exactly that region, in the filtering component and in
    [src/lib/questions.ts] alike.  (An empty region string is no
    constraint.) *)
Theorem candidates_region (dataset : option (list CountryEntry))
    (options : QuestionOptions) (r : string) (e : CountryEntry) :
  opt_region options = Some r ->
  r ≠ "" ->
  e ∈ App.candidates dataset options \/ e ∈ Lib.candidates dataset options ->
  e ∈ default [] dataset /\ region e = r.
Proof.
  intros Hopt Hr [He|He]; revert He.
  - unfold App.candidates. rewrite list_elem_of_In, filter_In, <-list_elem_of_In.
    intros [Hin Hc]. split; [done|].
    apply (region_guard options r e Hopt Hr).
    unfold App.is_candidate in Hc. by destruct (_ && _).
  - unfold Lib.candidates. rewrite list_elem_of_In, filter_In, <-list_elem_of_In.
    intros [Hin Hc]. split; [done|].
    apply (region_guard options r e Hopt Hr).
    unfold Lib.is_candidate in Hc. by destruct (_ && _).
Qed.

Lemma candidates_region_witness :
  france ∈ default [] (Some [chile; france]) /\ region france = "Europe".
Proof.
  apply (candidates_region (Some [chile; france]) in_europe "Europe" france).
  - reflexivity.
  - discriminate.
  - right. vm_compute. apply list_elem_of_here.
Defined.

(** C8 as stated fails for a specified empty region: the filter then lets
    every record through, whatever its region. *)
Lemma candidates_blank_region_counterexample :
  opt_region in_blank_region = Some ""
  /\ Lib.candidates (Some [france]) in_blank_region = [france]
  /\ App.candidates (Some [france]) in_blank_region = [france]
  /\ region france <> "".
Proof. repeat split; try reflexivity. discriminate. Qed.

(** ** The name normaliser *)

Ltac by_char c :=
  destruct c as [[] [] [] [] [] [] [] []]; vm_compute;
  try reflexivity; try discriminate; auto.

Lemma kept_split c : NoRepeat.kept c = core_char c || is_space c.
Proof. by_char c. Qed.

Lemma core_not_space c : core_char c = true -> is_space c = false.
Proof. by_char c. Qed.

Lemma core_lower c : core_char c = true -> lower_char c = c.
Proof. by_char c. Qed.

Lemma space_lower c : is_space (lower_char c) = is_space c.
Proof. by_char c. Qed.

Lemma name_lower_kept c :
  name_char c = true -> NoRepeat.kept (lower_char c) = true.
Proof. by_char c. Qed.

Lemma blank_is_space c : Ascii.eqb c " " = true -> c = " "%char /\ is_space c = true.
Proof. intros ->%Ascii.eqb_eq. done. Qed.

Lemma kept_name c : NoRepeat.kept c = true -> name_char c = true.
Proof. unfold name_char. intros ->. apply orb_true_r. Qed.

Lemma all_chars_impl (p q : ascii -> bool) s :
  (forall c, p c = true -> q c = true) ->
  all_chars p s = true -> all_chars q s = true.
Proof.
  intros Hpq. induction s as [|c r IH]; simpl; [done|].
  intros [Hc Hr]%andb_true_iff. by rewrite (Hpq c Hc), IH.
Qed.

(** *** [trim] *)

Lemma trimStart_all p s :
  all_chars p s = true -> all_chars p (trimStart s) = true.
Proof.
  induction s as [|c r IH]; simpl; [done|].
  intros H. destruct (is_space c); [|done].
  apply andb_true_iff in H as [_ Hr]. by apply IH.
Qed.

Lemma trimStart_head s : head_space (trimStart s) = false.
Proof.
  induction s as [|c r IH]; simpl; [done|].
  by destruct (is_space c) eqn:Hc; [|simpl].
Qed.

Lemma trimEnd_all p s :
  all_chars p s = true -> all_chars p (trimEnd s) = true.
Proof.
  induction s as [|c r IH]; simpl; [done|].
  intros [Hc Hr]%andb_true_iff. specialize (IH Hr).
  destruct (trimEnd r) as [|c' r'].
  - destruct (is_space c); simpl; [done|]. by rewrite Hc.
  - simpl in *. by rewrite Hc.
Qed.

Lemma trimEnd_head s : head_space s = false -> head_space (trimEnd s) = false.
Proof.
  destruct s as [|c r]; simpl; [done|]. intros Hc.
  destruct (trimEnd r); by rewrite ?Hc.
Qed.

Lemma trimEnd_idem s : trimEnd (trimEnd s) = trimEnd s.
Proof.
  induction s as [|c r IH]; simpl; [done|].
  destruct (trimEnd r) as [|c' r'] eqn:Hr.
  - destruct (is_space c) eqn:Hc; simpl; [done|]. by rewrite Hc.
  - cbn [trimEnd] in *. by rewrite IH.
Qed.

Lemma trimEnd_cons_inv c r :
  trimEnd (String c r) = String c r ->
  trimEnd r = r /\ (is_space c = true -> r <> EmptyString).
Proof.
  simpl. destruct (trimEnd r) as [|c' r'] eqn:Hr.
  - destruct (is_space c); [done|]. intros [= <-]. done.
  - intros [= <-]. done.
Qed.

Lemma toLowerCase_trimEnd s : trimEnd (toLowerCase s) = toLowerCase (trimEnd s).
Proof.
  induction s as [|c r IH]; simpl; [done|].
  rewrite IH, space_lower.
  destruct (trimEnd r); simpl; [|done]. by destruct (is_space c).
Qed.

Lemma toLowerCase_head s : head_space (toLowerCase s) = head_space s.
Proof. destruct s; simpl; [done|]. apply space_lower. Qed.

Lemma toLowerCase_kept s :
  plain_name s = true -> all_chars NoRepeat.kept (toLowerCase s) = true.
Proof.
  unfold plain_name. induction s as [|c r IH]; simpl; [done|].
  intros [Hc Hr]%andb_true_iff. by rewrite name_lower_kept, IH.
Qed.

(** The string the whitespace is collapsed in: trimmed, lower-cased. *)
Lemma lowered_trimmed s :
  plain_name s = true ->
  all_chars NoRepeat.kept (toLowerCase (trim s)) = true
  /\ head_space (toLowerCase (trim s)) = false
  /\ trimEnd (toLowerCase (trim s)) = toLowerCase (trim s).
Proof.
  intros Hs. unfold trim. split; [|split].
  - by apply toLowerCase_kept, trimEnd_all, trimStart_all.
  - rewrite toLowerCase_head. apply trimEnd_head, trimStart_head.
  - by rewrite toLowerCase_trimEnd, trimEnd_idem.
Qed.

(** *** Collapsing whitespace *)

Lemma kept_not_space_core c :
  NoRepeat.kept c = true -> is_space c = false -> core_char c = true.
Proof. rewrite kept_split. intros H Hs. by rewrite Hs, orb_false_r in H. Qed.

Lemma tidy_after_blank s :
  canonical s = true -> s <> EmptyString -> tidy (String " " s) = true.
Proof.
  destruct s as [|c r]; [done|]. intros Hc _. cbn [tidy canonical] in *.
  apply andb_true_iff in Hc as [Hc Hr].
  change (core_char " ") with false. cbn [Ascii.eqb Bool.eqb]. cbn match.
  by rewrite Hc, Hr.
Qed.

Lemma collapse_from_tidy s :
  all_chars NoRepeat.kept s = true ->
  trimEnd s = s ->
  canonical (NoRepeat.collapse_from true s) = true
  /\ tidy (NoRepeat.collapse_from false s) = true
  /\ (s <> EmptyString -> NoRepeat.collapse_from true s <> EmptyString).
Proof.
  induction s as [|c r IH]; [done|].
  intros [Hc Hr]%andb_true_iff [Htr Hne]%trimEnd_cons_inv.
  destruct (IH Hr Htr) as (IH1 & IH2 & IH3).
  cbn [NoRepeat.collapse_from].
  destruct (is_space c) eqn:Hsp.
  - specialize (Hne eq_refl). split; [done|]. split; [|by auto].
    apply tidy_after_blank; auto.
  - pose proof (kept_not_space_core c Hc Hsp) as Hcore.
    cbn [canonical tidy]. rewrite Hcore. by rewrite IH2.
Qed.

Lemma collapse_canonical s :
  all_chars NoRepeat.kept s = true ->
  head_space s = false ->
  trimEnd s = s ->
  canonical (NoRepeat.collapse_spaces s) = true.
Proof.
  unfold NoRepeat.collapse_spaces.
  destruct s as [|c r]; [done|].
  intros [Hc Hr]%andb_true_iff Hsp [Htr _]%trimEnd_cons_inv.
  simpl in Hsp. cbn [NoRepeat.collapse_from]. rewrite Hsp.
  cbn [canonical]. rewrite (kept_not_space_core c Hc Hsp).
  by destruct (collapse_from_tidy r Hr Htr) as (_ & -> & _).
Qed.

(** *** Normal forms are left alone *)

Lemma tidy_kept s : tidy s = true -> all_chars NoRepeat.kept s = true.
Proof.
  induction s as [|c r IH]; [done|]. cbn [tidy all_chars].
  rewrite kept_split. destruct (core_char c) eqn:Hc.
  - intros Hr. by rewrite IH.
  - destruct (Ascii.eqb c " ") eqn:Hb; [|done].
    destruct (blank_is_space c Hb) as [_ ->].
    destruct r as [|c' r']; [done|].
    intros [_ Hr]%andb_true_iff. by rewrite IH.
Qed.

Lemma strip_others_kept s :
  all_chars NoRepeat.kept s = true -> NoRepeat.strip_others s = s.
Proof.
  induction s as [|c r IH]; simpl; [done|].
  intros [-> Hr]%andb_true_iff. by rewrite IH.
Qed.

Lemma strip_others_all s : all_chars NoRepeat.kept (NoRepeat.strip_others s) = true.
Proof.
  induction s as [|c r IH]; simpl; [done|].
  destruct (NoRepeat.kept c) eqn:Hc; [|done]. simpl. by rewrite Hc.
Qed.

Lemma tidy_trimEnd s : tidy s = true -> trimEnd s = s.
Proof.
  induction s as [|c r IH]; [done|]. cbn [tidy trimEnd].
  destruct (core_char c) eqn:Hc.
  - intros Hr. rewrite (IH Hr), (core_not_space c Hc). by destruct r.
  - destruct (Ascii.eqb c " "); [|done].
    destruct r as [|c' r']; [done|].
    intros [_ Hr]%andb_true_iff. by rewrite (IH Hr).
Qed.

Lemma tidy_lower s : tidy s = true -> toLowerCase s = s.
Proof.
  induction s as [|c r IH]; [done|]. cbn [tidy toLowerCase].
  destruct (core_char c) eqn:Hc.
  - intros Hr. by rewrite (IH Hr), (core_lower c Hc).
  - destruct (Ascii.eqb c " ") eqn:Hb; [|done].
    destruct (blank_is_space c Hb) as [-> _].
    destruct r as [|c' r']; [done|].
    intros [_ Hr]%andb_true_iff. by rewrite (IH Hr).
Qed.

Lemma tidy_collapse s : tidy s = true -> NoRepeat.collapse_from false s = s.
Proof.
  induction s as [|c r IH]; [done|]. cbn [tidy NoRepeat.collapse_from].
  destruct (core_char c) eqn:Hc.
  - intros Hr. by rewrite (core_not_space c Hc), (IH Hr).
  - destruct (Ascii.eqb c " ") eqn:Hb; [|done].
    destruct (blank_is_space c Hb) as [-> ->].
    destruct r as [|c' r']; [done|].
    intros [Hc' Hr]%andb_true_iff. specialize (IH Hr).
    cbn [NoRepeat.collapse_from] in *.
    rewrite (core_not_space c' Hc') in *. by rewrite IH.
Qed.

Lemma canonical_tidy s : canonical s = true -> tidy s = true.
Proof.
  destruct s as [|c r]; [done|]. cbn [canonical tidy].
  by intros [-> Hr]%andb_true_iff.
Qed.

Lemma canonical_before_alias s : canonical s = true -> before_alias s = s.
Proof.
  intros Hs. pose proof (canonical_tidy s Hs) as Ht.
  unfold before_alias, NoRepeat.stripDiacritics, NoRepeat.collapse_spaces, trim.
  assert (trimStart s = s) as ->.
  { destruct s as [|c r]; [done|]. simpl in *.
    apply andb_true_iff in Hs as [Hc _]. by rewrite (core_not_space c Hc). }
  rewrite (tidy_trimEnd s Ht), (tidy_lower s Ht), (tidy_collapse s Ht).
  by apply strip_others_kept, tidy_kept.
Qed.

Lemma before_alias_canonical s : plain_name s = true -> canonical (before_alias s) = true.
Proof.
  intros Hs. destruct (lowered_trimmed s Hs) as (Hk & Hh & Ht).
  pose proof (collapse_canonical _ Hk Hh Ht) as Hc.
  unfold before_alias, NoRepeat.stripDiacritics.
  by rewrite strip_others_kept by (by apply tidy_kept, canonical_tidy).
Qed.

(** *** The alias table *)

Lemma normalizeCountryName_unfold s :
  NoRepeat.normalizeCountryName s
  = default (before_alias s) (NoRepeat.alias_get (before_alias s) NoRepeat.ALIASES).
Proof.
  unfold NoRepeat.normalizeCountryName, before_alias.
  destruct s as [|c r]; [reflexivity|]. simpl truthy. cbn [negb].
  by destruct (NoRepeat.alias_get _ _).
Qed.

Lemma alias_get_elem s v table :
  NoRepeat.alias_get s table = Some v -> exists k, (k, v) ∈ table.
Proof.
  induction table as [|[k' v'] table IH]; simpl; [done|].
  destruct (String.eqb s k').
  - intros [= ->]. exists k'. by left.
  - intros [k Hk]%IH. exists k. by right.
Qed.

(** Every canonical name of the table is a normal form, is plain, and is
    not itself an alias. *)
Lemma alias_values v :
  (exists k, (k, v) ∈ NoRepeat.ALIASES) ->
  NoRepeat.normalizeCountryName v = v /\ plain_name v = true.
Proof.
  intros [k Hk].
  assert (Hall : Forall (fun kv => NoRepeat.normalizeCountryName kv.2 = kv.2
                                  /\ plain_name kv.2 = true) NoRepeat.ALIASES).
  { repeat constructor. }
  rewrite Forall_forall in Hall. exact (Hall _ Hk).
Qed.

(** C5. The normaliser identifies the known aliases. *)
Theorem normalize_known_aliases :
  NoRepeat.normalizeCountryName "Russian Federation"
  = NoRepeat.normalizeCountryName "russia"
  /\ NoRepeat.normalizeCountryName "USA"
     = NoRepeat.normalizeCountryName "United States"
  /\ NoRepeat.normalizeCountryName "czech republic"
     = NoRepeat.normalizeCountryName "czechia".
Proof. repeat split. Qed.

(** The result of the normaliser is either a canonical name of the table
    or a normal form that is no alias; both are left alone by a further
    pass. *)
Lemma normalize_result_fixed (s : string) :
  canonical (before_alias s) = true ->
  NoRepeat.normalizeCountryName (NoRepeat.normalizeCountryName s)
  = NoRepeat.normalizeCountryName s.
Proof.
  intros Hc. rewrite (normalizeCountryName_unfold s).
  destruct (NoRepeat.alias_get (before_alias s) NoRepeat.ALIASES) as [v|] eqn:Ha; simpl.
  - by apply alias_values, (alias_get_elem (before_alias s)).
  - rewrite normalizeCountryName_unfold, (canonical_before_alias _ Hc).
    by rewrite Ha.
Qed.

(** C4, amended.  The normaliser is idempotent on every name written with
    ASCII letters, apostrophes, hyphens and whitespace only. *)
Theorem normalize_idempotent_plain (s : string) :
  plain_name s = true ->
  NoRepeat.normalizeCountryName (NoRepeat.normalizeCountryName s)
  = NoRepeat.normalizeCountryName s.
Proof.
  intros Hs. apply normalize_result_fixed. by apply before_alias_canonical.
Qed.

Lemma normalize_idempotent_plain_witness :
  NoRepeat.normalizeCountryName (NoRepeat.normalizeCountryName "  Russian   Federation ")
  = NoRepeat.normalizeCountryName "  Russian   Federation ".
Proof. apply (normalize_idempotent_plain "  Russian   Federation "). reflexivity. Defined.

(** C4 as stated fails: removing a character that stands between two
    spaces leaves two spaces, which a second pass collapses. *)
Lemma normalize_not_idempotent_counterexample :
  NoRepeat.normalizeCountryName "a 1 b" = "a  b"
  /\ NoRepeat.normalizeCountryName (NoRepeat.normalizeCountryName "a 1 b") = "a b"
  /\ NoRepeat.normalizeCountryName (NoRepeat.normalizeCountryName "a 1 b")
     <> NoRepeat.normalizeCountryName "a 1 b".
Proof. repeat split. discriminate. Qed.

(** Whatever the input, the result of the normaliser is a plain name: a
    second pass reaches a normal form, which a third pass leaves alone. *)
Lemma normalize_plain s : plain_name (NoRepeat.normalizeCountryName s) = true.
Proof.
  rewrite normalizeCountryName_unfold.
  destruct (NoRepeat.alias_get (before_alias s) NoRepeat.ALIASES) as [v|] eqn:Ha; simpl.
  - by apply alias_values, (alias_get_elem (before_alias s)).
  - unfold plain_name. apply (all_chars_impl NoRepeat.kept); [apply kept_name|].
    apply strip_others_all.
Qed.

Lemma normalize_settles s :
  NoRepeat.normalizeCountryName
    (NoRepeat.normalizeCountryName (NoRepeat.normalizeCountryName s))
  = NoRepeat.normalizeCountryName (NoRepeat.normalizeCountryName s).
Proof. apply normalize_result_fixed, before_alias_canonical, normalize_plain. Qed.

(** ** The answer evaluator *)



(** The selection of a session is never the empty string: polygons without
    a name have no click handler. *)
Lemma reachable_selected st :
  Session.reachable st ->
  Session.selected st = None \/ truthy (Session.selected st) = true.
Proof.
  induction 1 as [|name st _ IH|name st _ IH|resetStats next st _ _].
  - by left.
  - unfold Session.layer_click. destruct (truthy name) eqn:Hn; [|exact IH].
    unfold Session.handleCountryClick.
    destruct (Session.question st); [|exact IH].
    destruct (truthy (Session.selected st)) eqn:Hsel; [by right|].
    right. simpl. by destruct name.
  - unfold Session.layer_click_classic. destruct (truthy name) eqn:Hn; [|exact IH].
    unfold Session.handleCountryClick_classic.
    destruct (Session.question st); [|exact IH].
    destruct (truthy (Session.selected st)) eqn:Hsel; [by right|].
    right. simpl. by destruct name.
  - by left.
Qed.

(** The guard of [handleCountryClick] does what it is there for whenever the
    handler is the one of the current render: with a selection in the
    state, the click changes nothing. *)
Lemma guard_of_current_render (st : Session.state) (countryName : string) :
  Session.reachable st ->
  Session.selected st <> None ->
  Session.handleCountryClick countryName st = st
  /\ Session.handleCountryClick_classic countryName st = st.
Proof.
  intros Hreach Hsel.
  destruct (reachable_selected st Hreach) as [Hnone|Htruthy]; [done|].
  unfold Session.handleCountryClick, Session.handleCountryClick_classic.
  rewrite Htruthy. by destruct (Session.question st).
Qed.

(** [Session.handleCountryClick] is the handler of the render of the state
    it is run on. *)
Lemma handler_of_current_render (countryName : string) (st : Session.state) :
  Polygons.handleCountryClick (Polygons.capture st) countryName st
  = Session.handleCountryClick countryName st
  /\ Polygons.handleCountryClick_classic (Polygons.capture st) countryName st
     = Session.handleCountryClick_classic countryName st.
Proof. done. Qed.

(** The layer made for a question about a new country holds the handler of
    a render without selection. *)
Lemma reroll_new_layer resetStats q v l :
  Polygons.polygons v = Some l ->
  Polygons.key l ≠ Polygons.layer_key (Some q) ->
  Polygons.polygons (Polygons.rerollQuestion resetStats (Some q) v)
  = Some {| Polygons.key := Polygons.layer_key (Some q);
            Polygons.handler := {| Polygons.seen_selected := None;
                                   Polygons.seen_question := Some q |} |}.
Proof.
  intros Hl Hkey. unfold Polygons.rerollQuestion. rewrite Hl. csimpl.
  apply String.eqb_neq in Hkey. by rewrite Hkey.
Qed.

(** A click does not change the question, and so leaves the layer, and the
    handler on its polygons, in place. *)
Lemma click_keeps_layer name v l :
  Polygons.polygons v = Some l ->
  Polygons.key l = Polygons.layer_key (Session.question (Polygons.session v)) ->
  Polygons.polygons (Polygons.click name v) = Some l
  /\ Session.question (Polygons.session (Polygons.click name v))
     = Session.question (Polygons.session v).
Proof.
  intros Hl Hkey. unfold Polygons.click. rewrite Hl.
  assert (Hq : Session.question
                 (if truthy name
                  then Polygons.handleCountryClick (Polygons.handler l)
                         (default "" name) (Polygons.session v)
                  else Polygons.session v)
               = Session.question (Polygons.session v)).
  { destruct (truthy name); [|done]. unfold Polygons.handleCountryClick.
    destruct (Polygons.seen_question _); [|done].
    by destruct (truthy (Polygons.seen_selected _)). }
  cbn [Polygons.polygons Polygons.session]. split; [|done].
  unfold Polygons.render. rewrite Hq, <-Hkey. by rewrite String.eqb_refl.
Qed.

(** C7 fails on the code.  The polygons of the map hold the
    click handler of the render that created the layer, and the layer is
    created anew only when the country asked about changes: that handler
    has seen no selection, and its guard never fires.  After a first
    question about France and a click on Germany (the question is
    answered: a selection exists), a further click, on France, is scored:
    [answered] goes from 1 to 2, [score] from 0 to 1, the selection and the
    correctness flag change, and the streak too where one is kept.  The
    same holds in [src/GeoguessrFlashcards.js]. *)
Theorem second_click_scored :
  (Session.selected (Polygons.session map_guessed) = Some "Germany"
   /\ Session.answered (Polygons.session map_guessed) = 1
   /\ Session.score (Polygons.session map_guessed) = 0
   /\ Polygons.session map_guessed_again
      = {| Session.question := Some about_france;
           Session.selected := Some "France";
           Session.isCorrect := Some true;
           Session.score := 1;
           Session.answered := 2;
           Session.streak := 1 |}
   /\ Polygons.session map_guessed_again ≠ Polygons.session map_guessed)
  /\ (Session.selected (Polygons.session classic_guessed) = Some "Germany"
      /\ Session.answered (Polygons.session classic_guessed) = 1
      /\ Session.score (Polygons.session classic_guessed) = 0
      /\ Polygons.session classic_guessed_again
         = {| Session.question := Some about_france;
              Session.selected := Some "France";
              Session.isCorrect := Some true;
              Session.score := 1;
              Session.answered := 2;
              Session.streak := 0 |}
      /\ Polygons.session classic_guessed_again ≠ Polygons.session classic_guessed).
Proof.
  split; (split; [reflexivity|]); (split; [reflexivity|]);
    (split; [reflexivity|]); (split; [reflexivity|]); discriminate.
Qed.

(** ** The used-image ledger *)

Lemma delete_keys_spec t imgs (used : gset string) :
  NoRepeat.delete_keys t imgs used
  = used ∖ list_to_set (NoRepeat.imageKey t ∘ Some <$> imgs).
Proof.
  revert used. induction imgs as [|u imgs IH]; intros used; csimpl.
  - set_solver.
  - rewrite IH. set_solver.
Qed.

Lemma truthy_elem (u : string) (l : list string) :
  "" ∉ l -> u ∈ l -> truthy (Some u) = true.
Proof.
  intros Hl Hu. rewrite truthy_Some. apply bool_decide_eq_true_2.
  intros ->. done.
Qed.

Lemma pick_image_issued (it : CountryItem) (used : gset string) (g : rng) :
  images it ≠ [] ->
  urls_ok it ->
  issued it used (NoRepeat.pick_image it used g).1.1 (NoRepeat.pick_image it used g).1.2.
Proof.
  intros Hne Hurl. unfold NoRepeat.pick_image.
  pose proof (shuffleArray_perm (images it) g) as Hperm.
  destruct (shuffleArray (images it) g) as [imgs g']. simpl in Hperm.
  destruct (List.find _ imgs) as [u|] eqn:Hfind.
  - apply find_some in Hfind as [Hin Hfresh].
    apply list_elem_of_In in Hin. rewrite Hperm in Hin.
    apply negb_true_iff, bool_decide_eq_false in Hfresh.
    rewrite (truthy_elem u (images it)) by done. simpl.
    exists u. split; [done|]. split; [done|]. split; [set_solver|].
    split; [done|]. done.
  - simpl.
    assert (Hall : forall v, v ∈ images it -> NoRepeat.imageKey (type it) (Some v) ∈ used).
    { intros v Hv. rewrite <-Hperm in Hv. apply list_elem_of_In in Hv.
      pose proof (find_none _ _ Hfind v Hv) as Hf. simpl in Hf.
      by apply negb_false_iff, bool_decide_eq_true in Hf. }
    destruct imgs as [|u imgs].
    { apply Permutation_nil_l in Hperm. by destruct Hne. }
    simpl. exists u.
    assert (Hu : u ∈ images it) by (rewrite <-Hperm; by left).
    rewrite delete_keys_spec. fold (item_keys it).
    split; [done|]. split; [done|]. split; [set_solver|]. split.
    + intros _. split; [|done]. unfold item_keys. intros k Hk.
      apply elem_of_list_to_set, list_elem_of_fmap in Hk as (v & -> & Hv).
      by apply Hall.
    + intros Hnot. destruct Hnot. by apply Hall.
Qed.

Lemma pick_images_issued chosen (used : gset string) (g : rng) :
  Forall (fun it => images it ≠ [] /\ urls_ok it) chosen ->
  issued_all chosen used (NoRepeat.pick_images chosen used g).1.1
             (NoRepeat.pick_images chosen used g).1.2.
Proof.
  intros Hall. revert used g.
  induction Hall as [|it chosen [Hne Hurl] _ IH]; intros used g.
  - constructor.
  - cbn [NoRepeat.pick_images].
    pose proof (pick_image_issued it used g Hne Hurl) as Hstep.
    destruct (NoRepeat.pick_image it used g) as [[c used1] g1].
    specialize (IH used1 g1).
    destruct (NoRepeat.pick_images chosen used1 g1) as [[cs used2] g2].
    by econstructor.
Qed.

Lemma validItems_elem it its : it ∈ validItems its -> it ∈ its.
Proof. unfold validItems. rewrite !list_elem_of_In, filter_In. tauto. Qed.

(** X29. In the no-repeat component, on a dataset without empty image
    URLs, the images of a question are issued one after the other against
    the ledger of the chosen country, item by item: an image whose key is
    in the ledger when it is drawn is returned only when the key of every
    image of its item is, and then the keys of that item are cleared
    before the new key is added; the key of every returned image is added;
    the ledger of the country is stored back. *)
Theorem pickQuestion_no_repeat (ds : list CountryEntry)
    (excludeCountry : option string) (ledger : gmap string (gset string))
    (g : rng) :
  Forall (fun e => Forall urls_ok (items e)) ds ->
  match NoRepeat.pickQuestion (Some ds) excludeCountry ledger g with
  | (Some round, ledger', _) =>
      exists e chosen used',
        e ∈ ds
        /\ NoRepeat.nr_correctCountry round = country e
        /\ chosen ⊆ items e
        /\ issued_all chosen (default ∅ (ledger !! country e))
                      (NoRepeat.nr_images round) used'
        /\ ledger' = <[country e := used']> ledger
  | (None, ledger', _) => ledger' = ledger
  end.
Proof.
  intros Hds. unfold NoRepeat.pickQuestion. simpl default at 1.
  set (candidates := List.filter _ ds).
  destruct (length candidates =? 0); [done|].
  match goal with
  | |- context [random_below (length ?p) g] => set (pool := p)
  end.
  assert (Hpool : forall e, e ∈ pool -> e ∈ ds).
  { assert (Hcand : forall e, e ∈ candidates -> e ∈ ds).
    { intros e. unfold candidates. rewrite !list_elem_of_In, filter_In. tauto. }
    intros e. unfold pool. destruct (_ && _); [|by auto].
    destruct (length _ =? 0); [by auto|].
    rewrite list_elem_of_In, filter_In, <-list_elem_of_In. intros [He _]. by auto. }
  destruct (random_below (length pool) g) as [j g1].
  destruct (pool !! j) as [correct|] eqn:Hj; [|done].
  apply list_elem_of_lookup_2, Hpool in Hj.
  pose proof (shuffleArray_perm (validItems (items correct)) g1) as Hperm.
  destruct (shuffleArray (validItems (items correct)) g1) as [itemPool g2].
  simpl in Hperm.
  assert (Hchosen : forall it, it ∈ take 3 itemPool -> it ∈ validItems (items correct)).
  { intros it Hit. rewrite <-Hperm. by apply (subseteq_take 3). }
  pose proof (pick_images_issued (take 3 itemPool)
    (default ∅ (ledger !! country correct)) g2) as Hrun.
  destruct (NoRepeat.pick_images _ _ g2) as [[clues used'] g3]. simpl in Hrun.
  exists correct, (take 3 itemPool), used'. simpl.
  split; [done|]. split; [done|]. split.
  { intros it Hit. by apply validItems_elem, Hchosen. }
  split; [|done]. apply Hrun.
  apply Forall_forall. intros it Hit. split.
  - by apply (validItems_images it (items correct)), Hchosen.
  - rewrite Forall_forall in Hds. specialize (Hds correct Hj).
    rewrite Forall_forall in Hds. by apply Hds, validItems_elem, Hchosen.
Qed.

Lemma pickQuestion_no_repeat_witness :
  match NoRepeat.pickQuestion (Some [france]) None {["France" := {["pole|b.jpg"]}]} [0; 1; 0] with
  | (Some round, ledger', _) =>
      exists e chosen used',
        e ∈ [france]
        /\ NoRepeat.nr_correctCountry round = country e
        /\ chosen ⊆ items e
        /\ issued_all chosen
             (default ∅ (({["France" := {["pole|b.jpg"]}]} : gmap string (gset string))
                         !! country e))
             (NoRepeat.nr_images round) used'
        /\ ledger' = <[country e := used']> {["France" := {["pole|b.jpg"]}]}
  | (None, ledger', _) => ledger' = {["France" := {["pole|b.jpg"]}]}
  end.
Proof.
  apply (pickQuestion_no_repeat [france] None {["France" := {["pole|b.jpg"]}]} [0; 1; 0]).
  repeat constructor; unfold urls_ok; simpl;
    rewrite list_elem_of_singleton; discriminate.
Defined.

(** The guard [!choice] of [pick_image] also takes an empty URL for "no
    image found": with the ledger holding ["t|a"] and the images in the
    order ["a"; ""], the cycle is reset and ["a"] is shown again. *)
Example pick_image_empty_url :
  NoRepeat.pick_image (item "t" ["a"; ""]) {["t|a"]} [1]
  = ({| NoRepeat.clue_url := Some "a"; NoRepeat.clue_type := "t" |}, {["t|a"]}, []).
Proof. vm_compute. reflexivity. Qed.

(** C9 fails on the code, in two ways.  The ledger is keyed by
    type and URL, but it is tested and cleared over the images of one item:
    for a record that lists the type [sign] twice, a first question shows
    [s1.jpg], and the second question shows [s1.jpg] again, although
    [s2.jpg], the other image of that type, has never been shown.  And the
    guard [!choice] takes an empty URL for "no image left": once [s.jpg]
    has been shown, it is shown again in the next question, although the
    other image of the item has never been shown. *)
Theorem pickQuestion_reissues_shown_image :
  (NoRepeat.pickQuestion (Some [norway]) None fresh_ledger [0; 3; 2; 1]
   = (Some {| NoRepeat.nr_correctCountry := "Norway";
              NoRepeat.nr_images :=
                [ {| NoRepeat.clue_url := Some "p.jpg"; NoRepeat.clue_type := "pole" |};
                  {| NoRepeat.clue_url := Some "s1.jpg"; NoRepeat.clue_type := "sign" |};
                  {| NoRepeat.clue_url := Some "b.jpg"; NoRepeat.clue_type := "bollard" |} ] |},
      norway_ledger, [])
   /\ NoRepeat.pickQuestion (Some [norway]) (Some "Norway") norway_ledger [0; 3; 2; 1]
      = (Some {| NoRepeat.nr_correctCountry := "Norway";
                 NoRepeat.nr_images :=
                   [ {| NoRepeat.clue_url := Some "p.jpg"; NoRepeat.clue_type := "pole" |};
                     {| NoRepeat.clue_url := Some "s1.jpg"; NoRepeat.clue_type := "sign" |};
                     {| NoRepeat.clue_url := Some "b.jpg"; NoRepeat.clue_type := "bollard" |} ] |},
         norway_ledger, [])
   /\ item "sign" ["s2.jpg"] ∈ items norway
   /\ NoRepeat.imageKey "sign" (Some "s2.jpg")
      ∉ default ∅ (norway_ledger !! "Norway"))
  /\ (NoRepeat.pickQuestion (Some [sweden]) None fresh_ledger [0; 2; 1; 1]
      = (Some {| NoRepeat.nr_correctCountry := "Sweden";
                 NoRepeat.nr_images :=
                   [ {| NoRepeat.clue_url := Some "p.jpg"; NoRepeat.clue_type := "pole" |};
                     {| NoRepeat.clue_url := Some "s.jpg"; NoRepeat.clue_type := "sign" |};
                     {| NoRepeat.clue_url := Some "b.jpg"; NoRepeat.clue_type := "bollard" |} ] |},
         sweden_ledger, [])
      /\ NoRepeat.pickQuestion (Some [sweden]) (Some "Sweden") sweden_ledger [0; 2; 1; 1]
         = (Some {| NoRepeat.nr_correctCountry := "Sweden";
                    NoRepeat.nr_images :=
                      [ {| NoRepeat.clue_url := Some "p.jpg"; NoRepeat.clue_type := "pole" |};
                        {| NoRepeat.clue_url := Some "s.jpg"; NoRepeat.clue_type := "sign" |};
                        {| NoRepeat.clue_url := Some "b.jpg"; NoRepeat.clue_type := "bollard" |} ] |},
            sweden_ledger, [])
      /\ item "sign" ["s.jpg"; ""] ∈ items sweden
      /\ NoRepeat.imageKey "sign" (Some "")
         ∉ default ∅ (sweden_ledger !! "Sweden")).
Proof.
  split.
  - split; [vm_compute; reflexivity|]. split; [vm_compute; reflexivity|].
    split; [set_solver|]. vm_compute. set_solver.
  - split; [vm_compute; reflexivity|]. split; [vm_compute; reflexivity|].
    split; [set_solver|]. vm_compute. set_solver.
Qed.

(** * Further properties of the code *)

(** ** Randomness consumed *)

Lemma random_below_rest n g : (random_below n g).2 = drop 1 g.
Proof. by destruct g. Qed.

Lemma shuffle_loop_rest {A} i (a : list A) g : (shuffle_loop i a g).2 = drop i g.
Proof.
  revert a g. induction i as [|i IH]; intros a g; simpl; [by rewrite drop_0|].
  pose proof (random_below_rest (S (S i)) g) as Hr.
  destruct (random_below (S (S i)) g) as [j g']. simpl in Hr.
  rewrite IH, Hr, drop_drop. f_equal.
Qed.

(** X1. [shuffleArray] draws exactly one random number for each position
    but the first of its input: it leaves the source of randomness without
    its first [length arr - 1] numbers, and returns an array of at most one
    element as it is, without drawing. *)
Theorem shuffleArray_draws {A} (arr : list A) (g : rng) :
  (shuffleArray arr g).2 = drop (length arr - 1) g
  /\ (length arr ≤ 1 -> shuffleArray arr g = (arr, g)).
Proof.
  split; [apply shuffle_loop_rest|].
  intros Hlen. unfold shuffleArray.
  by replace (length arr - 1) with 0 by lia.
Qed.

Lemma shuffleArray_draws_witness :
  (shuffleArray [7] [3; 1]).2 = drop (length [7] - 1) [3; 1]
  /\ shuffleArray [7] [3; 1] = ([7], [3; 1]).
Proof.
  destruct (shuffleArray_draws [7] [3; 1]) as [H1 H2].
  split; [exact H1|]. apply H2. simpl. lia.
Defined.

(** ** Filter and sampler *)

Lemma elem_of_pooled its img :
  img ∈ pooled its
  <-> exists it, it ∈ its /\ img_type img = type it /\ url img ∈ images it.
Proof.
  unfold pooled. rewrite list_elem_of_In, in_flat_map. split.
  - intros (it & Hit & Himg). apply in_map_iff in Himg as (u & <- & Hu).
    exists it. by rewrite !list_elem_of_In.
  - intros (it & Hit & Hty & Hu). exists it. rewrite <-list_elem_of_In.
    split; [done|]. apply in_map_iff. exists (url img).
    rewrite <-list_elem_of_In. split; [|done]. destruct img. simpl in *. by subst.
Qed.

Lemma random_below_lt n g : 0 < n -> (random_below n g).1 < n.
Proof.
  intros Hn. destruct g as [|r g]; simpl; [done|].
  destruct n; [lia|]. apply Nat.mod_upper_bound. lia.
Qed.

Lemma elem_of_take_shuffled {A} (l : list A) k g x :
  x ∈ take k (shuffleArray l g).1 -> x ∈ l.
Proof. intros Hx%(subseteq_take k). by rewrite shuffleArray_perm in Hx. Qed.

Lemma gatherImages_elem its o img :
  img ∈ Lib.gatherImages its o ->
  exists it, it ∈ its /\ img_type img = type it /\ url img ∈ images it
             /\ Lib.matches_type o it = true.
Proof.
  unfold Lib.gatherImages. intros (it & Hit & Hty & Hu)%elem_of_pooled.
  apply list_elem_of_In, filter_In in Hit as [Hit Hm].
  apply list_elem_of_In, validItems_elem in Hit. eauto.
Qed.

Lemma Lib_buildQuestion_Some e o g :
  default 3 (clueCount o) ≤ length (Lib.gatherImages (items e) (itemType o)) ->
  exists q g',
    Lib.buildQuestion e o g = (Some q, g')
    /\ correctCountry q = country e
    /\ length (q_images q) = default 3 (clueCount o)
    /\ q_images q ⊆+ Lib.gatherImages (items e) (itemType o).
Proof.
  intros Hk. unfold Lib.buildQuestion, Lib.MIN_CLUES.
  rewrite (proj2 (Nat.ltb_ge _ _)) by done.
  pose proof (shuffleArray_perm (Lib.gatherImages (items e) (itemType o)) g) as Hp.
  pose proof (shuffleArray_length (Lib.gatherImages (items e) (itemType o)) g) as Hl.
  destruct (shuffleArray _ g) as [shuffled g']. simpl in *.
  eexists _, _. split; [done|]. simpl. split; [done|]. split.
  - rewrite length_take. lia.
  - rewrite <-Hp. apply sublist_submseteq, sublist_take.
Qed.

Lemma Lib_buildQuestion_None e o g :
  length (Lib.gatherImages (items e) (itemType o)) < default 3 (clueCount o) ->
  Lib.buildQuestion e o g = (None, g).
Proof.
  intros Hk. unfold Lib.buildQuestion, Lib.MIN_CLUES.
  by rewrite (proj2 (Nat.ltb_lt _ _)).
Qed.

(** X2. In [src/lib/questions.ts] the filter and the sampler agree: a record
    is a candidate exactly when it passes the region constraint and
    [buildQuestion] returns a question for it (the sampler itself does not
    look at the region). *)
Theorem Lib_filter_agrees_with_sampler (e : CountryEntry) (o : QuestionOptions)
    (g : rng) :
  Lib.is_candidate o e = true
  <-> region_ok o e = true /\ is_Some (Lib.buildQuestion e o g).1.
Proof.
  unfold Lib.is_candidate. rewrite region_guard_ok. unfold Lib.MIN_CLUES.
  destruct (region_ok o e); simpl.
  - destruct (Nat.leb_spec (default 3 (clueCount o))
                (length (Lib.gatherImages (items e) (itemType o)))) as [Hk|Hk].
    + destruct (Lib_buildQuestion_Some e o g Hk) as (q & g' & -> & _). simpl.
      split; [by eauto|done].
    + rewrite (Lib_buildQuestion_None e o g Hk). simpl.
      split; [done|]. by intros [_ [q Hq]].
  - split; [done|]. by intros [? _].
Qed.

Lemma Lib_candidate_pool e o :
  Lib.is_candidate o e = true ->
  default 3 (clueCount o) ≤ length (Lib.gatherImages (items e) (itemType o)).
Proof.
  unfold Lib.is_candidate, Lib.MIN_CLUES. destruct (_ && _); [done|].
  by intros ?%Nat.leb_le.
Qed.

Lemma lookup_random_below {A} (l : list A) g :
  l ≠ [] -> exists x, l !! (random_below (length l) g).1 = Some x.
Proof.
  intros Hl. apply lookup_lt_is_Some_2, random_below_lt.
  destruct l; [done|]. simpl. lia.
Qed.

Lemma Lib_pickQuestion_result (ds : option (list CountryEntry))
    (o : QuestionOptions) (g : rng) :
  match (Lib.pickQuestion ds o g).1 with
  | None => Lib.candidates ds o = []
  | Some q =>
      exists e,
        e ∈ Lib.candidates ds o
        /\ e ∈ default [] ds
        /\ correctCountry q = country e
        /\ length (q_images q) = default 3 (clueCount o)
        /\ q_images q ⊆+ Lib.gatherImages (items e) (itemType o)
        /\ forall img, img ∈ q_images q ->
             exists it, it ∈ items e /\ img_type img = type it
                        /\ url img ∈ images it
  end.
Proof.
  unfold Lib.pickQuestion.
  destruct (length (Lib.candidates ds o) =? 0) eqn:Hlen.
  { simpl. by apply Nat.eqb_eq, nil_length_inv in Hlen. }
  assert (Hne : Lib.candidates ds o ≠ []).
  { intros Hnil. rewrite Hnil in Hlen. done. }
  destruct (lookup_random_below (Lib.candidates ds o) g Hne) as [e He].
  destruct (random_below (length (Lib.candidates ds o)) g) as [j g1].
  simpl in He. rewrite He.
  apply list_elem_of_lookup_2 in He.
  assert (Hc : e ∈ default [] ds /\ Lib.is_candidate o e = true).
  { unfold Lib.candidates in He.
    by rewrite list_elem_of_In, filter_In, <-list_elem_of_In in He. }
  destruct Hc as [Hin Hc].
  destruct (Lib_buildQuestion_Some e o g1 (Lib_candidate_pool e o Hc))
    as (q & g2 & -> & Hcountry & Hk & Hsub).
  simpl. exists e. repeat (split; [done|]).
  intros img Himg.
  assert (Hpool : img ∈ Lib.gatherImages (items e) (itemType o)).
  { by apply (elem_of_submseteq (q_images q)). }
  apply gatherImages_elem in Hpool as (it & ? & ? & ? & _). eauto.
Qed.

(** X3. [pickQuestion] of [src/lib/questions.ts] returns [null] only when no
    record is a candidate.  Otherwise the question it returns is about a
    candidate record of the dataset, and holds exactly [clueCount] images,
    each of them an image of an item of that record, none drawn more often
    than the record has it. *)
Theorem Lib_pickQuestion_sound (ds : option (list CountryEntry))
    (o : QuestionOptions) (g : rng) :
  match (Lib.pickQuestion ds o g).1 with
  | None => Lib.candidates ds o = []
  | Some q =>
      exists e,
        e ∈ Lib.candidates ds o
        /\ e ∈ default [] ds
        /\ correctCountry q = country e
        /\ length (q_images q) = default 3 (clueCount o)
        /\ q_images q ⊆+ Lib.gatherImages (items e) (itemType o)
        /\ forall img, img ∈ q_images q ->
             exists it, it ∈ items e /\ img_type img = type it
                        /\ url img ∈ images it
  end.
Proof. apply Lib_pickQuestion_result. Qed.

(** ** The filtering component *)

Lemma unique_loop_elem its seen unique it :
  it ∈ App.unique_loop its seen unique -> it ∈ unique \/ it ∈ its.
Proof.
  revert seen unique. induction its as [|x its IH]; intros seen unique; simpl.
  - by left.
  - destruct (_ || _).
    + intros [?|?]%IH; [by left|right; by right].
    + intros [[?| ->%list_elem_of_singleton]%elem_of_app|?]%IH.
      * by left.
      * right. by left.
      * right. by right.
Qed.

Lemma getUniqueTypeItems_elem its it :
  it ∈ App.getUniqueTypeItems its -> it ∈ its.
Proof.
  intros [Hnil|?]%unique_loop_elem; [|done]. by apply not_elem_of_nil in Hnil.
Qed.

Lemma App_pick_images_elem chosen g img :
  Forall (fun it => images it ≠ []) chosen ->
  img ∈ (App.pick_images chosen g).1 ->
  exists it, it ∈ chosen /\ img_type img = type it /\ url img ∈ images it.
Proof.
  intros Hall. revert g. induction Hall as [|it chosen Hne _ IH]; intros g.
  - simpl. by intros ?%not_elem_of_nil.
  - cbn [App.pick_images].
    pose proof (random_below_lt (length (images it)) g) as Hlt.
    destruct (random_below (length (images it)) g) as [j g1]. simpl in Hlt.
    specialize (IH g1). destruct (App.pick_images chosen g1) as [imgs g2].
    simpl in *. intros [->|Himg]%elem_of_cons.
    + exists it. split; [by left|]. split; [done|]. simpl.
      destruct (lookup_lt_is_Some_2 (images it) j) as [u Hu].
      { apply Hlt. destruct (images it); [done|]. simpl. lia. }
      rewrite Hu. simpl. by apply list_elem_of_lookup_2 in Hu.
    + destruct (IH Himg) as (it' & ? & ? & ?). exists it'.
      split; [by right|done].
Qed.

Lemma getImagesForType_elem its o img :
  img ∈ App.getImagesForType its o ->
  exists it, it ∈ its /\ img_type img = type it /\ url img ∈ images it.
Proof.
  unfold App.getImagesForType. intros (it & Hit & Hty & Hu)%elem_of_pooled.
  apply list_elem_of_In, filter_In in Hit as [Hit _].
  apply list_elem_of_In in Hit. eauto.
Qed.

(** What decides, region apart, whether the filtering component can build a
    question from a record. *)
Lemma App_buildQuestion_cases e o g :
  let k := default 3 (clueCount o) in
  let usable := validItems (items e) in
  let enough :=
    negb (length usable =? 0)
    && (if truthy (itemType o)
        then k <=? length (App.getImagesForType usable (itemType o))
        else k <=? length (App.getUniqueTypeItems usable)) in
  if enough then
    exists q g',
      App.buildQuestion e o g = (Some q, g')
      /\ correctCountry q = country e
      /\ length (q_images q) = k
      /\ forall img, img ∈ q_images q ->
           exists it, it ∈ items e /\ img_type img = type it /\ url img ∈ images it
  else App.buildQuestion e o g = (None, g).
Proof.
  intros k usable enough. subst enough. unfold App.buildQuestion.
  fold usable. fold k.
  destruct (length usable =? 0); [done|]. cbn [negb andb].
  destruct (truthy (itemType o)).
  - destruct (Nat.leb_spec k (length (App.getImagesForType usable (itemType o))))
      as [Hk|Hk].
    + rewrite (proj2 (Nat.ltb_ge _ _)) by done.
      pose proof (shuffleArray_length (App.getImagesForType usable (itemType o)) g) as Hl.
      pose proof (fun x => elem_of_take_shuffled
                    (App.getImagesForType usable (itemType o)) k g x) as Hin.
      destruct (shuffleArray _ g) as [shuffled g']. simpl in *.
      eexists _, _. split; [done|]. simpl. split; [done|]. split.
      * rewrite length_take. lia.
      * intros img (it & Hit & ?)%Hin%getImagesForType_elem.
        exists it. split; [by apply validItems_elem|done].
    + by rewrite (proj2 (Nat.ltb_lt _ _)).
  - destruct (Nat.leb_spec k (length (App.getUniqueTypeItems usable))) as [Hk|Hk].
    + rewrite (proj2 (Nat.ltb_ge _ _)) by done.
      pose proof (shuffleArray_length (App.getUniqueTypeItems usable) g) as Hl.
      pose proof (fun x => elem_of_take_shuffled
                    (App.getUniqueTypeItems usable) k g x) as Hin.
      destruct (shuffleArray _ g) as [shuffled g1]. simpl in *.
      assert (Hvalid : Forall (fun it => images it ≠ []) (take k shuffled)).
      { apply Forall_forall. intros it Hit%Hin%getUniqueTypeItems_elem.
        by apply (validItems_images it (items e)). }
      pose proof (pick_images_types (take k shuffled) g1) as Hty.
      pose proof (fun img => App_pick_images_elem (take k shuffled) g1 img Hvalid)
        as Helem.
      destruct (App.pick_images (take k shuffled) g1) as [imgs g2]. simpl in *.
      eexists _, _. split; [done|]. simpl. split; [done|]. split.
      * rewrite <-(length_fmap img_type), Hty, length_fmap, length_take. lia.
      * intros img (it & Hit & ?)%Helem. exists it. split; [|done].
        by apply validItems_elem, getUniqueTypeItems_elem, Hin.
    + by rewrite (proj2 (Nat.ltb_lt _ _)).
Qed.

Lemma App_is_candidate_cases e o :
  App.is_candidate o e
  = region_ok o e
    && (negb (length (validItems (items e)) =? 0)
        && (if truthy (itemType o)
            then default 3 (clueCount o)
                 <=? length (App.getImagesForType (validItems (items e)) (itemType o))
            else default 3 (clueCount o)
                 <=? length (App.getUniqueTypeItems (validItems (items e))))).
Proof.
  unfold App.is_candidate. rewrite region_guard_ok.
  destruct (region_ok o e); [|done]. simpl.
  by destruct (length (validItems (items e)) =? 0).
Qed.

(** X4. In the filtering component the filter and the sampler agree, in the
    per-type and in the pooled mode: a record is a candidate exactly when it
    passes the region constraint and [buildQuestion] returns a question for
    it. *)
Theorem App_filter_agrees_with_sampler (e : CountryEntry) (o : QuestionOptions)
    (g : rng) :
  App.is_candidate o e = true
  <-> region_ok o e = true /\ is_Some (App.buildQuestion e o g).1.
Proof.
  rewrite App_is_candidate_cases.
  pose proof (App_buildQuestion_cases e o g) as Hb. simpl in Hb.
  destruct (negb _ && _).
  - destruct Hb as (q & g' & -> & _). rewrite andb_true_r. simpl.
    split; [by eauto|by intros [? _]].
  - rewrite Hb, andb_false_r. simpl. split; [done|]. by intros [_ [q Hq]].
Qed.

Lemma App_pickQuestion_result (ds : option (list CountryEntry))
    (o : QuestionOptions) (g : rng) :
  match (App.pickQuestion ds o g).1 with
  | None => App.candidates ds o = []
  | Some q =>
      exists e,
        e ∈ App.candidates ds o
        /\ e ∈ default [] ds
        /\ correctCountry q = country e
        /\ length (q_images q) = default 3 (clueCount o)
        /\ forall img, img ∈ q_images q ->
             exists it, it ∈ items e /\ img_type img = type it
                        /\ url img ∈ images it
  end.
Proof.
  unfold App.pickQuestion.
  destruct (length (App.candidates ds o) =? 0) eqn:Hlen.
  { simpl. by apply Nat.eqb_eq, nil_length_inv in Hlen. }
  assert (Hne : App.candidates ds o ≠ []).
  { intros Hnil. rewrite Hnil in Hlen. done. }
  destruct (lookup_random_below (App.candidates ds o) g Hne) as [e He].
  destruct (random_below (length (App.candidates ds o)) g) as [j g1].
  simpl in He. rewrite He.
  apply list_elem_of_lookup_2 in He.
  assert (Hc : e ∈ default [] ds /\ App.is_candidate o e = true).
  { unfold App.candidates in He.
    by rewrite list_elem_of_In, filter_In, <-list_elem_of_In in He. }
  destruct Hc as [Hin Hc].
  rewrite App_is_candidate_cases in Hc. apply andb_true_iff in Hc as [_ Hc].
  pose proof (App_buildQuestion_cases e o g1) as Hb. simpl in Hb.
  rewrite Hc in Hb. destruct Hb as (q & g2 & -> & ? & ? & ?).
  simpl. exists e. done.
Qed.

(** X5. [pickQuestion] of the filtering component returns [null] only when
    no record is a candidate.  Otherwise the question it returns is about a
    candidate record of the dataset and holds exactly [clueCount] images,
    each of them an image of an item of that record, labelled with the type
    of that item. *)
Theorem App_pickQuestion_sound (ds : option (list CountryEntry))
    (o : QuestionOptions) (g : rng) :
  match (App.pickQuestion ds o g).1 with
  | None => App.candidates ds o = []
  | Some q =>
      exists e,
        e ∈ App.candidates ds o
        /\ e ∈ default [] ds
        /\ correctCountry q = country e
        /\ length (q_images q) = default 3 (clueCount o)
        /\ forall img, img ∈ q_images q ->
             exists it, it ∈ items e /\ img_type img = type it
                        /\ url img ∈ images it
  end.
Proof. apply App_pickQuestion_result. Qed.

(** ** The clue-type filter *)

Lemma lower_char_idem c : lower_char (lower_char c) = lower_char c.
Proof. by_char c. Qed.

Lemma toLowerCase_idem s : toLowerCase (toLowerCase s) = toLowerCase s.
Proof. induction s as [|c r IH]; simpl; [done|]. by rewrite lower_char_idem, IH. Qed.

Lemma toLowerCase_empty s : toLowerCase s = "" <-> s = "".
Proof. by destruct s. Qed.

Lemma truthy_lower o : truthy (toLowerCase <$> o) = truthy o.
Proof. destruct o as [[|c r]|]; done. Qed.

Lemma pooled_mode_same_pool its o :
  truthy o = true ->
  App.getImagesForType (validItems its) o = Lib.gatherImages its o.
Proof.
  intros Ho. unfold App.getImagesForType, Lib.gatherImages. rewrite Ho. f_equal.
  apply filter_ext. intros it. unfold Lib.matches_type.
  rewrite truthy_lower, Ho. destruct o as [t|]; [|done]. simpl.
  rewrite <-(truthy_lower (Some t)) in Ho. simpl in Ho. rewrite Ho. simpl.
  destruct (String.eqb_spec (toLowerCase (type it)) (toLowerCase t)) as [->|Hne].
  - by rewrite bool_decide_eq_true_2.
  - rewrite bool_decide_eq_false_2; [done|]. congruence.
Qed.

(** X6. When a clue type is asked for and at least one clue is wanted, the
    filtering component and [src/lib/questions.ts] are the same program:
    they have the same candidates and, from the same random numbers, build
    the same question. *)
Theorem pooled_mode_revisions_agree (e : CountryEntry) (o : QuestionOptions)
    (g : rng) :
  truthy (itemType o) = true ->
  0 < default 3 (clueCount o) ->
  App.is_candidate o e = Lib.is_candidate o e
  /\ App.buildQuestion e o g = Lib.buildQuestion e o g.
Proof.
  intros Ht Hk.
  pose proof (pooled_mode_same_pool (items e) (itemType o) Ht) as Hpool.
  assert (Hempty : (length (validItems (items e)) =? 0) = true ->
                   length (Lib.gatherImages (items e) (itemType o)) = 0).
  { intros Hn%Nat.eqb_eq%nil_length_inv. unfold Lib.gatherImages. by rewrite Hn. }
  split.
  - unfold App.is_candidate, Lib.is_candidate, Lib.MIN_CLUES.
    destruct (_ && _); [done|]. rewrite Ht, Hpool.
    destruct (length (validItems (items e)) =? 0) eqn:Hn; [|done].
    rewrite (Hempty eq_refl). symmetry. apply Nat.leb_gt. lia.
  - unfold App.buildQuestion, Lib.buildQuestion, Lib.MIN_CLUES.
    rewrite Ht, Hpool.
    destruct (length (validItems (items e)) =? 0) eqn:Hn; [|done].
    rewrite (Hempty eq_refl). by rewrite (proj2 (Nat.ltb_lt _ _)).
Qed.

Lemma pooled_mode_revisions_agree_witness :
  App.is_candidate bollards_only chile = Lib.is_candidate bollards_only chile
  /\ App.buildQuestion chile bollards_only [2; 0]
     = Lib.buildQuestion chile bollards_only [2; 0].
Proof.
  apply (pooled_mode_revisions_agree chile bollards_only [2; 0]).
  - reflexivity.
  - simpl. lia.
Defined.

(** X7. The clue-type constraint of [gatherImages] compares types without
    regard to case: asking for a type or for its lower-case spelling gives
    the same pool, and when a (non-empty) type is asked for, every image of
    the pool comes from an item whose type is that type up to case. *)
Theorem gatherImages_type_filter (its : list CountryItem) (t : string) :
  Lib.gatherImages its (Some t) = Lib.gatherImages its (Some (toLowerCase t))
  /\ (t ≠ "" ->
      forall img, img ∈ Lib.gatherImages its (Some t) ->
        toLowerCase (img_type img) = toLowerCase t).
Proof.
  split.
  - unfold Lib.gatherImages. f_equal. apply filter_ext. intros it.
    unfold Lib.matches_type. simpl. rewrite toLowerCase_idem. reflexivity.
  - intros Ht img (it & _ & Hty & _ & Hm)%gatherImages_elem.
    unfold Lib.matches_type in Hm. simpl in Hm.
    destruct (String.eqb_spec (toLowerCase t) "") as [He|He].
    { apply (proj1 (toLowerCase_empty t)) in He. contradiction. }
    simpl in Hm. apply String.eqb_eq in Hm. by rewrite Hty.
Qed.

Lemma gatherImages_type_filter_witness :
  Lib.gatherImages (items france) (Some "POLE")
  = Lib.gatherImages (items france) (Some (toLowerCase "POLE"))
  /\ forall img, img ∈ Lib.gatherImages (items france) (Some "POLE") ->
       toLowerCase (img_type img) = toLowerCase "POLE".
Proof.
  destruct (gatherImages_type_filter (items france) "POLE") as [H1 H2].
  split; [exact H1|]. apply H2. discriminate.
Defined.

(** ** What validation lets through, and what it reports *)

Section ValidationSound.
Import Schema.

Lemma string_min1_Ok p v s :
  string_min1 p v = Ok s -> v = Some (JStr s) /\ nonempty s = true.
Proof.
  unfold string_min1. destruct v as [[| | |s'| |]|]; try done.
  destruct s'; simpl; [done|]. by intros [= <-].
Qed.

Lemma collect_Ok {A} (rs : list (result A)) vs :
  collect rs = Ok vs -> rs = Ok <$> vs.
Proof.
  revert vs. induction rs as [|r rs IH]; intros vs; simpl.
  - by intros [= <-].
  - destruct r as [v|]; [|done]. destruct (collect rs) as [vs'|]; [|done].
    intros [= <-]. csimpl. by rewrite (IH vs').
Qed.

Lemma imap_Ok {A B} (f : nat -> B -> result A) (l : list B) vs :
  imap f l = Ok <$> vs -> Forall (fun v => exists i x, f i x = Ok v) vs.
Proof.
  revert f vs. induction l as [|x l IH]; intros f [|v vs]; csimpl; try done.
  intros [= Hx Hl]. constructor; [by eauto|].
  apply (Forall_impl _ _ _ (IH _ _ Hl)). intros v' (i & x' & ?). by exists (S i), x'.
Qed.

Lemma array_min1_Ok {A} (elem : list path_elem -> option json -> result A) p v vs :
  array_min1 elem p v = Ok vs ->
  vs ≠ [] /\ Forall (fun x => exists q e, elem q e = Ok x) vs.
Proof.
  unfold array_min1. destruct v as [[| | | |elems|]|]; try done.
  destruct (collect _) as [vs'|] eqn:Hc; [|by destruct (_ <? _)].
  destruct (length elems <? 1) eqn:Hlen; [done|]. intros [= <-].
  apply collect_Ok in Hc. split.
  - intros ->. destruct elems; [done|]. done.
  - apply imap_Ok in Hc. apply (Forall_impl _ _ _ Hc).
    intros x (i & e & ?). eauto.
Qed.

Lemma countryItemSchema_Ok p v it :
  countryItemSchema p v = Ok it -> item_ok it = true.
Proof.
  unfold countryItemSchema. destruct v as [[| | | | |fields]|]; try done.
  destruct (string_min1 _ _) as [t|] eqn:Ht; [|done].
  destruct (array_min1 _ _ _) as [imgs|] eqn:Hi; [|done].
  intros [= <-]. unfold item_ok. simpl.
  apply string_min1_Ok in Ht as [_ ->].
  apply array_min1_Ok in Hi as [Hne Hall]. simpl.
  apply andb_true_iff. split.
  - destruct imgs; done.
  - apply forallb_forall. intros u Hu%list_elem_of_In.
    rewrite Forall_forall in Hall. destruct (Hall u Hu) as (q & e & He).
    by apply string_min1_Ok in He as [_ ?].
Qed.

Lemma countryEntrySchema_Ok p v e :
  countryEntrySchema p v = Ok e -> entry_ok false e = true.
Proof.
  unfold countryEntrySchema. destruct v as [[| | | | |fields]|]; try done.
  destruct (string_min1 _ (get "country" fields)) as [c|] eqn:Hc; [|done].
  destruct (string_min1 _ (get "region" fields)) as [r|] eqn:Hr;
    [|by destruct (array_min1 _ _ _)].
  destruct (array_min1 _ _ _) as [its|] eqn:Hi; [|done].
  intros [= <-]. unfold entry_ok. simpl.
  apply string_min1_Ok in Hc as [_ ->]. apply string_min1_Ok in Hr as [_ ->].
  apply array_min1_Ok in Hi as [Hne Hall]. simpl.
  apply andb_true_iff. split.
  - destruct its; done.
  - apply forallb_forall. intros it Hit%list_elem_of_In.
    rewrite Forall_forall in Hall. destruct (Hall it Hit) as (q & v & Hv).
    by apply countryItemSchema_Ok in Hv.
Qed.

Lemma validateDataset_Ok v d :
  validateDataset v = Ok d -> d ≠ [] /\ forallb (entry_ok false) d = true.
Proof.
  unfold validateDataset, datasetSchema.
  intros [Hne Hall]%array_min1_Ok. split; [done|].
  apply forallb_forall. intros e He%list_elem_of_In.
  rewrite Forall_forall in Hall. destruct (Hall e He) as (q & v' & Hv).
  by apply countryEntrySchema_Ok in Hv.
Qed.

Lemma validateDataset_reencode d :
  d ≠ [] -> forallb (entry_ok false) d = true ->
  validateDataset (dataset_json d) = Ok d.
Proof.
  intros Hne Hall.
  pose proof (array_min1_spec countryEntrySchema entry_json (entry_ok false) [] d)
    as Hspec.
  rewrite Hall in Hspec. destruct d; [done|]. simpl in Hspec. apply Hspec.
  - intros q x Hx. pose proof (countryEntrySchema_spec q x) as H.
    by rewrite Hx in H.
  - intros q x Hx. pose proof (countryEntrySchema_spec q x) as H.
    by rewrite Hx in H.
Qed.

End ValidationSound.

(** X8. Whatever JSON value [validateDataset] accepts, the dataset it
    returns is not empty, every record of it has a non-empty country and
    region and at least one item, every item a non-empty type and at least
    one image, every image a non-empty URL; and the dataset it returns,
    written back as JSON, validates to itself. *)
Theorem validateDataset_sound (v : Schema.json) (d : list CountryEntry) :
  Schema.validateDataset v = Schema.Ok d ->
  d ≠ []
  /\ forallb (Schema.entry_ok false) d = true
  /\ Schema.validateDataset (Schema.dataset_json d) = Schema.Ok d.
Proof.
  intros [Hne Hall]%validateDataset_Ok.
  split; [done|]. split; [done|]. by apply validateDataset_reencode.
Qed.

Lemma validateDataset_sound_witness :
  [france] ≠ []
  /\ forallb (Schema.entry_ok false) [france] = true
  /\ Schema.validateDataset (Schema.dataset_json [france]) = Schema.Ok [france].
Proof. apply (validateDataset_sound france_annotated [france]). reflexivity. Defined.

Lemma item_ok_usable it :
  Schema.item_ok it = true -> (0 <? length (images it)) = true /\ urls_ok it.
Proof.
  unfold Schema.item_ok. intros [[_ Hlen]%andb_true_iff Hall]%andb_true_iff.
  split; [done|]. unfold urls_ok. intros Hin%list_elem_of_In.
  rewrite forallb_forall in Hall. by specialize (Hall _ Hin).
Qed.

Lemma validItems_all its :
  Forall (fun it => (0 <? length (images it)) = true) its -> validItems its = its.
Proof.
  intros Hall. unfold validItems. apply forallb_filter_id, forallb_forall.
  intros it Hit%list_elem_of_In. rewrite Forall_forall in Hall. by apply Hall.
Qed.

(** X9. In a validated dataset no item is without images and no URL is
    empty: [validItems] keeps every item of every record, and without a
    clue-type constraint the pool of [gatherImages] holds every image of
    the record. *)
Theorem validated_items_usable (v : Schema.json) (d : list CountryEntry)
    (e : CountryEntry) :
  Schema.validateDataset v = Schema.Ok d ->
  e ∈ d ->
  validItems (items e) = items e
  /\ Forall urls_ok (items e)
  /\ Lib.gatherImages (items e) None = pooled (items e)
  /\ 0 < image_count e.
Proof.
  intros [_ Hall]%validateDataset_Ok He%list_elem_of_In.
  rewrite forallb_forall in Hall. specialize (Hall e He).
  unfold Schema.entry_ok in Hall.
  apply andb_true_iff in Hall as [[_ Hlen]%andb_true_iff Hits].
  rewrite forallb_forall in Hits.
  assert (Hvalid : validItems (items e) = items e).
  { apply validItems_all, Forall_forall. intros it Hit%list_elem_of_In.
    by apply item_ok_usable, Hits. }
  split; [done|]. split; [|split].
  - apply Forall_forall. intros it Hit%list_elem_of_In.
    by apply item_ok_usable, Hits.
  - rewrite gatherImages_all by done. by rewrite Hvalid.
  - destruct (decide (image_count e = 0)) as [H0|H0]; [|lia].
    apply validItems_nil in H0. rewrite Hvalid in H0.
    destruct (items e); simpl in *; [done|lia].
Qed.

Lemma validated_items_usable_witness :
  validItems (items france) = items france
  /\ Forall urls_ok (items france)
  /\ Lib.gatherImages (items france) None = pooled (items france)
  /\ 0 < image_count france.
Proof.
  apply (validated_items_usable france_annotated [france] france).
  - reflexivity.
  - apply list_elem_of_here.
Defined.

(** *** The issues of a [ZodError] *)

Section ValidationIssues.
Import Schema.

Lemma issues_of_collect {A} (rs : list (result A)) :
  issues_of (collect rs) = mjoin (issues_of <$> rs).
Proof.
  induction rs as [|r rs IH]; csimpl; [done|]. rewrite <-IH.
  destruct r as [v|l]; destruct (collect rs); simpl; by rewrite ?app_nil_r.
Qed.

Lemma issues_of_array_elem {A} (elem : list path_elem -> option json -> result A)
    p (elems : list json) i e x :
  elems !! i = Some e ->
  x ∈ issues_of (elem (p ++ [Index i]) (Some e)) ->
  x ∈ issues_of (array_min1 elem p (Some (JArr elems))).
Proof.
  intros Hi Hx.
  assert (Hc : x ∈ issues_of
                 (collect (imap (fun i e => elem (p ++ [Index i]) (Some e)) elems))).
  { rewrite issues_of_collect. apply list_elem_of_join.
    exists (issues_of (elem (p ++ [Index i]) (Some e))). split; [done|].
    apply list_elem_of_fmap. eexists. split; [done|].
    apply list_elem_of_lookup. exists i. by rewrite list_lookup_imap, Hi. }
  unfold array_min1.
  destruct (collect _) as [vs|l]; [by apply not_elem_of_nil in Hc|].
  destruct (length elems <? 1); simpl; [by right|done].
Qed.

Lemma entry_issues p fields :
  issues_of (countryEntrySchema p (Some (JObj fields)))
  = issues_of (string_min1 (p ++ [Key "country"]) (get "country" fields))
    ++ issues_of (string_min1 (p ++ [Key "region"]) (get "region" fields))
    ++ issues_of (array_min1 countryItemSchema (p ++ [Key "items"])
                             (get "items" fields)).
Proof.
  unfold countryEntrySchema.
  destruct (string_min1 (p ++ [Key "country"]) _),
           (string_min1 (p ++ [Key "region"]) _),
           (array_min1 countryItemSchema (p ++ [Key "items"]) _);
    by rewrite ?app_nil_r.
Qed.

Lemma entry_blank_issues p e :
  (country e = "" ->
   {| code_of := too_small; path := p ++ [Key "country"] |}
   ∈ issues_of (countryEntrySchema p (Some (entry_json e))))
  /\ (region e = "" ->
      {| code_of := too_small; path := p ++ [Key "region"] |}
      ∈ issues_of (countryEntrySchema p (Some (entry_json e)))).
Proof.
  destruct e as [c r its]. unfold entry_json. rewrite entry_issues.
  cbn [get String.eqb Ascii.eqb Bool.eqb country region items].
  rewrite !string_min1_spec. split; intros ->.
  - apply elem_of_app. left. by left.
  - apply elem_of_app. right. apply elem_of_app. left. by left.
Qed.

End ValidationIssues.

(** X10. Validation does not stop at the first fault: for every record of
    the dataset file whose country, or whose region, is the empty string,
    the [ZodError] holds a [too_small] issue with the path of that
    property. *)
Theorem validateDataset_reports_blanks (d : list CountryEntry) (i : nat)
    (e : CountryEntry) :
  d !! i = Some e ->
  (country e = "" ->
   {| Schema.code_of := Schema.too_small;
      Schema.path := [Schema.Index i; Schema.Key "country"] |}
   ∈ Schema.issues_of (Schema.validateDataset (Schema.dataset_json d)))
  /\ (region e = "" ->
      {| Schema.code_of := Schema.too_small;
         Schema.path := [Schema.Index i; Schema.Key "region"] |}
      ∈ Schema.issues_of (Schema.validateDataset (Schema.dataset_json d))).
Proof.
  intros Hi.
  assert (Hj : (Schema.entry_json <$> d) !! i = Some (Schema.entry_json e)).
  { by rewrite list_lookup_fmap, Hi. }
  unfold Schema.validateDataset, Schema.datasetSchema, Schema.dataset_json.
  destruct (entry_blank_issues [Schema.Index i] e) as [Hc Hr].
  split; intros Hblank.
  - apply (issues_of_array_elem _ [] _ i _ _ Hj). by apply Hc.
  - apply (issues_of_array_elem _ [] _ i _ _ Hj). by apply Hr.
Qed.

Lemma validateDataset_reports_blanks_witness :
  {| Schema.code_of := Schema.too_small;
     Schema.path := [Schema.Index 1; Schema.Key "country"] |}
  ∈ Schema.issues_of (Schema.validateDataset (Schema.dataset_json two_blanks))
  /\ {| Schema.code_of := Schema.too_small;
        Schema.path := [Schema.Index 1; Schema.Key "region"] |}
     ∈ Schema.issues_of (Schema.validateDataset (Schema.dataset_json two_blanks)).
Proof.
  destruct (validateDataset_reports_blanks two_blanks 1
              {| country := ""; region := ""; items := items chile |} eq_refl)
    as [Hc Hr].
  split; [apply Hc|apply Hr]; reflexivity.
Defined.

(** ** The session *)

(** X11. In every state a session reaches, the streak is at most the score
    and the score at most the number of answers. *)
Theorem session_metrics_ordered (st : Session.state) :
  Session.reachable st ->
  Session.streak st ≤ Session.score st /\ Session.score st ≤ Session.answered st.
Proof.
  induction 1 as [|name st _ IH|name st _ IH|resetStats next st _ IH].
  - simpl. lia.
  - unfold Session.layer_click, Session.handleCountryClick.
    destruct (truthy name); [|done].
    destruct (Session.question st); [|done].
    destruct (truthy (Session.selected st)); [done|].
    simpl. destruct (String.eqb _ _); lia.
  - unfold Session.layer_click_classic, Session.handleCountryClick_classic.
    destruct (truthy name); [|done].
    destruct (Session.question st); [|done].
    destruct (truthy (Session.selected st)); [done|].
    simpl. destruct (String.eqb _ _); lia.
  - simpl. destruct resetStats; lia.
Qed.

Lemma session_metrics_ordered_witness :
  Session.streak answered_wrong ≤ Session.score answered_wrong
  /\ Session.score answered_wrong ≤ Session.answered answered_wrong.
Proof.
  apply (session_metrics_ordered answered_wrong).
  apply Session.reach_click, Session.reach_reroll, Session.reach_initial.
Defined.





Lemma clicks_scored q l names v :
  Polygons.polygons v = Some l ->
  Polygons.key l = Polygons.layer_key (Session.question (Polygons.session v)) ->
  Polygons.handler l = {| Polygons.seen_selected := None;
                          Polygons.seen_question := Some q |} ->
  "" ∉ names ->
  Session.answered (Polygons.session (clicks (Some <$> names) v))
  = Session.answered (Polygons.session v) + length names
  /\ Session.score (Polygons.session (clicks (Some <$> names) v))
     = Session.score (Polygons.session v)
       + length (List.filter (fun n => String.eqb n (correctCountry q)) names)
  /\ Session.selected (Polygons.session (clicks (Some <$> names) v))
     = from_option Some (Session.selected (Polygons.session v)) (last names).
Proof.
  intros Hl Hkey Hh. revert v Hl Hkey.
  induction names as [|n names IH]; intros v Hl Hkey Hnames.
  { simpl. split; [lia|]. split; [lia|done]. }
  apply not_elem_of_cons in Hnames as [Hn Hnames].
  change (clicks (Some <$> n :: names) v)
    with (clicks (Some <$> names) (Polygons.click (Some n) v)).
  destruct (click_keeps_layer (Some n) v l Hl Hkey) as [Hl' Hq'].
  rewrite <-Hq' in Hkey.
  destruct (IH _ Hl' Hkey Hnames) as (Ha & Hs & Hsel).
  rewrite Ha, Hs, Hsel.
  assert (Hclick : Polygons.session (Polygons.click (Some n) v)
                   = Polygons.handleCountryClick (Polygons.handler l) n
                       (Polygons.session v)).
  { unfold Polygons.click. rewrite Hl, truthy_Some.
    rewrite bool_decide_eq_true_2 by done. done. }
  rewrite Hclick, Hh, last_cons. unfold Polygons.handleCountryClick. simpl.
  destruct (String.eqb n (correctCountry q)); simpl.
  - split; [lia|]. split; [lia|]. by destruct (last names).
  - split; [lia|]. split; [lia|]. by destruct (last names).
Qed.

Lemma layer_key_named q : Polygons.named q -> Polygons.layer_key (Some q) = correctCountry q.
Proof.
  intros [Hne _]. unfold Polygons.layer_key.
  change (correctCountry <$> Some q) with (Some (correctCountry q)).
  rewrite truthy_Some. by rewrite bool_decide_eq_true_2.
Qed.

Lemma create_inv st :
  Session.reachable st ->
  from_option Polygons.named True (Session.question st) ->
  layer_inv {| Polygons.session := st; Polygons.polygons := Some (Polygons.create st) |}.
Proof.
  intros Hst Hnamed. split; [done|]. simpl. split; [done|]. split.
  - apply (reachable_selected st Hst).
  - destruct (Session.question st) as [q|]; [|done]. by exists q.
Qed.

Lemma render_inv st old :
  Session.reachable st ->
  from_option Polygons.named True (Session.question st) ->
  match old with
  | Some l =>
      (Polygons.seen_selected (Polygons.handler l) = None
       \/ truthy (Polygons.seen_selected (Polygons.handler l)) = true)
      /\ match Polygons.seen_question (Polygons.handler l) with
         | Some q' => Polygons.named q' /\ Polygons.key l = correctCountry q'
         | None => True
         end
  | None => True
  end ->
  layer_inv {| Polygons.session := st;
               Polygons.polygons := Some (Polygons.render st old) |}.
Proof.
  intros Hst Hnamed Hold. destruct old as [l|]; [|by apply create_inv].
  unfold Polygons.render.
  destruct (String.eqb (Polygons.key l) _) eqn:Hkey; [|by apply create_inv].
  apply String.eqb_eq in Hkey. destruct Hold as [Hsel Hq].
  split; [done|]. simpl. split; [done|]. split; [done|].
  destruct (Polygons.seen_question (Polygons.handler l)) as [q'|]; [|done].
  destruct Hq as [Hq' Hl]. rewrite Hl in Hkey.
  destruct (Session.question st) as [q|]; simpl in Hnamed.
  - exists q. split; [done|]. by rewrite layer_key_named in Hkey.
  - by destruct Hq'.
Qed.

Lemma layer_inv_old v l :
  layer_inv v -> Polygons.polygons v = Some l ->
  (Polygons.seen_selected (Polygons.handler l) = None
   \/ truthy (Polygons.seen_selected (Polygons.handler l)) = true)
  /\ match Polygons.seen_question (Polygons.handler l) with
     | Some q' => Polygons.named q' /\ Polygons.key l = correctCountry q'
     | None => True
     end.
Proof.
  intros [Hnamed Hinv] Hl. rewrite Hl in Hinv. destruct Hinv as (Hkey & Hsel & Hq).
  split; [done|].
  destruct (Polygons.seen_question (Polygons.handler l)) as [q'|]; [|done].
  destruct Hq as (q & Hheld & Hsame). rewrite Hheld in Hnamed, Hkey.
  simpl in Hnamed. rewrite layer_key_named in Hkey by done.
  split; [|congruence]. destruct Hnamed. split; congruence.
Qed.

Lemma held_click_question c n st :
  Session.question (Polygons.handleCountryClick c n st) = Session.question st.
Proof.
  unfold Polygons.handleCountryClick. destruct (Polygons.seen_question c); [|done].
  by destruct (truthy (Polygons.seen_selected c)).
Qed.

Lemma held_click_reachable c n st :
  n ≠ "" ->
  Session.reachable st ->
  (Polygons.seen_selected c = None \/ truthy (Polygons.seen_selected c) = true) ->
  match Polygons.seen_question c with
  | Some q' => exists q, Session.question st = Some q
                         /\ correctCountry q = correctCountry q'
  | None => True
  end ->
  Session.reachable (Polygons.handleCountryClick c n st).
Proof.
  intros Hn Hst Hsel Hq. unfold Polygons.handleCountryClick.
  destruct (Polygons.seen_question c) as [q'|]; [|done].
  destruct Hsel as [Hsel|Hsel]; rewrite Hsel; [|done]. simpl.
  destruct Hq as (q & Hheld & Hsame).
  pose proof (Session.reach_click (Some n) _
                (Session.reach_reroll false (Some q) st Hst)) as Hreach.
  unfold Session.layer_click, Session.handleCountryClick in Hreach.
  rewrite truthy_Some, bool_decide_eq_true_2 in Hreach by done.
  simpl in Hreach. by rewrite Hheld, <-Hsame.
Qed.

(** The sessions of the component with its map are sessions in the sense
    of [Session.reachable]: a click that the held handler scores leaves the
    state that a click on a fresh handler would leave after the same
    question had been asked again.  (This needs the layer to be keyed by
    the country asked about: see [Polygons.named].) *)
Lemma polygons_session_reachable v :
  Polygons.reachable v ->
  Session.reachable (Polygons.session v) /\ layer_inv v.
Proof.
  induction 1 as [mapOpen|resetStats next v _ [Hst Hinv] Hnext
                  |name v _ [Hst Hinv]|v _ [Hst Hinv]|v _ [Hst Hinv]].
  - split; [apply Session.reach_initial|].
    destruct mapOpen; [|by split].
    apply (create_inv Session.initial); [apply Session.reach_initial|done].
  - assert (Hst' : Session.reachable
                     (Session.rerollQuestion resetStats next (Polygons.session v)))
      by (by apply Session.reach_reroll).
    split; [done|]. unfold Polygons.rerollQuestion.
    destruct (Polygons.polygons v) as [l|] eqn:Hl; [|by split].
    apply (render_inv
             (Session.rerollQuestion resetStats next (Polygons.session v))
             (Some l)); [done|done|].
    by apply (layer_inv_old v).
  - unfold Polygons.click.
    destruct (Polygons.polygons v) as [l|] eqn:Hl; [|done].
    destruct (layer_inv_old v l Hinv Hl) as [Hsel Hq].
    assert (Hheld : match Polygons.seen_question (Polygons.handler l) with
                    | Some q' => exists q, Session.question (Polygons.session v) = Some q
                                           /\ correctCountry q = correctCountry q'
                    | None => True
                    end).
    { destruct Hinv as [_ Hinv]. rewrite Hl in Hinv. by destruct Hinv as (_ & _ & ?). }
    destruct (truthy name) eqn:Hname; cbn [Polygons.session].
    + destruct name as [n|]; [|done].
      rewrite truthy_Some in Hname. apply bool_decide_eq_true in Hname.
      assert (Hst' : Session.reachable
                       (Polygons.handleCountryClick (Polygons.handler l) n
                          (Polygons.session v)))
        by (by apply held_click_reachable).
      split; [done|]. apply render_inv; [done| |done].
      rewrite held_click_question. by destruct Hinv.
    + split; [done|]. apply render_inv; [done|by destruct Hinv|done].
  - split; [done|]. split; [by destruct Hinv|done].
  - split; [done|]. unfold Polygons.showMap. cbn [Polygons.session].
    apply render_inv; [done|by destruct Hinv|].
    destruct (Polygons.polygons v) as [l|] eqn:Hl; [|done].
    by apply (layer_inv_old v).
Qed.

(** Without [Polygons.named] the layer of one question outlives it: the
    key of a question about a country named ["init"] is the key of no
    question, so that after a change of filters that leaves no candidate
    the polygons still hold the handler of that question, and a click is
    scored although no question is held. *)
Example click_without_question :
  Session.question (Polygons.session map_no_question) = None
  /\ Session.selected (Polygons.session map_no_question) = Some "France"
  /\ Session.isCorrect (Polygons.session map_no_question) = Some false
  /\ Session.answered (Polygons.session map_no_question) = 1.
Proof. repeat split. Qed.

(** X13. Every click is scored, not only the first: after a question about
    another country than the one the layer was made for has been asked,
    each click on a polygon with a (non-empty) name adds one to
    [answered], and one to [score] when the name is the country asked
    about; the selection is the name clicked last.  The guard
    [if (selected || !question) return] is in the handler, but the
    handler that the polygons hold has seen no selection. *)
Theorem every_click_scored (resetStats : bool) (q : Question)
    (v : Polygons.state) (l : Polygons.layer) (names : list string) :
  Polygons.polygons v = Some l ->
  Polygons.key l ≠ Polygons.layer_key (Some q) ->
  "" ∉ names ->
  Session.answered
    (Polygons.session
       (clicks (Some <$> names) (Polygons.rerollQuestion resetStats (Some q) v)))
  = Session.answered
      (Polygons.session (Polygons.rerollQuestion resetStats (Some q) v))
    + length names
  /\ Session.score
       (Polygons.session
          (clicks (Some <$> names) (Polygons.rerollQuestion resetStats (Some q) v)))
     = Session.score
         (Polygons.session (Polygons.rerollQuestion resetStats (Some q) v))
       + length (List.filter (fun n => String.eqb n (correctCountry q)) names)
  /\ Session.selected
       (Polygons.session
          (clicks (Some <$> names) (Polygons.rerollQuestion resetStats (Some q) v)))
     = last names.
Proof.
  intros Hl Hkey Hnames.
  pose proof (reroll_new_layer resetStats q v l Hl Hkey) as Hnew.
  destruct (clicks_scored q _ names _ Hnew eq_refl eq_refl Hnames)
    as (Ha & Hs & Hsel).
  split; [done|]. split; [done|]. rewrite Hsel. by destruct (last names).
Qed.

Lemma every_click_scored_witness :
  Session.answered
    (Polygons.session
       (clicks (Some <$> ["Germany"; "France"; "France"])
               (Polygons.rerollQuestion true (Some about_france) (Polygons.loaded true))))
  = Session.answered
      (Polygons.session
         (Polygons.rerollQuestion true (Some about_france) (Polygons.loaded true)))
    + length ["Germany"; "France"; "France"]
  /\ Session.score
       (Polygons.session
          (clicks (Some <$> ["Germany"; "France"; "France"])
                  (Polygons.rerollQuestion true (Some about_france) (Polygons.loaded true))))
     = Session.score
         (Polygons.session
            (Polygons.rerollQuestion true (Some about_france) (Polygons.loaded true)))
       + length (List.filter (fun n => String.eqb n (correctCountry about_france))
                             ["Germany"; "France"; "France"])
  /\ Session.selected
       (Polygons.session
          (clicks (Some <$> ["Germany"; "France"; "France"])
                  (Polygons.rerollQuestion true (Some about_france) (Polygons.loaded true))))
     = last ["Germany"; "France"; "France"].
Proof.
  apply (every_click_scored true about_france (Polygons.loaded true)
           (Polygons.create Session.initial) ["Germany"; "France"; "France"]).
  - reflexivity.
  - discriminate.
  - rewrite !elem_of_cons. intros [?|[?|[?|?%not_elem_of_nil]]]; done.
Defined.

(** ** More on the name normaliser *)

Lemma all_chars_and (p q r : ascii -> bool) s :
  (forall c, p c = true -> q c = true -> r c = true) ->
  all_chars p s = true -> all_chars q s = true -> all_chars r s = true.
Proof.
  intros Hpqr. induction s as [|c s IH]; simpl; [done|].
  intros [Hp Hps]%andb_true_iff [Hq Hqs]%andb_true_iff.
  by rewrite (Hpqr c Hp Hq), IH.
Qed.

Lemma strip_others_keeps p s :
  all_chars p s = true -> all_chars p (NoRepeat.strip_others s) = true.
Proof.
  induction s as [|c s IH]; simpl; [done|].
  intros [Hp Hps]%andb_true_iff. destruct (NoRepeat.kept c); simpl; [|by auto].
  by rewrite Hp, IH.
Qed.

Lemma collapse_from_blanks b s :
  all_chars (fun c => negb (is_space c) || Ascii.eqb c " ")
            (NoRepeat.collapse_from b s) = true.
Proof.
  revert b. induction s as [|c s IH]; intros b; simpl; [done|].
  destruct (is_space c) eqn:Hc.
  - destruct b; [done|]. simpl. by rewrite IH.
  - simpl. by rewrite Hc, IH.
Qed.

Lemma kept_blank_normal c :
  NoRepeat.kept c = true ->
  negb (is_space c) || Ascii.eqb c " " = true ->
  normal_char c = true.
Proof. by_char c. Qed.

Lemma before_alias_normal s : all_chars normal_char (before_alias s) = true.
Proof.
  unfold before_alias.
  apply (all_chars_and NoRepeat.kept (fun c => negb (is_space c) || Ascii.eqb c " "));
    [apply kept_blank_normal|apply strip_others_all|].
  apply strip_others_keeps, collapse_from_blanks.
Qed.

Lemma alias_values_normal v :
  (exists k, (k, v) ∈ NoRepeat.ALIASES) -> all_chars normal_char v = true.
Proof.
  intros [k Hk].
  assert (Hall : Forall (fun kv => all_chars normal_char kv.2 = true) NoRepeat.ALIASES).
  { repeat constructor. }
  rewrite Forall_forall in Hall. exact (Hall _ Hk).
Qed.

(** X14. Whatever the (ASCII) name, the result of [normalizeCountryName]
    is written with the letters [a-z], apostrophes, hyphens and spaces
    only: no upper-case letter, digit or punctuation, and no whitespace
    other than the space, is left. *)
Theorem normalize_alphabet (s : string) :
  all_chars normal_char (NoRepeat.normalizeCountryName s) = true.
Proof.
  rewrite normalizeCountryName_unfold.
  destruct (NoRepeat.alias_get (before_alias s) NoRepeat.ALIASES) as [v|] eqn:Ha; simpl.
  - by apply alias_values_normal, (alias_get_elem (before_alias s)).
  - apply before_alias_normal.
Qed.

Lemma trimStart_lower s : trimStart (toLowerCase s) = toLowerCase (trimStart s).
Proof.
  induction s as [|c s IH]; simpl; [done|].
  rewrite space_lower. by destruct (is_space c).
Qed.

Lemma trim_lower s : trim (toLowerCase s) = toLowerCase (trim s).
Proof. unfold trim. by rewrite trimStart_lower, toLowerCase_trimEnd. Qed.

Lemma trimStart_no_head s : head_space s = false -> trimStart s = s.
Proof. destruct s as [|c s]; simpl; [done|]. by intros ->. Qed.

Lemma trim_idem s : trim (trim s) = trim s.
Proof.
  unfold trim.
  rewrite (trimStart_no_head (trimEnd (trimStart s)))
    by apply trimEnd_head, trimStart_head.
  apply trimEnd_idem.
Qed.

(** X15. [normalizeCountryName] does not tell apart two (ASCII) names that
    differ in the case of their letters or in the whitespace around them. *)
Theorem normalize_case_and_margins (s : string) :
  NoRepeat.normalizeCountryName (toLowerCase s) = NoRepeat.normalizeCountryName s
  /\ NoRepeat.normalizeCountryName (trim s) = NoRepeat.normalizeCountryName s.
Proof.
  rewrite !normalizeCountryName_unfold.
  assert (before_alias (toLowerCase s) = before_alias s) as ->.
  { unfold before_alias. by rewrite trim_lower, toLowerCase_idem. }
  assert (before_alias (trim s) = before_alias s) as ->.
  { unfold before_alias. by rewrite trim_idem. }
  done.
Qed.

(** X16. A second pass of [normalizeCountryName] always reaches a name that
    every further pass leaves alone. *)
Theorem normalize_second_pass_final (s : string) :
  NoRepeat.normalizeCountryName
    (NoRepeat.normalizeCountryName (NoRepeat.normalizeCountryName s))
  = NoRepeat.normalizeCountryName (NoRepeat.normalizeCountryName s).
Proof. apply normalize_settles. Qed.



(** ** More on the no-repeat sampler *)

Lemma NoRepeat_pick_images_length chosen used g :
  length (NoRepeat.pick_images chosen used g).1.1 = length chosen.
Proof.
  revert used g. induction chosen as [|it chosen IH]; intros used g; [done|].
  cbn [NoRepeat.pick_images].
  destruct (NoRepeat.pick_image it used g) as [[c used1] g1].
  specialize (IH used1 g1).
  destruct (NoRepeat.pick_images chosen used1 g1) as [[cs used2] g2].
  simpl in *. by rewrite IH.
Qed.

(** The country of the question is drawn from the pool: the candidates,
    without the excluded country when that leaves a choice. *)
Lemma NoRepeat_pickQuestion_cases ds ex ledger g :
  let cands :=
    List.filter (fun e => 3 <=? length (validItems (items e))) ds in
  let others :=
    List.filter
      (fun c => negb (String.eqb (NoRepeat.normalizeCountryName (country c))
                                 (NoRepeat.normalizeCountryName (default "" ex))))
      cands in
  let pool :=
    if truthy ex && (1 <? length cands)
    then if length others =? 0 then cands else others
    else cands in
  match NoRepeat.pickQuestion (Some ds) ex ledger g with
  | (None, ledger', _) => cands = [] /\ ledger' = ledger
  | (Some round, ledger', _) =>
      exists e used',
        e ∈ pool /\ e ∈ cands
        /\ NoRepeat.nr_correctCountry round = country e
        /\ length (NoRepeat.nr_images round) = 3
        /\ ledger' = <[country e := used']> ledger
  end.
Proof.
  intros cands others pool. unfold NoRepeat.pickQuestion. simpl default at 1.
  fold cands.
  destruct (length cands =? 0) eqn:Hlen.
  { split; [|done]. by apply Nat.eqb_eq, nil_length_inv in Hlen. }
  assert (Hcands : cands ≠ []).
  { intros Hnil. by rewrite Hnil in Hlen. }
  assert (Hsub : forall e, e ∈ pool -> e ∈ cands).
  { intros e. unfold pool. destruct (_ && _); [|done].
    destruct (length others =? 0); [done|]. unfold others.
    rewrite list_elem_of_In, filter_In, <-list_elem_of_In. tauto. }
  assert (Hpool : pool ≠ []).
  { unfold pool. destruct (_ && _); [|done].
    destruct (length others =? 0) eqn:Ho; [done|].
    intros Hnil. by rewrite Hnil in Ho. }
  match goal with
  | |- context [random_below (length ?p) g] => change p with pool
  end.
  destruct (lookup_random_below pool g Hpool) as [e He].
  destruct (random_below (length pool) g) as [j g1]. simpl in He. rewrite He.
  apply list_elem_of_lookup_2 in He.
  pose proof (shuffleArray_length (validItems (items e)) g1) as Hl.
  destruct (shuffleArray (validItems (items e)) g1) as [itemPool g2]. simpl in Hl.
  pose proof (NoRepeat_pick_images_length (take 3 itemPool)
                (default ∅ (ledger !! country e)) g2) as Hlen3.
  destruct (NoRepeat.pick_images _ _ g2) as [[clues used'] g3]. simpl in Hlen3.
  exists e, used'. simpl. split; [done|]. split; [by apply Hsub|].
  split; [done|]. split; [|done].
  rewrite Hlen3, length_take, Hl.
  specialize (Hsub e He). unfold cands in Hsub.
  apply list_elem_of_In, filter_In in Hsub as [_ Hge%Nat.leb_le]. lia.
Qed.

(** X18. [pickQuestion] of the no-repeat component returns [null], and
    leaves the ledger alone, only when no record has three items with
    images.  Otherwise it returns a question of exactly three clues about
    such a record of the dataset, and changes the ledger of that country
    only. *)
Theorem NoRepeat_pickQuestion_sound (ds : list CountryEntry)
    (excludeCountry : option string) (ledger : gmap string (gset string))
    (g : rng) :
  match NoRepeat.pickQuestion (Some ds) excludeCountry ledger g with
  | (None, ledger', _) =>
      ledger' = ledger
      /\ forall e, e ∈ ds -> length (validItems (items e)) < 3
  | (Some round, ledger', _) =>
      exists e,
        e ∈ ds
        /\ 3 ≤ length (validItems (items e))
        /\ NoRepeat.nr_correctCountry round = country e
        /\ length (NoRepeat.nr_images round) = 3
        /\ forall c, c ≠ country e -> ledger' !! c = ledger !! c
  end.
Proof.
  pose proof (NoRepeat_pickQuestion_cases ds excludeCountry ledger g) as H.
  cbv zeta in H.
  destruct (NoRepeat.pickQuestion (Some ds) excludeCountry ledger g)
    as [[[round|] ledger'] g'].
  - destruct H as (e & used' & _ & Hc & ? & ? & ->).
    apply list_elem_of_In, filter_In in Hc as [Hin Hge%Nat.leb_le].
    exists e. rewrite list_elem_of_In. repeat (split; [done|]).
    intros c Hne. by rewrite lookup_insert_ne.
  - destruct H as [Hnil ->]. split; [done|]. intros e He.
    destruct (Nat.ltb_spec (length (validItems (items e))) 3) as [|Hge]; [done|].
    assert (Hin : e ∈ List.filter
                        (fun e => 3 <=? length (validItems (items e))) ds).
    { rewrite list_elem_of_In, filter_In, <-list_elem_of_In.
      split; [done|]. by apply Nat.leb_le. }
    rewrite Hnil in Hin. by apply not_elem_of_nil in Hin.
Qed.

(** X19. The no-repeat component does not ask about the same country twice
    in a row when it has the choice: if some record with three items with
    images has another name than the previous country (names compared
    after normalisation), the question returned is about a country with
    another name than the previous one. *)
Theorem NoRepeat_pickQuestion_excludes (ds : list CountryEntry)
    (previous : string) (ledger : gmap string (gset string)) (g : rng)
    (other : CountryEntry) :
  previous ≠ "" ->
  other ∈ ds ->
  3 ≤ length (validItems (items other)) ->
  NoRepeat.normalizeCountryName (country other)
  ≠ NoRepeat.normalizeCountryName previous ->
  exists round ledger' g',
    NoRepeat.pickQuestion (Some ds) (Some previous) ledger g
    = (Some round, ledger', g')
    /\ NoRepeat.normalizeCountryName (NoRepeat.nr_correctCountry round)
       ≠ NoRepeat.normalizeCountryName previous.
Proof.
  intros Hprev Hin Hge Hother.
  pose proof (NoRepeat_pickQuestion_cases ds (Some previous) ledger g) as H.
  cbv zeta in H. simpl default in H.
  set (cands := List.filter (fun e => 3 <=? length (validItems (items e))) ds) in *.
  set (others := List.filter _ cands) in *.
  assert (Hcand : other ∈ cands).
  { unfold cands. rewrite list_elem_of_In, filter_In, <-list_elem_of_In.
    split; [done|]. by apply Nat.leb_le. }
  assert (Hothers : other ∈ others).
  { unfold others. rewrite list_elem_of_In, filter_In, <-list_elem_of_In.
    split; [done|]. apply negb_true_iff, String.eqb_neq. done. }
  assert (Hne : (length others =? 0) = false).
  { apply Nat.eqb_neq. intros Hnil%nil_length_inv. rewrite Hnil in Hothers.
    by apply not_elem_of_nil in Hothers. }
  rewrite Hne in H.
  destruct (NoRepeat.pickQuestion (Some ds) (Some previous) ledger g)
    as [[[round|] ledger'] g'].
  - destruct H as (e & used' & Hpool & Hc & Hcountry & _).
    eexists _, _, _. split; [done|]. rewrite Hcountry.
    destruct (truthy (Some previous) && (1 <? length cands)) eqn:Hb.
    + unfold others in Hpool.
      apply list_elem_of_In, filter_In in Hpool as [_ Hdiff].
      by apply negb_true_iff, String.eqb_neq in Hdiff.
    + apply andb_false_iff in Hb as [Hb|Hb].
      { rewrite truthy_Some in Hb. by apply bool_decide_eq_false in Hb. }
      apply Nat.ltb_ge in Hb.
      assert (Hone : cands = [other]).
      { destruct cands as [|x [|y l]]; simpl in Hb; [|..|lia].
        - by apply not_elem_of_nil in Hcand.
        - by apply list_elem_of_singleton in Hcand as ->. }
      rewrite Hone in Hpool. by apply list_elem_of_singleton in Hpool as ->.
  - destruct H as [Hnil _]. rewrite Hnil in Hcand.
    by apply not_elem_of_nil in Hcand.
Qed.

Lemma NoRepeat_pickQuestion_excludes_witness :
  exists round ledger' g',
    NoRepeat.pickQuestion (Some [france; spain]) (Some "France") ∅ [0; 1]
    = (Some round, ledger', g')
    /\ NoRepeat.normalizeCountryName (NoRepeat.nr_correctCountry round)
       ≠ NoRepeat.normalizeCountryName "France".
Proof.
  apply (NoRepeat_pickQuestion_excludes [france; spain] "France" ∅ [0; 1] spain).
  - discriminate.
  - right. left.
  - simpl. lia.
  - vm_compute. discriminate.
Defined.

(** *** One question and the ledger *)

Lemma filter_sublist {A} (f : A -> bool) (l : list A) :
  List.filter f l `sublist_of` l.
Proof.
  induction l as [|x l IH]; simpl; [constructor|].
  destruct (f x); by constructor.
Qed.

Lemma elem_of_item_keys it k :
  k ∈ item_keys it <-> exists u, u ∈ images it /\ k = NoRepeat.imageKey (type it) (Some u).
Proof.
  unfold item_keys. rewrite elem_of_list_to_set, list_elem_of_fmap.
  split; intros (u & ? & ?); exists u; done.
Qed.

(** A draw from an item touches the keys of that item only. *)
Lemma issued_frame it used c used1 k :
  issued it used c used1 -> k ∉ item_keys it -> k ∈ used1 <-> k ∈ used.
Proof.
  intros (u & _ & Hu & _ & Hseen & Hnew) Hk.
  assert (Hkey : NoRepeat.imageKey (type it) (Some u) ∈ item_keys it).
  { apply elem_of_item_keys. by exists u. }
  destruct (decide (NoRepeat.imageKey (type it) (Some u) ∈ used)) as [Hin|Hnot].
  - destruct (Hseen Hin) as [_ ->]. set_solver.
  - rewrite (Hnew Hnot). set_solver.
Qed.

Lemma issued_cycled it used c used1 :
  issued it used c used1 -> cycled it used used1 c.
Proof.
  intros (u & Hc & Hu & _ & Hseen & Hnew).
  assert (Hkey : NoRepeat.imageKey (type it) (Some u) ∈ item_keys it).
  { apply elem_of_item_keys. by exists u. }
  exists u. split; [done|]. split; [done|]. split.
  - intros Hin. destruct (Hseen Hin) as [Hall ->]. split; [done|]. set_solver.
  - intros Hnot. rewrite (Hnew Hnot). set_solver.
Qed.

(** What [cycled] says depends on the keys of the item only. *)
Lemma cycled_agree it used0 used used' used'' c :
  (forall k, k ∈ item_keys it -> k ∈ used0 <-> k ∈ used) ->
  (forall k, k ∈ item_keys it -> k ∈ used'' <-> k ∈ used') ->
  cycled it used used' c -> cycled it used0 used'' c.
Proof.
  intros Hbefore Hafter (u & Hc & Hu & Hseen & Hnew).
  assert (Hkey : NoRepeat.imageKey (type it) (Some u) ∈ item_keys it).
  { apply elem_of_item_keys. by exists u. }
  exists u. split; [done|]. split; [done|]. split.
  - intros Hin. apply (Hbefore _ Hkey) in Hin.
    destruct (Hseen Hin) as [Hall Heq]. split.
    + intros k Hk. apply (Hbefore _ Hk). by apply Hall.
    + apply set_eq. intros k. split.
      * intros [Hk Hk']%elem_of_intersection. rewrite <-Heq.
        apply elem_of_intersection. split; [by apply (Hafter _ Hk')|done].
      * intros Hk. rewrite <-Heq in Hk.
        apply elem_of_intersection in Hk as [Hk Hk'].
        apply elem_of_intersection. split; [by apply (Hafter _ Hk')|done].
  - intros Hnot.
    assert (Hnot' : NoRepeat.imageKey (type it) (Some u) ∉ used).
    { intros Hin. apply Hnot. by apply (Hbefore _ Hkey). }
    specialize (Hnew Hnot'). apply set_eq. intros k. split.
    + intros [Hk Hk']%elem_of_intersection.
      assert (Hin : k ∈ used' ∩ item_keys it).
      { apply elem_of_intersection. split; [by apply (Hafter _ Hk')|done]. }
      rewrite Hnew in Hin. apply elem_of_union in Hin as [Hin|Hin].
      * apply elem_of_union. by left.
      * apply elem_of_union. right.
        apply elem_of_intersection in Hin as [Hin _].
        apply elem_of_intersection. split; [by apply (Hbefore _ Hk')|done].
    + intros Hk.
      assert (Hk' : k ∈ item_keys it).
      { apply elem_of_union in Hk as [->%elem_of_singleton|Hk]; [done|].
        by apply elem_of_intersection in Hk as [_ ?]. }
      assert (Hin : k ∈ used' ∩ item_keys it).
      { rewrite Hnew. apply elem_of_union in Hk as [Hk|Hk].
        - apply elem_of_union. by left.
        - apply elem_of_union. right.
          apply elem_of_intersection in Hk as [Hk _].
          apply elem_of_intersection. split; [by apply (Hbefore _ Hk')|done]. }
      apply elem_of_intersection in Hin as [Hin _].
      apply elem_of_intersection. split; [by apply (Hafter _ Hk')|done].
Qed.

Lemma Forall2_cycled_agree its used0 used used' cs :
  (forall it k, it ∈ its -> k ∈ item_keys it -> k ∈ used0 <-> k ∈ used) ->
  Forall2 (fun it c => cycled it used used' c) its cs ->
  Forall2 (fun it c => cycled it used0 used' c) its cs.
Proof.
  intros Hagree Hall. induction Hall as [|it c its cs Hstep _ IH]; constructor.
  - apply (cycled_agree it used0 used used' used'); [|done|done].
    intros k Hk. apply (Hagree it); [by left|done].
  - apply IH. intros it' k Hit'. apply Hagree. by right.
Qed.

(** The draws of one question, from items that share no key: each is a
    step of the cycle of its own item, from the ledger of before the
    question to the ledger of after it. *)
Lemma issued_all_cycled chosen used clues used' :
  issued_all chosen used clues used' ->
  keys_apart chosen ->
  Forall2 (fun it c => cycled it used used' c) chosen clues
  /\ forall k, (forall it, it ∈ chosen -> k ∉ item_keys it) ->
               k ∈ used' <-> k ∈ used.
Proof.
  induction 1 as [used|it its used c used1 cs used2 Hstep Hrest IH];
    intros [Hnd Hapart].
  { split; [constructor|done]. }
  apply NoDup_cons in Hnd as [Hnotin Hnd].
  assert (Hrest_apart : keys_apart its).
  { split; [done|]. intros it1 it2 H1 H2. apply Hapart; by right. }
  destruct (IH Hrest_apart) as [Hcs Hframe].
  assert (Hhead : forall it', it' ∈ its -> item_keys it ## item_keys it').
  { intros it' Hit'. apply Hapart; [by left|by right|].
    intros ->. done. }
  split.
  - constructor.
    + apply (cycled_agree it used used used1 used2); [done| |by apply issued_cycled].
      intros k Hk. apply Hframe. intros it' Hit' Hk'.
      by apply (Hhead it' Hit' k).
    + apply (Forall2_cycled_agree its used used1); [|done].
      intros it' k Hit' Hk. symmetry. apply (issued_frame it used c used1); [done|].
      intros Hk'. by apply (Hhead it' Hit' k).
  - intros k Hk. rewrite Hframe.
    + apply (issued_frame it used c used1); [done|]. apply Hk. by left.
    + intros it' Hit'. apply Hk. by right.
Qed.

(** X20. One question and the ledger, in the no-repeat component: on a
    dataset without empty image URLs, in whose records no item is listed
    twice and no two items share a ledger key, a question draws from
    pairwise different items of its record, and for each of them the
    ledger of the country goes one step through the cycle of that item,
    from before the question to after it: an image whose key was in the
    ledger is shown only when the key of every image of its item was, and
    then it is the only key of the item left; otherwise its key joins the
    keys of the item in the ledger.  The keys of the other items stay as
    they were. *)
Theorem pickQuestion_cycles_item (ds : list CountryEntry)
    (excludeCountry : option string) (ledger : gmap string (gset string))
    (g : rng) :
  Forall (fun e => Forall urls_ok (items e) /\ keys_apart (items e)) ds ->
  match NoRepeat.pickQuestion (Some ds) excludeCountry ledger g with
  | (Some round, ledger', _) =>
      exists e chosen used',
        e ∈ ds
        /\ NoRepeat.nr_correctCountry round = country e
        /\ chosen ⊆ items e
        /\ NoDup chosen
        /\ ledger' = <[country e := used']> ledger
        /\ Forall2 (fun it c => cycled it (default ∅ (ledger !! country e)) used' c)
                   chosen (NoRepeat.nr_images round)
        /\ forall k, (forall it, it ∈ chosen -> k ∉ item_keys it) ->
                     k ∈ used' <-> k ∈ default ∅ (ledger !! country e)
  | (None, ledger', _) => ledger' = ledger
  end.
Proof.
  intros Hds. unfold NoRepeat.pickQuestion. simpl default at 1.
  set (candidates := List.filter _ ds).
  destruct (length candidates =? 0); [done|].
  match goal with
  | |- context [random_below (length ?p) g] => set (pool := p)
  end.
  assert (Hpool : forall e, e ∈ pool -> e ∈ ds).
  { assert (Hcand : forall e, e ∈ candidates -> e ∈ ds).
    { intros e. unfold candidates. rewrite !list_elem_of_In, filter_In. tauto. }
    intros e. unfold pool. destruct (_ && _); [|by auto].
    destruct (length _ =? 0); [by auto|].
    rewrite list_elem_of_In, filter_In, <-list_elem_of_In. intros [He _]. by auto. }
  destruct (random_below (length pool) g) as [j g1].
  destruct (pool !! j) as [correct|] eqn:Hj; [|done].
  apply list_elem_of_lookup_2, Hpool in Hj.
  rewrite Forall_forall in Hds. destruct (Hds correct Hj) as [Hurls [Hnd Hapart]].
  pose proof (shuffleArray_perm (validItems (items correct)) g1) as Hperm.
  destruct (shuffleArray (validItems (items correct)) g1) as [itemPool g2].
  simpl in Hperm.
  assert (Hchosen : forall it, it ∈ take 3 itemPool -> it ∈ validItems (items correct)).
  { intros it Hit. rewrite <-Hperm. by apply (subseteq_take 3). }
  assert (Hnodup : NoDup (take 3 itemPool)).
  { apply (sublist_NoDup _ itemPool); [|apply sublist_take].
    rewrite Hperm. apply (sublist_NoDup _ (items correct)); [done|].
    apply filter_sublist. }
  assert (Hsub : take 3 itemPool ⊆ items correct).
  { intros it Hit. by apply validItems_elem, Hchosen. }
  pose proof (pick_images_issued (take 3 itemPool)
    (default ∅ (ledger !! country correct)) g2) as Hrun.
  destruct (NoRepeat.pick_images _ _ g2) as [[clues used'] g3]. simpl in Hrun.
  assert (Hissued : issued_all (take 3 itemPool)
                      (default ∅ (ledger !! country correct)) clues used').
  { apply Hrun. apply Forall_forall. intros it Hit. split.
    - by apply (validItems_images it (items correct)), Hchosen.
    - rewrite Forall_forall in Hurls. by apply Hurls, Hsub. }
  destruct (issued_all_cycled _ _ _ _ Hissued) as [Hcycle Hframe].
  { split; [done|]. intros it it' Hit Hit'. apply Hapart; by apply Hsub. }
  exists correct, (take 3 itemPool), used'. simpl.
  split; [done|]. split; [done|]. split; [done|]. split; [done|].
  split; [done|]. split; done.
Qed.

Lemma pickQuestion_cycles_item_witness :
  match NoRepeat.pickQuestion (Some [france]) None {["France" := {["pole|b.jpg"]}]} [0; 1; 0] with
  | (Some round, ledger', _) =>
      exists e chosen used',
        e ∈ [france]
        /\ NoRepeat.nr_correctCountry round = country e
        /\ chosen ⊆ items e
        /\ NoDup chosen
        /\ ledger' = <[country e := used']> {["France" := {["pole|b.jpg"]}]}
        /\ Forall2
             (fun it c =>
                cycled it
                  (default ∅ (({["France" := {["pole|b.jpg"]}]} : gmap string (gset string))
                              !! country e))
                  used' c)
             chosen (NoRepeat.nr_images round)
        /\ forall k, (forall it, it ∈ chosen -> k ∉ item_keys it) ->
                     k ∈ used'
                     <-> k ∈ default ∅ (({["France" := {["pole|b.jpg"]}]}
                                          : gmap string (gset string)) !! country e)
  | (None, ledger', _) => ledger' = {["France" := {["pole|b.jpg"]}]}
  end.
Proof.
  apply (pickQuestion_cycles_item [france] None {["France" := {["pole|b.jpg"]}]} [0; 1; 0]).
  constructor; [|constructor]. split.
  - repeat constructor; unfold urls_ok; simpl;
      rewrite list_elem_of_singleton; discriminate.
  - split.
    + simpl. repeat constructor; rewrite ?elem_of_cons;
        try (by intros ?%not_elem_of_nil); intros H; decompose [or] H;
        try discriminate; by eapply not_elem_of_nil.
    + intros it it'. simpl. rewrite !elem_of_cons.
      intros [->|[->|[->|?%not_elem_of_nil]]] [->|[->|[->|?%not_elem_of_nil]]] Hne;
        try done; intros k [u [Hu ->]]%elem_of_item_keys [v [Hv Hk]]%elem_of_item_keys;
        simpl in Hu, Hv; apply list_elem_of_singleton in Hu, Hv; subst; discriminate.
Defined.

(** ** The first version of [pickQuestion] *)

Lemma NoDup_of_submseteq {A} (l k : list A) : l ⊆+ k -> NoDup k -> NoDup l.
Proof.
  intros [k' Hk]%submseteq_Permutation Hnd. rewrite Hk in Hnd.
  by apply NoDup_app in Hnd as [? _].
Qed.

Lemma take_shuffled_valid_submseteq its k g :
  take k (shuffleArray (validItems its) g).1 ⊆+ its.
Proof.
  transitivity (shuffleArray (validItems its) g).1.
  { apply sublist_submseteq, sublist_take. }
  rewrite shuffleArray_perm. apply sublist_submseteq, filter_sublist.
Qed.

Lemma App_pick_images_Forall2 chosen g :
  Forall (fun it => images it ≠ []) chosen ->
  Forall2 (fun it img => img_type img = type it /\ url img ∈ images it)
          chosen (App.pick_images chosen g).1.
Proof.
  intros Hall. revert g. induction Hall as [|it chosen Hne _ IH]; intros g.
  - constructor.
  - cbn [App.pick_images].
    pose proof (random_below_lt (length (images it)) g) as Hlt.
    destruct (random_below (length (images it)) g) as [j g1]. simpl in Hlt.
    specialize (IH g1). destruct (App.pick_images chosen g1) as [imgs g2].
    simpl in *. constructor; [|done]. split; [done|]. simpl.
    destruct (lookup_lt_is_Some_2 (images it) j) as [u Hu].
    { apply Hlt. destruct (images it); [done|]. simpl. lia. }
    rewrite Hu. simpl. by apply list_elem_of_lookup_2 in Hu.
Qed.

(** X21. [pickQuestion] of [src/GeoguessrFlashcards.js] returns [null] only
    when no record has three items with images.  Otherwise its question is
    about such a record and holds three images, drawn from three different
    items of that record, one image each, labelled with the type of its
    item; so that, when the items of the record have pairwise different
    types, so have the three images. *)
Theorem Classic_pickQuestion_sound (ds : option (list CountryEntry)) (g : rng) :
  match (Classic.pickQuestion ds g).1 with
  | None => forall e, e ∈ default [] ds -> length (validItems (items e)) < 3
  | Some q =>
      exists e chosen,
        e ∈ default [] ds
        /\ correctCountry q = country e
        /\ chosen ⊆+ items e
        /\ length chosen = 3
        /\ Forall2 (fun it img => img_type img = type it /\ url img ∈ images it)
                   chosen (q_images q)
        /\ (NoDup (type <$> items e) -> NoDup (img_type <$> q_images q))
  end.
Proof.
  unfold Classic.pickQuestion.
  set (cands := List.filter _ (default [] ds)).
  destruct (length cands =? 0) eqn:Hlen.
  { simpl. apply Nat.eqb_eq, nil_length_inv in Hlen. intros e He.
    destruct (Nat.ltb_spec (length (validItems (items e))) 3) as [|Hge]; [done|].
    assert (Hin : e ∈ cands).
    { unfold cands. rewrite list_elem_of_In, filter_In, <-list_elem_of_In.
      split; [done|]. by apply Nat.leb_le. }
    rewrite Hlen in Hin. by apply not_elem_of_nil in Hin. }
  assert (Hne : cands ≠ []).
  { intros Hnil. by rewrite Hnil in Hlen. }
  destruct (lookup_random_below cands g Hne) as [e He].
  destruct (random_below (length cands) g) as [j g1]. simpl in He. rewrite He.
  apply list_elem_of_lookup_2 in He. unfold cands in He.
  apply list_elem_of_In, filter_In in He as [Hin Hge%Nat.leb_le].
  apply list_elem_of_In in Hin.
  pose proof (take_shuffled_valid_submseteq (items e) 3 g1) as Hsub.
  pose proof (shuffleArray_length (validItems (items e)) g1) as Hl.
  pose proof (fun x => elem_of_take_shuffled (validItems (items e)) 3 g1 x) as Hval.
  destruct (shuffleArray (validItems (items e)) g1) as [itemPool g2]. simpl in *.
  assert (Hall : Forall (fun it => images it ≠ []) (take 3 itemPool)).
  { apply Forall_forall. intros it Hit%Hval.
    by apply (validItems_images it (items e)). }
  pose proof (App_pick_images_Forall2 (take 3 itemPool) g2 Hall) as Hpick.
  pose proof (pick_images_types (take 3 itemPool) g2) as Hty.
  destruct (App.pick_images (take 3 itemPool) g2) as [imgs g3]. simpl in *.
  exists e, (take 3 itemPool). split; [done|]. split; [done|]. split; [done|].
  split; [rewrite length_take; lia|]. split; [done|].
  intros Hnd. rewrite Hty.
  apply (NoDup_of_submseteq _ (type <$> items e)); [|done].
  by apply fmap_submseteq.
Qed.

(** ** What the filters offer *)

Lemma set_add_spec x set :
  (NoDup set -> NoDup (Listing.set_add x set))
  /\ forall y, y ∈ Listing.set_add x set <-> y ∈ set \/ y = x.
Proof.
  unfold Listing.set_add. case_bool_decide as Hx; split.
  - done.
  - intros y. split; [by left|]. by intros [?| ->].
  - intros Hnd. apply NoDup_app. split; [done|]. split; [|apply NoDup_singleton].
    intros y Hy ->%list_elem_of_singleton. done.
  - intros y. rewrite elem_of_app, list_elem_of_singleton. done.
Qed.

Lemma regions_loop_spec data regions :
  (NoDup regions -> NoDup (Listing.regions_loop data regions))
  /\ forall r, r ∈ Listing.regions_loop data regions
               <-> r ∈ regions \/ (r ≠ "" /\ exists e, e ∈ data /\ region e = r).
Proof.
  revert regions. induction data as [|e data IH]; intros regions.
  { simpl. split; [done|]. intros r. split; [by left|].
    intros [?|(_ & e & He & _)]; [done|]. by apply not_elem_of_nil in He. }
  cbn [Listing.regions_loop]. rewrite truthy_Some.
  destruct (IH (if bool_decide (region e ≠ "")
                then Listing.set_add (region e) regions else regions))
    as [IHnd IHin].
  destruct (set_add_spec (region e) regions) as [Hnd Hin].
  split.
  - intros Hr. apply IHnd. case_bool_decide; auto.
  - intros r. rewrite IHin. case_bool_decide as Hne.
    + rewrite Hin. split.
      * intros [[?| ->]|(? & e' & ? & ?)]; [by left|..].
        -- right. split; [done|]. exists e. split; [by left|done].
        -- right. split; [done|]. exists e'. split; [by right|done].
      * intros [?|(? & e' & [->|?]%elem_of_cons & <-)]; [by left; left|..].
        -- left. by right.
        -- right. split; [done|]. by exists e'.
    + split.
      * intros [?|(? & e' & ? & ?)]; [by left|].
        right. split; [done|]. exists e'. split; [by right|done].
      * intros [?|(Hr & e' & [->|?]%elem_of_cons & <-)]; [by left|..].
        -- congruence.
        -- right. split; [done|]. by exists e'.
Qed.

(** X22. Whatever the order [localeCompare] sorts in, [getRegions] lists
    each region once, and lists exactly the non-empty strings that are the
    region of some record: the empty region is never offered. *)
Theorem getRegions_spec (localeSort : list string -> list string)
    (data : option (list CountryEntry)) :
  (forall l, localeSort l ≡ₚ l) ->
  NoDup (Listing.getRegions localeSort data)
  /\ forall r, r ∈ Listing.getRegions localeSort data
               <-> r ≠ "" /\ exists e, e ∈ default [] data /\ region e = r.
Proof.
  intros Hsort. unfold Listing.getRegions.
  destruct (regions_loop_spec (default [] data) []) as [Hnd Hin]. split.
  - rewrite Hsort. apply Hnd. constructor.
  - intros r. rewrite Hsort, Hin. split; [|by right].
    intros [Hnil|?]; [|done]. by apply not_elem_of_nil in Hnil.
Qed.

Lemma codeSort_perm l : codeSort l ≡ₚ l.
Proof. apply merge_sort_Permutation. Qed.

Lemma getRegions_spec_witness :
  NoDup (Listing.getRegions codeSort (Some mixed))
  /\ forall r, r ∈ Listing.getRegions codeSort (Some mixed)
               <-> r ≠ "" /\ exists e, e ∈ default [] (Some mixed) /\ region e = r.
Proof. apply (getRegions_spec codeSort (Some mixed)). apply codeSort_perm. Defined.

Lemma types_of_items_spec its types :
  types_inv types ->
  types_inv (Listing.types_of_items its types)
  /\ (forall k t, (k, t) ∈ Listing.types_of_items its types ->
        (k, t) ∈ types \/ exists it, it ∈ its /\ type it = t)
  /\ (forall k, k ∈ types.*1 -> k ∈ (Listing.types_of_items its types).*1)
  /\ (forall it, it ∈ its -> type it ≠ "" ->
        toLowerCase (type it) ∈ (Listing.types_of_items its types).*1).
Proof.
  revert types. induction its as [|it its IH]; intros types Hinv.
  { simpl. split; [done|]. split; [by left|]. split; [done|].
    by intros it ?%not_elem_of_nil. }
  cbn [Listing.types_of_items]. rewrite truthy_Some.
  set (types' := if negb (bool_decide (type it ≠ "")) then types
                 else if Listing.map_has (toLowerCase (type it)) types then types
                      else types ++ [(toLowerCase (type it), type it)]).
  assert (Hstep : types_inv types'
            /\ (forall k t, (k, t) ∈ types' -> (k, t) ∈ types \/ type it = t)
            /\ (forall k, k ∈ types.*1 -> k ∈ types'.*1)
            /\ (type it ≠ "" -> toLowerCase (type it) ∈ types'.*1)).
  { unfold types', Listing.map_has. case_bool_decide as Hne; simpl.
    - case_bool_decide as Hhas.
      + split; [done|]. split; [by left|]. done.
      + destruct Hinv as [Hnd Hval]. split; [split|].
        * rewrite fmap_app. apply NoDup_app. split; [done|].
          split; [|apply NoDup_singleton].
          intros k Hk ->%list_elem_of_singleton. done.
        * intros k t [?|[= -> ->]%list_elem_of_singleton]%elem_of_app; [by eauto|].
          done.
        * split; [|split].
          -- intros k t [?|[= -> ->]%list_elem_of_singleton]%elem_of_app; by auto.
          -- intros k Hk. rewrite fmap_app, elem_of_app. by left.
          -- intros _. rewrite fmap_app, elem_of_app. right. by left.
    - split; [done|]. split; [by left|]. split; [done|]. done. }
  destruct Hstep as (Hinv' & Hfrom & Hkeys & Hcover).
  destruct (IH types' Hinv') as (IHinv & IHfrom & IHkeys & IHcover).
  split; [done|]. split; [|split].
  - intros k t [[?| <-]%Hfrom|(it' & ? & ?)]%IHfrom.
    + by left.
    + right. exists it. split; [by left|done].
    + right. exists it'. split; [by right|done].
  - intros k Hk. by apply IHkeys, Hkeys.
  - intros it' [->|Hit']%elem_of_cons Hne.
    + by apply IHkeys, Hcover.
    + by apply IHcover.
Qed.

Lemma types_loop_spec data types :
  types_inv types ->
  types_inv (Listing.types_loop data types)
  /\ (forall k t, (k, t) ∈ Listing.types_loop data types ->
        (k, t) ∈ types \/ exists it, it ∈ all_items data /\ type it = t)
  /\ (forall k, k ∈ types.*1 -> k ∈ (Listing.types_loop data types).*1)
  /\ (forall it, it ∈ all_items data -> type it ≠ "" ->
        toLowerCase (type it) ∈ (Listing.types_loop data types).*1).
Proof.
  revert types. induction data as [|e data IH]; intros types Hinv.
  { simpl. split; [done|]. split; [by left|]. split; [done|].
    by intros it ?%not_elem_of_nil. }
  cbn [Listing.types_loop]. unfold all_items. csimpl. fold (all_items data).
  destruct (types_of_items_spec (items e) types Hinv)
    as (Hinv' & Hfrom & Hkeys & Hcover).
  destruct (IH _ Hinv') as (IHinv & IHfrom & IHkeys & IHcover).
  split; [done|]. split; [|split].
  - intros k t [[?|(it & ? & ?)]%Hfrom|(it & ? & ?)]%IHfrom.
    + by left.
    + right. exists it. rewrite elem_of_app. by auto.
    + right. exists it. rewrite elem_of_app. by auto.
  - intros k Hk. by apply IHkeys, Hkeys.
  - intros it [Hit|Hit]%elem_of_app Hne.
    + by apply IHkeys, Hcover.
    + by apply IHcover.
Qed.

(** X23. Whatever the order [localeCompare] sorts in, [getItemTypes] lists
    no two types that are equal up to case; every type it lists is the
    non-empty type of an item of the dataset; and every item with a
    non-empty type has its type listed, up to case. *)
Theorem getItemTypes_spec (localeSort : list string -> list string)
    (data : option (list CountryEntry)) :
  (forall l, localeSort l ≡ₚ l) ->
  NoDup (toLowerCase <$> Listing.getItemTypes localeSort data)
  /\ (forall t, t ∈ Listing.getItemTypes localeSort data ->
        t ≠ "" /\ exists it, it ∈ all_items (default [] data) /\ type it = t)
  /\ (forall it, it ∈ all_items (default [] data) -> type it ≠ "" ->
        exists t, t ∈ Listing.getItemTypes localeSort data
                  /\ toLowerCase t = toLowerCase (type it)).
Proof.
  intros Hsort. unfold Listing.getItemTypes.
  assert (Hnil : types_inv []).
  { split; [constructor|]. by intros k t ?%not_elem_of_nil. }
  destruct (types_loop_spec (default [] data) [] Hnil)
    as ([Hnd Hval] & Hfrom & _ & Hcover).
  set (types := Listing.types_loop (default [] data) []) in *.
  assert (Hkeys : toLowerCase <$> types.*2 = types.*1).
  { rewrite <-list_fmap_compose. apply list_fmap_ext.
    intros i [k t] Hkt%list_elem_of_lookup_2. simpl.
    by destruct (Hval k t Hkt) as [-> _]. }
  split; [|split].
  - rewrite Hsort. by rewrite Hkeys.
  - intros t. rewrite Hsort. intros ([k t'] & -> & Hkt)%list_elem_of_fmap.
    simpl. split; [by apply (Hval k t')|].
    destruct (Hfrom k t' Hkt) as [Hnil'|?]; [|done].
    by apply not_elem_of_nil in Hnil'.
  - intros it Hit Hne. specialize (Hcover it Hit Hne).
    apply list_elem_of_fmap in Hcover as ([k t] & Hk & Hkt). simpl in Hk.
    exists t. split.
    + rewrite Hsort. apply list_elem_of_fmap. by exists (k, t).
    + destruct (Hval k t Hkt) as [<- _]. done.
Qed.

Lemma getItemTypes_spec_witness :
  NoDup (toLowerCase <$> Listing.getItemTypes codeSort (Some mixed))
  /\ (forall t, t ∈ Listing.getItemTypes codeSort (Some mixed) ->
        t ≠ "" /\ exists it, it ∈ all_items (default [] (Some mixed)) /\ type it = t)
  /\ (forall it, it ∈ all_items (default [] (Some mixed)) -> type it ≠ "" ->
        exists t, t ∈ Listing.getItemTypes codeSort (Some mixed)
                  /\ toLowerCase t = toLowerCase (type it)).
Proof. apply (getItemTypes_spec codeSort (Some mixed)). apply codeSort_perm. Defined.

(** ** Revealing clues *)

Lemma layer_click_question name st :
  Session.question (Session.layer_click name st) = Session.question st.
Proof.
  unfold Session.layer_click, Session.handleCountryClick.
  destruct (truthy name); [|done].
  destruct (Session.question st) eqn:Hq; [|done].
  by destruct (truthy (Session.selected st)).
Qed.

Lemma questionOptions_count r t :
  default 3 (clueCount (View.questionOptions r t)) = 3.
Proof. done. Qed.

(** X24. In every state of the filtering component: the session inside it
    is a state a session reaches; a filter error is shown only while no
    question is held; and while a question is held it has three clues, of
    which at least one and at most three are revealed, the number shown
    being the number revealed.  Two requests to reveal a clue show all
    three. *)
Theorem view_clues_in_range (v : View.state) :
  View.reachable v ->
  Session.reachable (View.session v)
  /\ (View.filterError v = true -> Session.question (View.session v) = None)
  /\ forall q, Session.question (View.session v) = Some q ->
       length (q_images q) = 3
       /\ 1 ≤ View.visibleClues v ≤ 3
       /\ View.cluesShown v = View.visibleClues v
       /\ View.visibleClues (View.reveal (View.reveal v)) = 3.
Proof.
  assert (Hshape : forall v q,
            Session.question (View.session v) = Some q ->
            length (q_images q) = 3 -> 1 ≤ View.visibleClues v ≤ 3 ->
            length (q_images q) = 3
            /\ 1 ≤ View.visibleClues v ≤ 3
            /\ View.cluesShown v = View.visibleClues v
            /\ View.visibleClues (View.reveal (View.reveal v)) = 3).
  { intros v' q Hq Hlen Hvis. split; [done|]. split; [done|].
    unfold View.cluesShown, View.reveal. rewrite Hq. simpl. rewrite Hq. simpl.
    rewrite Hlen. lia. }
  assert (Hinv : View.reachable v ->
            Session.reachable (View.session v)
            /\ (View.filterError v = true -> Session.question (View.session v) = None)
            /\ forall q, Session.question (View.session v) = Some q ->
                 length (q_images q) = 3 /\ 1 ≤ View.visibleClues v ≤ 3).
  { induction 1 as [|data r t resetStats g v _ IH|v _ IH|name v _ IH].
    - split; [constructor|]. split; [done|]. done.
    - unfold View.rerollQuestion. destruct data as [ds|]; [|exact IH].
      pose proof (App_pickQuestion_result (Some ds) (View.questionOptions r t) g)
        as Hpick.
      destruct (App.pickQuestion (Some ds) (View.questionOptions r t) g)
        as [[q|] g']; simpl in *.
      + destruct Hpick as (e & _ & _ & _ & Hlen & _).
        split; [by apply Session.reach_reroll, IH|]. split; [done|].
        intros q' [= <-]. split; [done|]. lia.
      + split; [by apply Session.reach_reroll, IH|]. split; [done|]. done.
    - destruct IH as (Hs & Hf & Hq). unfold View.reveal.
      destruct (Session.question (View.session v)) as [q|] eqn:Heq; simpl.
      + split; [done|]. split; [by intros ?%Hf|].
        rewrite Heq. intros q' [= <-]. destruct (Hq q eq_refl) as [Hlen Hvis].
        split; [done|]. rewrite Hlen. lia.
      + rewrite Heq. done.
    - destruct IH as (Hs & Hf & Hq). simpl. rewrite layer_click_question.
      split; [by apply Session.reach_click|]. done. }
  intros Hreach. destruct (Hinv Hreach) as (Hs & Hf & Hq).
  split; [done|]. split; [done|]. intros q Hqq.
  destruct (Hq q Hqq) as [Hlen Hvis]. by apply Hshape.
Qed.

Lemma view_clues_in_range_witness :
  Session.reachable (View.session first_view)
  /\ (View.filterError first_view = true
      -> Session.question (View.session first_view) = None)
  /\ forall q, Session.question (View.session first_view) = Some q ->
       length (q_images q) = 3
       /\ 1 ≤ View.visibleClues first_view ≤ 3
       /\ View.cluesShown first_view = View.visibleClues first_view
       /\ View.visibleClues (View.reveal (View.reveal first_view)) = 3.
Proof.
  apply (view_clues_in_range first_view).
  apply View.reach_reroll, View.reach_initial.
Defined.

(** ** Folder names *)

Lemma lower_upper_char c : lower_char (Compiler.upper_char c) = lower_char c.
Proof. by_char c. Qed.

Lemma is_sep_upper_char c : Compiler.is_sep (Compiler.upper_char c) = Compiler.is_sep c.
Proof. by_char c. Qed.

Lemma is_lower_upper_char c : is_lower (Compiler.upper_char c) = false.
Proof. by_char c. Qed.

Lemma title_from_lower b s : toLowerCase (Compiler.title_from b s) = toLowerCase s.
Proof.
  revert b. induction s as [|c s IH]; intros b; simpl; [done|].
  rewrite IH. by destruct (b && is_lower c); rewrite ?lower_upper_char.
Qed.

Lemma title_from_idem b s :
  Compiler.title_from b (Compiler.title_from b s) = Compiler.title_from b s.
Proof.
  revert b. induction s as [|c s IH]; intros b; simpl; [done|].
  destruct (b && is_lower c) eqn:Hb.
  - rewrite is_lower_upper_char, andb_false_r, is_sep_upper_char. by rewrite IH.
  - rewrite Hb. by rewrite IH.
Qed.

(** X25. [NORMALIZE_COUNTRY] changes nothing but the case of letters, does
    not leave a letter of [a-z] at the head of the name, and gives a name
    that it leaves alone. *)
Theorem NORMALIZE_COUNTRY_spec (name : string) :
  toLowerCase (Compiler.NORMALIZE_COUNTRY name) = toLowerCase name
  /\ match Compiler.NORMALIZE_COUNTRY name with
     | EmptyString => name = EmptyString
     | String c _ => is_lower c = false
     end
  /\ Compiler.NORMALIZE_COUNTRY (Compiler.NORMALIZE_COUNTRY name)
     = Compiler.NORMALIZE_COUNTRY name.
Proof.
  unfold Compiler.NORMALIZE_COUNTRY. split; [apply title_from_lower|].
  split; [|apply title_from_idem].
  destruct name as [|c r]; simpl; [done|].
  destruct (is_lower c) eqn:Hc; [apply is_lower_upper_char|done].
Qed.

(** ** File names *)

Lemma skip_all p q s :
  all_chars q s = true -> all_chars q (Compiler.skip p s) = true.
Proof.
  induction s as [|c s IH]; simpl; [done|].
  intros H. destruct (p c); [|done].
  apply andb_true_iff in H as [_ H]. by apply IH.
Qed.

Lemma paren_counter_digit s :
  Compiler.paren_counter s = true -> all_chars no_digit s = false.
Proof.
  intros Hm. destruct (all_chars no_digit s) eqn:Hall; [|done].
  apply (skip_all is_space) in Hall. unfold Compiler.paren_counter in Hm.
  destruct (Compiler.skip is_space s) as [|c r]; [done|].
  destruct r as [|d r']; [by destruct c as [[] [] [] [] [] [] [] []]|].
  simpl in Hall. unfold no_digit at 2 in Hall.
  destruct (Compiler.is_digit d).
  - by rewrite andb_false_r in Hall.
  - by destruct c as [[] [] [] [] [] [] [] []].
Qed.

Lemma plain_counter_digit s :
  Compiler.plain_counter s = true -> all_chars no_digit s = false.
Proof.
  intros Hm. destruct (all_chars no_digit s) eqn:Hall; [|done].
  apply (skip_all Compiler.is_sep) in Hall. unfold Compiler.plain_counter in Hm.
  destruct (Compiler.skip Compiler.is_sep s) as [|d r]; [done|].
  simpl in Hall. unfold no_digit at 1 in Hall.
  destruct (Compiler.is_digit d); done.
Qed.

Lemma remove_suffix_keep (m : string -> bool) (P : string -> Prop) :
  (forall s, P s -> m s = false) ->
  (forall c r, P (String c r) -> P r) ->
  forall s, P s -> Compiler.remove_suffix m s = s.
Proof.
  intros Hm Htail s. induction s as [|c r IH]; intros Hs.
  - simpl. by rewrite (Hm _ Hs).
  - cbn [Compiler.remove_suffix]. rewrite (Hm _ Hs). f_equal.
    apply IH. by apply (Htail c).
Qed.

(** X26. A file name without digits is its own type, up to the whitespace
    around it: [deriveType] only removes counters. *)
Theorem deriveType_no_digit (name : string) :
  all_chars no_digit name = true ->
  Compiler.deriveType name = trim name.
Proof.
  intros Hname. unfold Compiler.deriveType.
  assert (Htrim : all_chars no_digit (trim name) = true).
  { by apply trimEnd_all, trimStart_all. }
  assert (Htail : forall c r, all_chars no_digit (String c r) = true ->
                    all_chars no_digit r = true).
  { intros c r H. simpl in H. by apply andb_true_iff in H as [_ ?]. }
  rewrite (remove_suffix_keep Compiler.paren_counter
             (fun s => all_chars no_digit s = true)); [|..|done]; [| |done].
  - rewrite (remove_suffix_keep Compiler.plain_counter
               (fun s => all_chars no_digit s = true)); [|..|done]; [| |done].
    + apply trim_idem.
    + intros s Hs. destruct (Compiler.plain_counter s) eqn:Hm; [|done].
      apply plain_counter_digit in Hm. congruence.
  - intros s Hs. destruct (Compiler.paren_counter s) eqn:Hm; [|done].
    apply paren_counter_digit in Hm. congruence.
Qed.

Lemma deriveType_no_digit_witness :
  Compiler.deriveType "  Yellow Sign " = trim "  Yellow Sign ".
Proof. apply (deriveType_no_digit "  Yellow Sign "). reflexivity. Defined.

Lemma digit_chars c :
  Compiler.is_digit c = true -> is_space c = false /\ Compiler.is_sep c = false.
Proof. by_char c. Qed.

Lemma space_is_sep c : is_space c = true -> Compiler.is_sep c = true.
Proof. unfold Compiler.is_sep. by intros ->. Qed.

Lemma word_end_cons c r :
  r <> EmptyString -> word_end (String c r) = word_end r.
Proof. by destruct r. Qed.

Lemma word_end_single c :
  word_end (String c EmptyString)
  = negb (Compiler.is_sep c) && negb (Compiler.is_digit c).
Proof. done. Qed.

Lemma word_end_nonempty s : word_end s = true -> s <> EmptyString.
Proof. by destruct s. Qed.

(** A string of digits, not empty. *)
Lemma digits_shape digits :
  all_chars Compiler.is_digit digits = true -> digits <> EmptyString ->
  exists d r, digits = String d r /\ Compiler.is_digit d = true
              /\ Compiler.skip Compiler.is_digit r = EmptyString
              /\ last_digit digits = true /\ trimEnd digits = digits.
Proof.
  intros Hall Hne. destruct digits as [|d r]; [done|]. exists d, r.
  simpl in Hall. apply andb_true_iff in Hall as [Hd Hr].
  split; [done|]. split; [done|]. clear Hne. split; [|split].
  - induction r as [|c r IH]; simpl in *; [done|].
    apply andb_true_iff in Hr as [-> Hr]. by apply IH.
  - revert d Hd. induction r as [|c r IH]; intros d Hd; [done|].
    simpl in Hr. apply andb_true_iff in Hr as [Hc Hr].
    change (last_digit (String c r) = true). by apply IH.
  - revert d Hd. induction r as [|c r IH]; intros d Hd.
    + simpl. by destruct (digit_chars d Hd) as [-> _].
    + simpl in Hr. apply andb_true_iff in Hr as [Hc Hr].
      specialize (IH Hr c Hc). cbn [trimEnd] in *. by rewrite IH.
Qed.

Lemma last_digit_app s t :
  last_digit t = true -> last_digit (s +:+ t) = true.
Proof.
  intros Ht. induction s as [|c s IH]; simpl; [done|].
  by destruct (s +:+ t).
Qed.

Lemma paren_counter_last s :
  Compiler.paren_counter s = true -> last_digit s = false.
Proof.
  unfold Compiler.paren_counter.
  assert (Hsp : forall t, Compiler.skip is_space t = EmptyString -> last_digit t = false).
  { induction t as [|c t IH]; simpl; [done|].
    destruct (is_space c) eqn:Hc; [|done]. intros Ht. specialize (IH Ht).
    destruct t; [|done].
    destruct (Compiler.is_digit c) eqn:Hd; [|done].
    destruct (digit_chars c Hd). congruence. }
  assert (Hclose : forall t,
            match Compiler.skip Compiler.is_digit t with
            | String ")" r' => match Compiler.skip is_space r' with
                               | EmptyString => true | _ => false end
            | _ => false
            end = true -> last_digit t = false).
  { induction t as [|c t IH]; simpl; [done|].
    destruct (Compiler.is_digit c) eqn:Hd.
    - intros Ht. specialize (IH Ht). destruct t; [|done]. done.
    - intros Ht.
      destruct c as [[] [] [] [] [] [] [] []]; try done.
      destruct (Compiler.skip is_space t) eqn:Hs; [|done].
      apply Hsp in Hs. by destruct t. }
  induction s as [|c s IH]; simpl; [done|].
  destruct (is_space c) eqn:Hc.
  - intros Hm. specialize (IH Hm). destruct s; [|done].
    destruct (Compiler.is_digit c) eqn:Hd; [|done].
    destruct (digit_chars c Hd). congruence.
  - destruct c as [[] [] [] [] [] [] [] []]; try done.
    destruct s as [|d r]; [done|]. intros [_ Hm]%andb_true_iff.
    apply Hclose in Hm. by destruct r.
Qed.

Lemma word_end_tail c r :
  word_end (String c r) = true ->
  (Compiler.is_sep c = true \/ Compiler.is_digit c = true) ->
  r <> EmptyString /\ word_end r = true.
Proof.
  destruct r as [|c' r']; [|done]. simpl.
  intros [Hs Hd]%andb_true_iff [H|H]; rewrite H in *; done.
Qed.

Lemma skip_space_word r tail :
  word_end r = true -> Compiler.skip is_space (r +:+ tail) <> EmptyString.
Proof.
  induction r as [|c r IH]; [done|]. intros Hw. simpl.
  destruct (is_space c) eqn:Hc; [|done].
  destruct (word_end_tail c r Hw) as [_ Hr]; [left; by apply space_is_sep|].
  by apply IH.
Qed.

Lemma skip_digit_word r tail :
  word_end r = true ->
  Compiler.skip is_space (Compiler.skip Compiler.is_digit (r +:+ tail)) <> EmptyString.
Proof.
  induction r as [|c r IH]; [done|]. intros Hw. simpl.
  destruct (Compiler.is_digit c) eqn:Hc.
  - destruct (word_end_tail c r Hw) as [_ Hr]; [by right|]. by apply IH.
  - by apply (skip_space_word (String c r)).
Qed.

Lemma plain_counter_inside b tail :
  word_end b = true -> Compiler.plain_counter (b +:+ tail) = false.
Proof.
  induction b as [|c r IH]; [done|]. intros Hw.
  unfold Compiler.plain_counter in *. simpl.
  destruct (Compiler.is_sep c) eqn:Hs.
  - destruct (word_end_tail c r Hw) as [_ Hr]; [by left|]. by apply IH.
  - destruct (Compiler.is_digit c) eqn:Hd; [|done]. simpl.
    destruct (word_end_tail c r Hw) as [_ Hr]; [by right|].
    pose proof (skip_digit_word r tail Hr) as Hne.
    by destruct (Compiler.skip is_space _).
Qed.

Lemma plain_counter_counter seps digits :
  all_chars Compiler.is_sep seps = true ->
  all_chars Compiler.is_digit digits = true -> digits <> EmptyString ->
  Compiler.plain_counter (seps +:+ digits) = true.
Proof.
  intros Hseps Hdigits Hne.
  destruct (digits_shape digits Hdigits Hne) as (d & r & -> & Hd & Hr & _).
  unfold Compiler.plain_counter.
  assert (Compiler.skip Compiler.is_sep (seps +:+ String d r) = String d r) as ->.
  { induction seps as [|c seps IH]; simpl.
    - by destruct (digit_chars d Hd) as [_ ->].
    - simpl in Hseps. apply andb_true_iff in Hseps as [-> Hseps]. by apply IH. }
  by rewrite Hd, Hr.
Qed.

Lemma remove_counter base tail :
  word_end base = true ->
  Compiler.plain_counter tail = true ->
  Compiler.remove_suffix Compiler.plain_counter (base +:+ tail) = base.
Proof.
  intros Hw Htail. induction base as [|c r IH]; [done|].
  change (String c r +:+ tail) with (String c (r +:+ tail)).
  cbn [Compiler.remove_suffix].
  change (String c (r +:+ tail)) with (String c r +:+ tail).
  rewrite (plain_counter_inside (String c r) tail Hw). f_equal.
  destruct r as [|c' r'].
  - change (EmptyString +:+ tail) with tail. destruct tail; [done|].
    cbn [Compiler.remove_suffix]. by rewrite Htail.
  - by apply IH.
Qed.

Lemma word_end_trimEnd b : word_end b = true -> trimEnd b = b.
Proof.
  induction b as [|c r IH]; [done|]. intros Hw.
  destruct r as [|c' r'].
  - simpl in *. apply andb_true_iff in Hw as [Hs _].
    destruct (is_space c) eqn:Hc; [|done].
    by rewrite (space_is_sep c Hc) in Hs.
  - specialize (IH Hw). cbn [trimEnd] in *. by rewrite IH.
Qed.

Lemma trimEnd_app s t :
  trimEnd t = t -> t <> EmptyString -> trimEnd (s +:+ t) = s +:+ t.
Proof.
  intros Ht Hne. induction s as [|c s IH]; [done|].
  change (trimEnd (String c (s +:+ t)) = String c (s +:+ t)).
  cbn [trimEnd]. rewrite IH. destruct (s +:+ t) eqn:Hst; [|done].
  destruct s as [|a s'].
  - change (t = EmptyString) in Hst. congruence.
  - change (String a (s' +:+ t) = EmptyString) in Hst. discriminate.
Qed.

Lemma app_head_space s t :
  s <> EmptyString -> head_space (s +:+ t) = head_space s.
Proof. by destruct s. Qed.

(** X27. [deriveType] strips a trailing counter: for a base name that ends
    with a character that is neither a separator nor a digit and does not
    start with whitespace, followed by separators (whitespace, [_], [-];
    possibly none) and by one digit or more, it returns the base name.
    A name that is only a counter gets the empty type (such a file is
    skipped). *)
Theorem deriveType_counter (base seps digits : string) :
  all_chars Compiler.is_sep seps = true ->
  all_chars Compiler.is_digit digits = true ->
  digits <> EmptyString ->
  (word_end base = true -> head_space base = false ->
   Compiler.deriveType (base +:+ seps +:+ digits) = base)
  /\ Compiler.deriveType digits = EmptyString.
Proof.
  intros Hseps Hdigits Hne.
  destruct (digits_shape digits Hdigits Hne) as (d & r & Heq & Hd & Hr & Hlast & Htrim).
  pose proof (plain_counter_counter seps digits Hseps Hdigits Hne) as Hcounter.
  assert (Hparen : forall s, s = EmptyString \/ last_digit s = true ->
                     Compiler.paren_counter s = false).
  { intros s [->|Hs]; [done|].
    destruct (Compiler.paren_counter s) eqn:Hm; [|done].
    apply paren_counter_last in Hm. congruence. }
  assert (Htail : forall c s, String c s = EmptyString \/ last_digit (String c s) = true ->
                    s = EmptyString \/ last_digit s = true).
  { intros c s [?|Hs]; [done|]. destruct s; [by left|by right]. }
  split.
  - intros Hw Hhead. unfold Compiler.deriveType.
    set (name := base +:+ seps +:+ digits).
    assert (Hname : trim name = name).
    { unfold trim, name. rewrite trimStart_no_head.
      - apply trimEnd_app; [|by destruct seps, digits].
        by apply trimEnd_app.
      - rewrite app_head_space; [done|]. by apply word_end_nonempty. }
    rewrite Hname.
    rewrite (remove_suffix_keep Compiler.paren_counter
               (fun s => s = EmptyString \/ last_digit s = true) Hparen Htail).
    + unfold name. rewrite (remove_counter base _ Hw Hcounter).
      unfold trim. rewrite trimStart_no_head by done. by apply word_end_trimEnd.
    + right. unfold name. by apply last_digit_app, last_digit_app.
  - unfold Compiler.deriveType.
    assert (Hname : trim digits = digits).
    { unfold trim. rewrite trimStart_no_head; [done|]. rewrite Heq. simpl.
      by destruct (digit_chars d Hd) as [-> _]. }
    rewrite Hname.
    rewrite (remove_suffix_keep Compiler.paren_counter
               (fun s => s = EmptyString \/ last_digit s = true) Hparen Htail)
      by (by right).
    pose proof (plain_counter_counter EmptyString digits eq_refl Hdigits Hne) as Hwhole.
    change (EmptyString +:+ digits) with digits in Hwhole.
    rewrite Heq in *. cbn [Compiler.remove_suffix].
    by rewrite Hwhole.
Qed.

Lemma deriveType_counter_witness :
  Compiler.deriveType ("Yellow Sign" +:+ " _" +:+ "012") = "Yellow Sign"
  /\ Compiler.deriveType "012" = EmptyString.
Proof.
  destruct (deriveType_counter "Yellow Sign" " _" "012") as [H1 H2];
    [reflexivity|reflexivity|discriminate|].
  split; [apply H1; reflexivity|exact H2].
Defined.

(** ** From the dataset file to a question *)

(** X28. From the file to the question, in the typed component: when the
    dataset has passed validation and the region asked for is one that
    [getRegions] offers, every question that [pickQuestion] returns is
    about a record of that region, its country is a non-empty name listed
    by [getCountries], and each of its [clueCount] images has a non-empty
    URL and a non-empty type. *)
Theorem validated_pipeline (localeSort : list string -> list string)
    (v : Schema.json) (d : list CountryEntry) (r : string)
    (o : QuestionOptions) (g : rng) :
  (forall l, localeSort l ≡ₚ l) ->
  Schema.validateDataset v = Schema.Ok d ->
  r ∈ Listing.getRegions localeSort (Some d) ->
  opt_region o = Some r ->
  match (Lib.pickQuestion (Some d) o g).1 with
  | None => Lib.candidates (Some d) o = []
  | Some q =>
      exists e,
        e ∈ d /\ region e = r
        /\ correctCountry q = country e
        /\ correctCountry q ∈ Listing.getCountries (Some d)
        /\ correctCountry q ≠ ""
        /\ length (q_images q) = default 3 (clueCount o)
        /\ forall img, img ∈ q_images q -> url img ≠ "" /\ img_type img ≠ ""
  end.
Proof.
  intros Hsort Hvalid Hr Hopt.
  pose proof (Lib_pickQuestion_result (Some d) o g) as Hpick.
  destruct (Lib.pickQuestion (Some d) o g).1 as [q|]; [|done].
  destruct Hpick as (e & Hcand & Hin & Hcountry & Hlen & _ & Himgs).
  simpl in Hin.
  assert (Hrne : r ≠ "").
  { unfold Listing.getRegions in Hr. rewrite Hsort in Hr.
    apply regions_loop_spec in Hr as [Hnil|[? _]]; [|done].
    by apply not_elem_of_nil in Hnil. }
  assert (Hregion : region e = r).
  { unfold Lib.candidates in Hcand.
    apply list_elem_of_In, filter_In in Hcand as [_ Hc].
    apply (region_guard o r e Hopt Hrne).
    unfold Lib.is_candidate in Hc. by destruct (_ && _). }
  apply validateDataset_Ok in Hvalid as [_ Hall].
  rewrite forallb_forall in Hall.
  pose proof (Hall e (proj1 (list_elem_of_In _ _) Hin)) as He.
  unfold Schema.entry_ok in He.
  apply andb_true_iff in He as [[[Hc _]%andb_true_iff _]%andb_true_iff Hits].
  rewrite forallb_forall in Hits.
  exists e. split; [done|]. split; [done|]. split; [done|]. split; [|split; [|split]].
  - rewrite Hcountry. unfold Listing.getCountries. simpl.
    apply list_elem_of_fmap. by exists e.
  - rewrite Hcountry. unfold Schema.nonempty in Hc.
    apply negb_true_iff, String.eqb_neq in Hc. done.
  - done.
  - intros img (it & Hit & Hty & Hurl)%Himgs.
    specialize (Hits it (proj1 (list_elem_of_In _ _) Hit)).
    destruct (item_ok_usable it Hits) as [_ Hok].
    unfold Schema.item_ok in Hits.
    apply andb_true_iff in Hits as [[Ht _]%andb_true_iff _].
    apply negb_true_iff, String.eqb_neq in Ht. split.
    + intros Hempty. apply Hok. by rewrite <-Hempty.
    + by rewrite Hty.
Qed.

Lemma validated_pipeline_witness :
  match (Lib.pickQuestion (Some [france]) in_europe [0; 2; 1]).1 with
  | None => Lib.candidates (Some [france]) in_europe = []
  | Some q =>
      exists e,
        e ∈ [france] /\ region e = "Europe"
        /\ correctCountry q = country e
        /\ correctCountry q ∈ Listing.getCountries (Some [france])
        /\ correctCountry q ≠ ""
        /\ length (q_images q) = default 3 (clueCount in_europe)
        /\ forall img, img ∈ q_images q -> url img ≠ "" /\ img_type img ≠ ""
  end.
Proof.
  apply (validated_pipeline codeSort france_annotated [france] "Europe"
                            in_europe [0; 2; 1]).
  - apply codeSort_perm.
  - reflexivity.
  - vm_compute. left.
  - reflexivity.
Defined.
